(** * Route guide service (server/server.go): a shallow embedding

    The server keeps an ordered list of known features and a registry of
    route notes keyed by a serialized location.  Its four handlers are
    embedded below as Rocq functions over explicit stream states:

    - 32-bit integers are [Z] with the wrap-around written out ([Int32.wrap]);
    - [float64] is IEEE-754 binary64, taken from the Standard Library's
      executable specification [SpecFloat] (precision 53, emax 1024);
    - the note registry [map[string][]*RouteNote] is a [gmap string (list _)];
    - gRPC streams are records carrying what the transport will deliver or
      accept, so a handler is a function from the stream to its outcome. *)

From Stdlib Require Import ZArith List Ascii String Lia Bool.
From Stdlib Require Import Floats.SpecFloat.
From stdpp Require Import base gmap strings pretty.

Local Open Scope Z_scope.

(** ** Machine integers *)

Module Int32.

Definition min_signed : Z := - 2 ^ 31.
Definition max_signed : Z := 2 ^ 31 - 1.
Definition modulus : Z := 2 ^ 32.

(** The values an [int32] variable can hold. *)
Definition in_range (z : Z) : Prop := min_signed <= z <= max_signed.

(** Two's-complement reduction: what Go's [int32] arithmetic keeps of a
    mathematical result. *)
Definition wrap (z : Z) : Z := (z + 2 ^ 31) mod modulus - 2 ^ 31.

(** [x + y] and [x++] on [int32]. *)
Definition add (x y : Z) : Z := wrap (x + y).
Definition incr (x : Z) : Z := add x 1.

End Int32.

(** ** float64 *)

(** IEEE-754 binary64 values. *)
Abbreviation float64 := spec_float.

Module F64.

Definition prec : Z := 53.
Definition emax : Z := 1024.

(** [float64(x)] for an integer [x]: the nearest binary64 value. *)
Definition of_Z (x : Z) : float64 := binary_normalize prec emax x 0 false.

Definition add : float64 -> float64 -> float64 := SFadd prec emax.
Definition sub : float64 -> float64 -> float64 := SFsub prec emax.
Definition mul : float64 -> float64 -> float64 := SFmul prec emax.
Definition div : float64 -> float64 -> float64 := SFdiv prec emax.
Definition sqrt : float64 -> float64 := SFsqrt prec emax.
Definition neg : float64 -> float64 := SFopp.

(** Go's comparison operators on floats; all are false on NaN. *)
Definition eqb (x y : float64) : bool := SFeqb x y.
Definition ltb (x y : float64) : bool := SFltb x y.
Definition leb (x y : float64) : bool := SFleb x y.
Definition geb (x y : float64) : bool := SFleb y x.

Definition is_nan (x : float64) : bool :=
  match x with S754_nan => true | _ => false end.

Definition is_inf (x : float64) (negative : bool) : bool :=
  match x with S754_infinity s => Bool.eqb s negative | _ => false end.

Definition signbit (x : float64) : bool :=
  match x with
  | S754_zero s | S754_infinity s | S754_finite s _ _ => s
  | S754_nan => false
  end.

Definition is_finite (x : float64) : bool :=
  match x with
  | S754_zero _ | S754_finite _ _ _ => true
  | _ => false
  end.

(** The 53-bit mantissa of a positive integer below 2^53: the integer
    shifted left until its leading bit is bit 52. *)
Definition norm_mant (m : positive) : positive :=
  match (prec - Zpos (digits2_pos m))%Z with
  | Zpos k => Pos.iter xO m k
  | _ => m
  end.

(** [x] is a finite number and [|x| < 2^k]. *)
Definition magnitude_le (x : float64) (k : Z) : Prop :=
  match x with
  | S754_zero _ => True
  | S754_finite _ m e => Zpos (digits2_pos m) + e <= k
  | _ => False
  end.

Definition magnitude_leb (x : float64) (k : Z) : bool :=
  match x with
  | S754_zero _ => true
  | S754_finite _ m e => Zpos (digits2_pos m) + e <=? k
  | _ => false
  end.

Definition pos_zero : float64 := S754_zero false.
Definition one : float64 := of_Z 1.

(** Truncation toward zero of a finite value, as an unbounded integer. *)
Definition trunc (x : float64) : option Z :=
  match x with
  | S754_zero _ => Some 0
  | S754_finite s m e =>
      let a := match e with
               | Z0 => Zpos m
               | Zpos _ => Zpos m * 2 ^ e
               | Zneg _ => Zpos m / 2 ^ (- e)
               end in
      Some (if s then - a else a)
  | _ => None
  end.

End F64.

(** [math.Min] and [math.Max] of Go's standard library, with their
    documented special cases (infinities, NaN, signed zeros). *)
Module math.

Definition Min (x y : float64) : float64 :=
  if F64.is_inf x true || F64.is_inf y true then S754_infinity true
  else if F64.is_nan x || F64.is_nan y then S754_nan
  else if F64.eqb x F64.pos_zero && F64.eqb x y then
    (if F64.signbit x then x else y)
  else if F64.ltb x y then x else y.

Definition Max (x y : float64) : float64 :=
  if F64.is_inf x false || F64.is_inf y false then S754_infinity false
  else if F64.is_nan x || F64.is_nan y then S754_nan
  else if F64.eqb x F64.pos_zero && F64.eqb x y then
    (if F64.signbit x then y else x)
  else if F64.ltb y x then x else y.

(** [math.Pi] rounded to float64: 0x400921FB54442D18. *)
Definition Pi : float64 := S754_finite false 7074237752028440 (-51).

End math.

(** [time.Duration] of Go's standard library: a number of nanoseconds
    in an int64. *)
Module Duration.

Definition Millisecond : Z := 1000000.
Definition Second : Z := 1000000000.

Definition minDuration : Z := - 2 ^ 63.
Definition maxDuration : Z := 2 ^ 63 - 1.

(** [t.Sub(u)] for two readings [t], [u] of the monotonic clock, as both
    results of [time.Now] are: the difference, kept within the range of a
    [Duration]. *)
Definition Sub (t u : Z) : Z := Z.max minDuration (Z.min maxDuration (t - u)).

(** [Duration.Seconds]:
    [sec := d / Second; nsec := d % Second;
     return float64(sec) + float64(nsec)/1e9]. *)
Definition Seconds (d : Z) : float64 :=
  let sec := Z.quot d Second in
  let nsec := Z.rem d Second in
  F64.add (F64.of_Z sec) (F64.div (F64.of_Z nsec) (F64.of_Z 1000000000)).

End Duration.

(** ** Messages of the route guide protocol

    Modelled from the spec: the generated protobuf package [rp] is not part
    of the sources; its messages are the ones of the data model, with
    signed 32-bit coordinates. *)

Record Point := { Latitude : Z; Longitude : Z }.

Record Rectangle := { Lo : Point; Hi : Point }.

Record Feature := { Name : string; Location : Point }.

Record RouteNote := { NoteLocation : Point; Message : string }.

Record RouteSummary := {
  PointCount : Z;
  FeatureCount : Z;
  Distance : Z;
  ElapsedTime : Z
}.

(** Well-formed messages carry [int32] coordinates. *)
Definition point_ok (p : Point) : Prop :=
  Int32.in_range (Latitude p) /\ Int32.in_range (Longitude p).

Definition rect_ok (r : Rectangle) : Prop := point_ok (Lo r) /\ point_ok (Hi r).

(** [proto.Equal] on two points: field-wise equality. *)
Definition proto_Equal (p q : Point) : bool :=
  (Latitude p =? Latitude q) && (Longitude p =? Longitude q).

#[global] Instance Point_eq_dec : EqDecision Point.
Proof. solve_decision. Defined.

(** ** Geometry *)

Definition inRange (point : Point) (rect : Rectangle) : bool :=
  let left := math.Min (F64.of_Z (Longitude (Lo rect))) (F64.of_Z (Longitude (Hi rect))) in
  let right := math.Max (F64.of_Z (Longitude (Lo rect))) (F64.of_Z (Longitude (Hi rect))) in
  let top := math.Max (F64.of_Z (Latitude (Lo rect))) (F64.of_Z (Latitude (Hi rect))) in
  let bottom := math.Min (F64.of_Z (Latitude (Lo rect))) (F64.of_Z (Latitude (Hi rect))) in
  if F64.geb (F64.of_Z (Longitude point)) left &&
     F64.leb (F64.of_Z (Longitude point)) right &&
     F64.geb (F64.of_Z (Latitude point)) bottom &&
     F64.leb (F64.of_Z (Latitude point)) top
  then true
  else false.

(** The integer comparison the float test stands for: the point lies
    between the per-axis minimum and maximum of the two corners. *)
Definition inRange_int (point : Point) (rect : Rectangle) : bool :=
  (Z.min (Longitude (Lo rect)) (Longitude (Hi rect)) <=? Longitude point) &&
  (Longitude point <=? Z.max (Longitude (Lo rect)) (Longitude (Hi rect))) &&
  (Z.min (Latitude (Lo rect)) (Latitude (Hi rect)) <=? Latitude point) &&
  (Latitude point <=? Z.max (Latitude (Lo rect)) (Latitude (Hi rect))).

Definition swap_corners (r : Rectangle) : Rectangle := {| Lo := Hi r; Hi := Lo r |}.

(** ** The parts of Go's [math] package and runtime used by [calcDistance]

    Their code is not part of the repository, so the embedding is
    parametric in them.  Arithmetic, comparison and [math.Sqrt] are the
    correctly rounded IEEE-754 operations of [F64]. *)

Class GoMath := {
  Sin : float64 -> float64;
  Cos : float64 -> float64;
  Atan2 : float64 -> float64 -> float64;
  (** what [int32(f)] yields when [f] is NaN, infinite or out of range
      (implementation-dependent in Go) *)
  int32_of_unrepresentable : float64 -> Z
}.

(** What is assumed of them: [math.Sin] is odd and maps +0 to +0,
    [math.Cos] maps a finite number to a finite number of magnitude below
    2, and [math.Atan2(+0, 1)] is +0 (special cases Go documents, and the
    bound |cos x| <= 1). *)
Class GoMathLaws (M : GoMath) : Prop := {
  Sin_odd : forall x, Sin (F64.neg x) = F64.neg (Sin x);
  Sin_zero : Sin F64.pos_zero = F64.pos_zero;
  Cos_bounded : forall x, F64.is_finite x = true -> F64.magnitude_le (Cos x) 1;
  Atan2_zero : Atan2 F64.pos_zero F64.one = F64.pos_zero
}.

(** The range of [math.Atan2] on the upper half plane: for [y] a number
    with its sign bit clear (+0 and +Inf included) and [x] any number, the
    angle lies between 0 and pi; in particular it has a magnitude below 4. *)
Class GoMathRange (M : GoMath) : Prop := {
  Atan2_upper_half : forall y x,
    F64.is_nan y = false -> F64.signbit y = false -> F64.is_nan x = false ->
    F64.leb F64.pos_zero (Atan2 y x) = true /\ F64.magnitude_le (Atan2 y x) 2
}.

Section Distance.

Context {M : GoMath}.

(** The conversion [int32(f)]: truncation toward zero when the result
    fits. *)
Definition int32_of_float64 (f : float64) : Z :=
  match F64.trunc f with
  | Some z =>
      if (Int32.min_signed <=? z) && (z <=? Int32.max_signed) then z
      else Int32.wrap (int32_of_unrepresentable f)
  | None => Int32.wrap (int32_of_unrepresentable f)
  end.

Definition toRadians (num : float64) : float64 :=
  F64.div (F64.mul num math.Pi) (F64.of_Z 180).

Definition CordFactor : float64 := F64.of_Z 10000000.
Definition R : float64 := F64.of_Z 6371000.

Definition calcDistance (p1 p2 : Point) : Z :=
  let lat1 := toRadians (F64.div (F64.of_Z (Latitude p1)) CordFactor) in
  let lat2 := toRadians (F64.div (F64.of_Z (Latitude p2)) CordFactor) in
  let lng1 := toRadians (F64.div (F64.of_Z (Longitude p1)) CordFactor) in
  let lng2 := toRadians (F64.div (F64.of_Z (Longitude p2)) CordFactor) in
  let dlat := F64.sub lat2 lat1 in
  let dlng := F64.sub lng2 lng1 in
  let a := F64.add
             (F64.mul (Sin (F64.div dlat (F64.of_Z 2))) (Sin (F64.div dlat (F64.of_Z 2))))
             (F64.mul
                (F64.mul (F64.mul (Cos lat1) (Cos lat2)) (Sin (F64.div dlng (F64.of_Z 2))))
                (Sin (F64.div dlng (F64.of_Z 2)))) in
  let c := F64.mul (F64.of_Z 2)
             (Atan2 (F64.sqrt a) (F64.sqrt (F64.sub (F64.of_Z 1) a))) in
  let distance := F64.mul R c in
  int32_of_float64 distance.

(** The local [a] of [calcDistance], the haversine of the central angle. *)
Definition haversine (p1 p2 : Point) : float64 :=
  let lat1 := toRadians (F64.div (F64.of_Z (Latitude p1)) CordFactor) in
  let lat2 := toRadians (F64.div (F64.of_Z (Latitude p2)) CordFactor) in
  let lng1 := toRadians (F64.div (F64.of_Z (Longitude p1)) CordFactor) in
  let lng2 := toRadians (F64.div (F64.of_Z (Longitude p2)) CordFactor) in
  let dlat := F64.sub lat2 lat1 in
  let dlng := F64.sub lng2 lng1 in
  F64.add
    (F64.mul (Sin (F64.div dlat (F64.of_Z 2))) (Sin (F64.div dlat (F64.of_Z 2))))
    (F64.mul
       (F64.mul (F64.mul (Cos lat1) (Cos lat2)) (Sin (F64.div dlng (F64.of_Z 2))))
       (Sin (F64.div dlng (F64.of_Z 2)))).

(** Neither square root of [calcDistance] is taken of a negative number
    or of NaN: [a] is a number with its sign bit clear and [1 - a >= 0].
    Mathematically 0 <= a <= 1; rounding or the library may break it. *)
Definition radicands_ok (p1 p2 : Point) : Prop :=
  F64.is_nan (haversine p1 p2) = false /\
  F64.signbit (haversine p1 p2) = false /\
  F64.leb F64.pos_zero (F64.sub (F64.of_Z 1) (haversine p1 p2)) = true.

(** [radicands_ok] on every leg of a route. *)
Fixpoint legs_ok (points : list Point) : Prop :=
  match points with
  | previous :: (current :: _) as rest => radicands_ok previous current /\ legs_ok rest
  | _ => True
  end.

(** The field expression [int32(endTime.Sub(startTime).Seconds())], for
    the readings [startTime] and [endTime] of the monotonic clock, in
    nanoseconds. *)
Definition elapsed_seconds (startTime endTime : Z) : Z :=
  int32_of_float64 (Duration.Seconds (Duration.Sub endTime startTime)).

End Distance.

(** ** Streams and errors *)

Inductive error : Type :=
  | io_EOF
  | transport_error.

(** The receiving half of a call: the messages the client sends, then
    what [Recv] reports ever after: [io.EOF] when the client half-closed,
    another error when the transport failed. *)
Record RecvStream (A : Type) := {
  incoming : list A;
  ending : error
}.
Arguments incoming {A} _.
Arguments ending {A} _.

Definition Recv {A : Type} (stream : RecvStream A) : (A + error) * RecvStream A :=
  match incoming stream with
  | msg :: rest => (inl msg, {| incoming := rest; ending := ending stream |})
  | [] => (inr (ending stream), stream)
  end.

(** The sending half of a call: the messages handed to the transport so
    far, and how many more it accepts before [Send] fails ([None]: it
    never fails). *)
Record SendStream (A : Type) := {
  sent : list A;
  credit : option nat
}.
Arguments sent {A} _.
Arguments credit {A} _.

Definition Send {A : Type} (stream : SendStream A) (msg : A) : SendStream A * option error :=
  match credit stream with
  | Some O => (stream, Some transport_error)
  | Some (S n) => ({| sent := sent stream ++ [msg]; credit := Some n |}, None)
  | None => ({| sent := sent stream ++ [msg]; credit := None |}, None)
  end.

(** The transport accepts at least [n] more messages. *)
Definition accepts {A : Type} (stream : SendStream A) (n : nat) : Prop :=
  match credit stream with
  | Some c => (n <= c)%nat
  | None => True
  end.

(** ** The server *)

Record server := {
  knownFeatures : list Feature;
  routeNotes : gmap string (list RouteNote)
}.

(** *** GetFeature *)

Fixpoint GetFeature_scan (features : list Feature) (point : Point) : option Feature :=
  match features with
  | [] => None
  | feature :: rest =>
      if proto_Equal (Location feature) point then Some feature
      else GetFeature_scan rest point
  end.

Definition GetFeature (s : server) (point : Point) : Feature * option error :=
  match GetFeature_scan (knownFeatures s) point with
  | Some feature => (feature, None)
  | None => ({| Name := EmptyString; Location := point |}, None)
  end.

(** *** ListFeatures *)

Fixpoint ListFeatures_scan (features : list Feature) (rect : Rectangle)
    (stream : SendStream Feature) : SendStream Feature * option error :=
  match features with
  | [] => (stream, None)
  | feature :: rest =>
      if inRange (Location feature) rect then
        match Send stream feature with
        | (stream', Some err) => (stream', Some err)
        | (stream', None) => ListFeatures_scan rest rect stream'
        end
      else ListFeatures_scan rest rect stream
  end.

Definition ListFeatures (s : server) (rect : Rectangle) (stream : SendStream Feature)
    : SendStream Feature * option error :=
  ListFeatures_scan (knownFeatures s) rect stream.

(** *** RecordRoute *)

(** What the handler did: the summary passed to [SendAndClose], if it got
    that far, and the error it returned. *)
Record RecordRouteResult := {
  response : option RouteSummary;
  returned : option error
}.

(** The inner loop over the known features for one received point. *)
Fixpoint count_features (features : list Feature) (point : Point) (featureCount : Z) : Z :=
  match features with
  | [] => featureCount
  | feature :: rest =>
      count_features rest point
        (if proto_Equal (Location feature) point then Int32.incr featureCount
         else featureCount)
  end.

Section RecordRoute.

Context {M : GoMath}.

(** [elapsed] is the clock reading
    [int32(endTime.Sub(startTime).Seconds())] and [close] the outcome of
    [SendAndClose]; both come from the environment. *)
Fixpoint RecordRoute_loop (s : server) (points : list Point) (ending : error)
    (pointCount featureCount distance : Z) (lastPoint : option Point)
    (elapsed : Z) (close : option error) : RecordRouteResult :=
  match points with
  | [] =>
      match ending with
      | io_EOF =>
          {| response := Some {| PointCount := pointCount;
                                 FeatureCount := featureCount;
                                 Distance := distance;
                                 ElapsedTime := elapsed |};
             returned := close |}
      | err => {| response := None; returned := Some err |}
      end
  | point :: rest =>
      let pointCount := Int32.incr pointCount in
      let featureCount := count_features (knownFeatures s) point featureCount in
      let distance :=
        match lastPoint with
        | Some last => Int32.add distance (calcDistance last point)
        | None => distance
        end in
      RecordRoute_loop s rest ending pointCount featureCount distance (Some point)
        elapsed close
  end.

Definition RecordRoute (s : server) (stream : RecvStream Point)
    (elapsed : Z) (close : option error) : RecordRouteResult :=
  RecordRoute_loop s (incoming stream) (ending stream) 0 0 0 None elapsed close.

End RecordRoute.

(** *** RouteChat *)

(** [fmt.Sprintf("%d %d", latitude, longitude)]. *)
Definition location_key (p : Point) : string :=
  pretty (Latitude p) +:+ " " +:+ pretty (Longitude p).

(** [routeNotes[key]]: a missing key reads as the empty slice. *)
Definition notes_at (notes : gmap string (list RouteNote)) (key : string) : list RouteNote :=
  default [] (notes !! key).

(** The critical section: append the note, then copy the entry. *)
Definition append_note (notes : gmap string (list RouteNote)) (note : RouteNote)
    : gmap string (list RouteNote) * list RouteNote :=
  let key := location_key (NoteLocation note) in
  let notes' := <[key := notes_at notes key ++ [note]]> notes in
  (notes', notes_at notes' key).

Fixpoint send_all {A : Type} (stream : SendStream A) (msgs : list A)
    : SendStream A * option error :=
  match msgs with
  | [] => (stream, None)
  | msg :: rest =>
      match Send stream msg with
      | (stream', Some err) => (stream', Some err)
      | (stream', None) => send_all stream' rest
      end
  end.

Fixpoint RouteChat_loop (notes : gmap string (list RouteNote))
    (inbound : list RouteNote) (ending : error)
    (outbound : SendStream RouteNote)
    : gmap string (list RouteNote) * SendStream RouteNote * option error :=
  match inbound with
  | [] =>
      match ending with
      | io_EOF => (notes, outbound, None)
      | err => (notes, outbound, Some err)
      end
  | note :: rest =>
      let '(notes', rn) := append_note notes note in
      match send_all outbound rn with
      | (outbound', Some err) => (notes', outbound', Some err)
      | (outbound', None) => RouteChat_loop notes' rest ending outbound'
      end
  end.

(** One call of the handler running alone on the server: the server after
    the call, the outbound stream and the returned error. *)
Definition RouteChat (s : server) (inbound : RecvStream RouteNote)
    (outbound : SendStream RouteNote) : server * SendStream RouteNote * option error :=
  let '(notes', outbound', err) :=
    RouteChat_loop (routeNotes s) (incoming inbound) (ending inbound) outbound in
  ({| knownFeatures := knownFeatures s; routeNotes := notes' |}, outbound', err).

(** ** Reference notions used to state the handlers' results *)

(** The stream after the transport accepted [msgs]. *)
Definition debit {A : Type} (stream : SendStream A) (msgs : list A) : SendStream A :=
  {| sent := sent stream ++ msgs;
     credit := option_map (fun c => (c - length msgs)%nat) (credit stream) |}.

(** The known features lying in [rect], in store order. *)
Definition features_in (s : server) (rect : Rectangle) : list Feature :=
  List.filter (fun feature => inRange (Location feature) rect) (knownFeatures s).

(** A rectangle whose corners, in either order, span every int32
    coordinate. *)
Definition covers_all (rect : Rectangle) : Prop :=
  rect_ok rect /\
  Z.min (Longitude (Lo rect)) (Longitude (Hi rect)) = Int32.min_signed /\
  Z.max (Longitude (Lo rect)) (Longitude (Hi rect)) = Int32.max_signed /\
  Z.min (Latitude (Lo rect)) (Latitude (Hi rect)) = Int32.min_signed /\
  Z.max (Latitude (Lo rect)) (Latitude (Hi rect)) = Int32.max_signed.

(** Number of known features located exactly at [point]. *)
Definition matches_at (s : server) (point : Point) : Z :=
  Z.of_nat (length (List.filter (fun feature => proto_Equal (Location feature) point)
                                (knownFeatures s))).

(** Matches summed over a route; a point visited twice counts twice. *)
Fixpoint total_matches (s : server) (points : list Point) : Z :=
  match points with
  | [] => 0
  | point :: rest => matches_at s point + total_matches s rest
  end.

(** Sum of the leg distances between consecutive points of a route. *)
Fixpoint route_length {M : GoMath} (points : list Point) : Z :=
  match points with
  | previous :: (current :: _) as rest => calcDistance previous current + route_length rest
  | _ => 0
  end.

(** The legs still to add when the route seen so far ends at [last]. *)
Definition remaining_length {M : GoMath} (last : option Point) (points : list Point) : Z :=
  match last with
  | Some previous => route_length (previous :: points)
  | None => route_length points
  end.

(** A route of [legs] legs going back and forth between two points. *)
Fixpoint back_and_forth (a b : Point) (legs : nat) : list Point :=
  match legs with
  | O => [a]
  | S n => a :: back_and_forth b a n
  end.

(** First-order stand-ins for the trigonometric functions (sin x ~ x,
    cos x ~ 1, atan2(y, x) ~ y / x), with the conversion of an
    unrepresentable float yielding the minimal int32 as on amd64.  They
    give the parametric development a concrete, computable instance. *)
Definition small_angle_math : GoMath := {|
  Sin := fun x => x;
  Cos := fun _ => F64.one;
  Atan2 := fun y x => F64.div y x;
  int32_of_unrepresentable := fun _ => Int32.min_signed
|}.

(** The same stand-ins with the angle kept in its range: atan2(y, x) ~ y / x
    when that quotient is a non-negative number below 2, and +0 otherwise. *)
Definition clamped_angle_math : GoMath := {|
  Sin := fun x => x;
  Cos := fun _ => F64.one;
  Atan2 := fun y x =>
    let q := F64.div y x in
    if F64.leb F64.pos_zero q && F64.magnitude_leb q 1 then q else F64.pos_zero;
  int32_of_unrepresentable := fun _ => Int32.min_signed
|}.

(** A string without blanks, as the decimal rendering of an integer is. *)
Fixpoint no_space (s : string) : Prop :=
  match s with
  | EmptyString => True
  | String c rest => c <> " "%char /\ no_space rest
  end.

(** ** RouteChat under concurrent calls

    Every call runs the loop of [RouteChat] on its own streams; all calls
    share the registry and the mutex [mu].  A call advances one statement
    at a time and a schedule picks which call moves next, so the accesses
    of different calls interleave at statement granularity (the read and
    the write of [s.routeNotes[key] = append(s.routeNotes[key], in)] are
    separate steps). *)

Module Concurrent.

(** The statement a call executes next. *)
Inductive position : Type :=
  | AtRecv
  | AtLock (note : RouteNote)
  | AtRead (note : RouteNote)
  | AtWrite (note : RouteNote) (entry : list RouteNote)
  | AtCopy (note : RouteNote)
  | AtUnlock (rn : list RouteNote)
  | AtSend (rn : list RouteNote)
  | Returned (err : option error).

(** The statements between [s.mu.Lock()] and [s.mu.Unlock()]. *)
Definition in_critical_section (p : position) : bool :=
  match p with
  | AtRead _ | AtWrite _ _ | AtCopy _ | AtUnlock _ => true
  | _ => false
  end.

Record call := {
  position_of : position;
  inbound : RecvStream RouteNote;
  outbound : SendStream RouteNote
}.

Record system := {
  registry : gmap string (list RouteNote);
  mu : option nat;
  calls : list call
}.

(** What a step lets an observer see. [Sent] records who held the mutex
    when the message was handed to the stream. *)
Inductive event : Type :=
  | Appended (i : nat) (note : RouteNote)
  | Copied (i : nat) (note : RouteNote) (rn : list RouteNote)
  | Sent (i : nat) (note : RouteNote) (holder : option nat)
  | Silent.

Definition move (sys : system) (i : nat) (c : call) (p : position) : system :=
  {| registry := registry sys;
     mu := mu sys;
     calls := <[i := {| position_of := p; inbound := inbound c; outbound := outbound c |}]>
                (calls sys) |}.

(** One statement of call [i]; [None] when the call does not exist, has
    returned, or waits for the mutex. *)
Definition step (sys : system) (i : nat) : option (system * event) :=
  match calls sys !! i with
  | None => None
  | Some c =>
      match position_of c with
      | AtRecv =>
          match Recv (inbound c) with
          | (inl note, rest) =>
              Some ({| registry := registry sys;
                       mu := mu sys;
                       calls := <[i := {| position_of := AtLock note;
                                          inbound := rest;
                                          outbound := outbound c |}]> (calls sys) |},
                    Silent)
          | (inr io_EOF, _) => Some (move sys i c (Returned None), Silent)
          | (inr err, _) => Some (move sys i c (Returned (Some err)), Silent)
          end
      | AtLock note =>
          match mu sys with
          | Some _ => None
          | None =>
              Some ({| registry := registry sys;
                       mu := Some i;
                       calls := calls (move sys i c (AtRead note)) |},
                    Silent)
          end
      | AtRead note =>
          let key := location_key (NoteLocation note) in
          Some (move sys i c (AtWrite note (notes_at (registry sys) key ++ [note])), Silent)
      | AtWrite note entry =>
          let key := location_key (NoteLocation note) in
          Some ({| registry := <[key := entry]> (registry sys);
                   mu := mu sys;
                   calls := calls (move sys i c (AtCopy note)) |},
                Appended i note)
      | AtCopy note =>
          let key := location_key (NoteLocation note) in
          let rn := notes_at (registry sys) key in
          Some (move sys i c (AtUnlock rn), Copied i note rn)
      | AtUnlock rn =>
          Some ({| registry := registry sys;
                   mu := None;
                   calls := calls (move sys i c (AtSend rn)) |},
                Silent)
      | AtSend [] => Some (move sys i c AtRecv, Silent)
      | AtSend (note :: rest) =>
          match Send (outbound c) note with
          | (out, None) =>
              Some ({| registry := registry sys;
                       mu := mu sys;
                       calls := <[i := {| position_of := AtSend rest;
                                          inbound := inbound c;
                                          outbound := out |}]> (calls sys) |},
                    Sent i note (mu sys))
          | (_, Some err) => Some (move sys i c (Returned (Some err)), Silent)
          end
      | Returned _ => None
      end
  end.

(** Running a schedule: the calls named by [schedule] move in turn (a
    call that cannot move is skipped); the events are collected in
    order. *)
Fixpoint run (sys : system) (events : list event) (schedule : list nat)
    : system * list event :=
  match schedule with
  | [] => (sys, events)
  | i :: rest =>
      match step sys i with
      | Some (sys', ev) => run sys' (events ++ [ev]) rest
      | None => run sys events rest
      end
  end.

(** The server with some calls about to start. *)
Definition start (notes : gmap string (list RouteNote))
    (streams : list (RecvStream RouteNote * SendStream RouteNote)) : system :=
  {| registry := notes;
     mu := None;
     calls := map (fun io => {| position_of := AtRecv; inbound := fst io; outbound := snd io |})
                  streams |}.

(** The server with a single call. *)
Definition solo (notes : gmap string (list RouteNote)) (holder : option nat) (p : position)
    (inb : RecvStream RouteNote) (out : SendStream RouteNote) : system :=
  {| registry := notes; mu := holder;
     calls := [ {| position_of := p; inbound := inb; outbound := out |} ] |}.

(** The notes stored under [key] by the events, in order. *)
Fixpoint appended_at (key : string) (events : list event) : list RouteNote :=
  match events with
  | [] => []
  | Appended _ note :: rest =>
      if decide (location_key (NoteLocation note) = key) then note :: appended_at key rest
      else appended_at key rest
  | _ :: rest => appended_at key rest
  end.

(** What is required of an event, given the registry the server started
    with and the events before it: a snapshot is the whole history of its
    key (the initial entry followed by every note stored so far under the
    key) and ends with the call's own note; a message is sent while the
    sender does not hold the mutex. *)
Definition event_ok (notes0 : gmap string (list RouteNote)) (before : list event)
    (ev : event) : Prop :=
  match ev with
  | Copied i note rn =>
      rn = notes_at notes0 (location_key (NoteLocation note)) ++
           appended_at (location_key (NoteLocation note)) before /\
      exists earlier, rn = earlier ++ [note]
  | Sent i note holder => holder <> Some i
  | _ => True
  end.

Definition trace_ok (notes0 : gmap string (list RouteNote)) (events : list event) : Prop :=
  forall before ev after, events = before ++ ev :: after -> event_ok notes0 before ev.

(** The invariant of the reachable states. *)
Record invariant (notes0 : gmap string (list RouteNote)) (sys : system)
    (events : list event) : Prop := {
  inv_registry : forall key,
    notes_at (registry sys) key = notes_at notes0 key ++ appended_at key events;
  inv_holder : forall i c,
    calls sys !! i = Some c -> in_critical_section (position_of c) = true -> mu sys = Some i;
  inv_held : forall i,
    mu sys = Some i ->
    exists c, calls sys !! i = Some c /\ in_critical_section (position_of c) = true;
  inv_write : forall i c note entry,
    calls sys !! i = Some c -> position_of c = AtWrite note entry ->
    entry = notes_at (registry sys) (location_key (NoteLocation note)) ++ [note];
  inv_copy : forall i c note,
    calls sys !! i = Some c -> position_of c = AtCopy note ->
    exists earlier,
      notes_at (registry sys) (location_key (NoteLocation note)) = earlier ++ [note];
  inv_trace : trace_ok notes0 events
}.

End Concurrent.

(** A registry in which every note sits under the key of its own
    location. *)
Definition well_keyed (notes : gmap string (list RouteNote)) : Prop :=
  forall key entry note,
    notes !! key = Some entry -> In note entry ->
    location_key (NoteLocation note) = key.

(** ** The demonstration client

    [math/rand] is Go's library: a generator is a state with the
    operation [Int31n], which draws a number below its argument. *)

Class Rand (G : Type) := {
  Int31n : Z -> G -> Z * G
}.

Class RandLaws (G : Type) `{Rand G} : Prop := {
  Int31n_range : forall n g, 0 < n -> 0 <= fst (Int31n n g) < n
}.

(** [x - y] and [x * y] on [int32]. *)
Definition int32_sub (x y : Z) : Z := Int32.wrap (x - y).
Definition int32_mul (x y : Z) : Z := Int32.wrap (x * y).

(** What a run of the client costs in time, in nanoseconds: opening the
    stream, every iteration of the sending loop beyond its sleep of
    100 ms (the [Send] itself and any oversleeping), and the wait for the
    summary in [CloseAndRecv].  Durations are natural numbers: the clock
    does not run backwards and [time.Sleep] pauses for at least the
    given duration. *)
Record pace := {
  dial : N;
  lag : nat -> N;
  reply : N
}.

(** The time the sending loop takes beyond its sleeps over [n] points,
    starting with point number [i]. *)
Fixpoint lags (p : pace) (i n : nat) : Z :=
  match n with
  | O => 0
  | S n' => Z.of_N (lag p i) + lags p (S i) n'
  end.

Section Client.

Context {G : Type} {rand : Rand G} {M : GoMath}.

Definition randomPoint (r : G) : Point * G :=
  let '(a, r) := Int31n 180 r in
  let lat := int32_mul (int32_sub a 90) 10000000 in
  let '(b, r) := Int31n 360 r in
  let long := int32_mul (int32_sub b 180) 10000000 in
  ({| Latitude := lat; Longitude := long |}, r).

(** The loop [for i := 0; i < pointCount-1; i++] of [runRecordRoute]. *)
Fixpoint random_points (n : nat) (r : G) : list Point * G :=
  match n with
  | O => ([], r)
  | S n' =>
      let '(point, r) := randomPoint r in
      let '(points, r) := random_points n' r in
      (point :: points, r)
  end.

Definition featured_point : Point :=
  {| Latitude := 409146138; Longitude := -746188906 |}.

(** The points [runRecordRoute] sends. *)
Definition runRecordRoute_points (r : G) : list Point :=
  let '(k, r) := Int31n 100 r in
  let pointCount := k + 2 in
  featured_point :: fst (random_points (Z.to_nat (pointCount - 1)) r).

(** [context.WithTimeout(context.Background(), 10*time.Second)] and
    [time.Sleep(100 * time.Millisecond)]: the context of the call expires
    10 seconds after its creation, after which opening the stream, [Send]
    and [CloseAndRecv] return an error; the client sleeps 100
    milliseconds after every [Send]. *)
Definition deadline : Z := 10 * Duration.Second.
Definition nap : Z := 100 * Duration.Millisecond.

(** The loop [for _, point := range points] of [runRecordRoute], started
    [now] nanoseconds after the context was created: [Send] fails once
    the context has expired, otherwise the client sleeps.  The result is
    the time at which the loop ends, [None] when a [Send] failed. *)
Fixpoint send_points (points : list Point) (i : nat) (p : pace) (now : Z) : option Z :=
  match points with
  | [] => Some now
  | point :: rest =>
      if deadline <=? now then None
      else send_points rest (S i) p (now + Z.of_N (lag p i) + nap)
  end.

(** The time from the creation of the context to the arrival of the
    summary, for a run that sends [n] points. *)
Definition run_time (p : pace) (n : nat) : Z :=
  Z.of_N (dial p) + lags p 0 n + Z.of_nat n * nap + Z.of_N (reply p).

(** [runRecordRoute] against the server [s], over a transport that
    delivers every point in order and then the half-close, while the
    context lives: the summary the client logs, [None] when the client
    ends in [log.Fatalf].  [elapsed] is the server's clock reading. *)
Definition runRecordRoute (s : server) (r : G) (p : pace) (elapsed : Z)
    : option RouteSummary :=
  let points := runRecordRoute_points r in
  let now := Z.of_N (dial p) in
  if deadline <=? now then None
  else
    match send_points points 0 p now with
    | None => None
    | Some now =>
        if deadline <=? now + Z.of_N (reply p) then None
        else
          match RecordRoute s {| incoming := points; ending := io_EOF |} elapsed None with
          | {| response := Some summary; returned := None |} => Some summary
          | _ => None
          end
    end.

End Client.

(** The notes [runRouteChat] sends. *)
Definition runRouteChat_notes : list RouteNote :=
  [ {| NoteLocation := {| Latitude := 0; Longitude := 1 |}; Message := "I was here!" |};
    {| NoteLocation := {| Latitude := 0; Longitude := 2 |}; Message := "I was here too." |};
    {| NoteLocation := {| Latitude := 0; Longitude := 3 |}; Message := "Here is the exit!" |};
    {| NoteLocation := {| Latitude := 0; Longitude := 1 |}; Message := "Ummm..." |};
    {| NoteLocation := {| Latitude := 0; Longitude := 2 |}; Message := "Is this..." |};
    {| NoteLocation := {| Latitude := 0; Longitude := 3 |};
       Message := "I am stuck in a loop, aren't I?" |} ].

(** [runRouteChat] against the server [s], over a transport that delivers
    everything: the server afterwards and the notes the client receives. *)
Definition runRouteChat (s : server) : server * list RouteNote :=
  let '(s', out, _) :=
    RouteChat s {| incoming := runRouteChat_notes; ending := io_EOF |}
              {| sent := []; credit := None |} in
  (s', sent out).

(** A generator that counts: the draws are 0, 1, 2, ... reduced below the
    bound. *)
#[global] Instance counting_rand : Rand Z := {|
  Int31n := fun n g => (g mod n, g + 1)
|}.

(** The notes call [i] stored, in order, and the note a call has
    received but not stored yet. *)
Fixpoint appended_by (i : nat) (events : list Concurrent.event) : list RouteNote :=
  match events with
  | [] => []
  | Concurrent.Appended j note :: rest =>
      if decide (j = i) then note :: appended_by i rest else appended_by i rest
  | _ :: rest => appended_by i rest
  end.

Definition pending_note (p : Concurrent.position) : list RouteNote :=
  match p with
  | Concurrent.AtLock note | Concurrent.AtRead note | Concurrent.AtWrite note _ => [note]
  | _ => []
  end.

(** Call [i] was given the notes [sent_notes]: those it stored, the one
    it is storing and those it has not received yet make up that list. *)
Definition caller_progress (i : nat) (sent_notes : list RouteNote)
    (sys : Concurrent.system) (events : list Concurrent.event) : Prop :=
  exists c,
    Concurrent.calls sys !! i = Some c /\
    sent_notes = appended_by i events ++ pending_note (Concurrent.position_of c) ++
                 incoming (Concurrent.inbound c) /\
    (Concurrent.position_of c = Concurrent.Returned None ->
     incoming (Concurrent.inbound c) = []).

(** The snapshots call [i] took, one after the other, and the part of
    its current snapshot a call still has to send. *)
Fixpoint copied_by (i : nat) (events : list Concurrent.event) : list RouteNote :=
  match events with
  | [] => []
  | Concurrent.Copied j _ rn :: rest =>
      if decide (j = i) then rn ++ copied_by i rest else copied_by i rest
  | _ :: rest => copied_by i rest
  end.

Definition unsent_of (p : Concurrent.position) : list RouteNote :=
  match p with
  | Concurrent.AtUnlock rn | Concurrent.AtSend rn => rn
  | _ => []
  end.

(** Call [i], whose stream held [out0] at the start, has sent a prefix of
    its snapshots; unless a Send failed, what is missing is the rest of
    the snapshot it is sending. *)
Definition sends_progress (i : nat) (out0 : list RouteNote)
    (sys : Concurrent.system) (events : list Concurrent.event) : Prop :=
  exists c unsent,
    Concurrent.calls sys !! i = Some c /\
    out0 ++ copied_by i events = sent (Concurrent.outbound c) ++ unsent /\
    ((forall err, Concurrent.position_of c <> Concurrent.Returned (Some err)) ->
     unsent = unsent_of (Concurrent.position_of c)).

(** * Theorems *)

(** ** Conversion of integers to float64 *)

Section OfZ.

Lemma digits2_pos_size (p : positive) : digits2_pos p = Pos.size p.
Proof. induction p; simpl; congruence. Qed.

Lemma digits2_pos_iter_xO (k m : positive) :
  digits2_pos (Pos.iter xO m k) = (digits2_pos m + k)%positive.
Proof.
  induction k as [|k IH] using Pos.peano_ind.
  - simpl. now rewrite Pos.add_1_r.
  - rewrite Pos.iter_succ. simpl. rewrite IH. now rewrite Pos.add_succ_r.
Qed.

Lemma iter_xO_mul (k m : positive) :
  Zpos (Pos.iter xO m k) = Zpos m * 2 ^ Zpos k.
Proof.
  induction k as [|k IH] using Pos.peano_ind.
  - simpl. lia.
  - rewrite Pos.iter_succ, Pos2Z.inj_succ, Z.pow_succ_r by lia.
    change (Zpos (Pos.iter xO m k)~0) with (2 * Zpos (Pos.iter xO m k)).
    rewrite IH. lia.
Qed.

Lemma size_bounds (p : positive) :
  2 ^ (Zpos (Pos.size p) - 1) <= Zpos p < 2 ^ Zpos (Pos.size p).
Proof.
  induction p as [p IH|p IH|]; simpl Pos.size.
  - rewrite Pos2Z.inj_succ. change (Zpos p~1) with (2 * Zpos p + 1).
    replace (Z.succ (Zpos (Pos.size p)) - 1) with (Z.succ (Zpos (Pos.size p) - 1)) by lia.
    rewrite !Z.pow_succ_r by lia. lia.
  - rewrite Pos2Z.inj_succ. change (Zpos p~0) with (2 * Zpos p).
    replace (Z.succ (Zpos (Pos.size p)) - 1) with (Z.succ (Zpos (Pos.size p) - 1)) by lia.
    rewrite !Z.pow_succ_r by lia. lia.
  - simpl. lia.
Qed.

Lemma binary_round_aux_canonical (s : bool) (m : positive) (e : Z) :
  digits2_pos m = 53%positive -> -1074 <= e <= 971 ->
  binary_round_aux F64.prec F64.emax s (Zpos m) e loc_Exact = S754_finite s m e.
Proof.
  intros Hd He.
  unfold binary_round_aux, shr_fexp, Zdigits2, fexp, emin, F64.prec, F64.emax.
  rewrite Hd.
  replace (Z.max (53 + e - 53) (3 - 1024 - 53) - e) with 0 by lia.
  cbn [shr shr_record_of_loc shr_m loc_of_shr_record round_nearest_even].
  rewrite Hd.
  replace (Z.max (53 + e - 53) (3 - 1024 - 53) - e) with 0 by lia.
  cbn [shr shr_record_of_loc shr_m].
  destruct (Z.leb_spec e (1024 - 53)); [reflexivity | lia].
Qed.

Lemma binary_round_small (s : bool) (m : positive) :
  Zpos (digits2_pos m) <= 53 ->
  binary_round F64.prec F64.emax s m 0 =
  S754_finite s (F64.norm_mant m) (Zpos (digits2_pos m) - 53).
Proof.
  intros Hd.
  unfold binary_round, shl_align, fexp, emin, F64.norm_mant, F64.prec, F64.emax.
  replace (Z.max (Zpos (digits2_pos m) + 0 - 53) (3 - 1024 - 53) - 0)
    with (Zpos (digits2_pos m) - 53) by lia.
  replace (Z.max (Zpos (digits2_pos m) + 0 - 53) (3 - 1024 - 53))
    with (Zpos (digits2_pos m) - 53) by lia.
  destruct (Z.eq_dec (Zpos (digits2_pos m)) 53) as [E|NE].
  - rewrite E. simpl Z.sub.
    apply binary_round_aux_canonical; [now injection E | lia].
  - destruct (Zpos (digits2_pos m) - 53) as [|k|k] eqn:Ek; try lia.
    replace (53 - Zpos (digits2_pos m)) with (Zpos k) by lia.
    apply binary_round_aux_canonical; [|lia].
    rewrite digits2_pos_iter_xO. lia.
Qed.

Lemma norm_mant_val (m : positive) :
  Zpos (digits2_pos m) <= 53 ->
  Zpos (F64.norm_mant m) = Zpos m * 2 ^ (53 - Zpos (digits2_pos m)).
Proof.
  intros Hd. unfold F64.norm_mant, F64.prec.
  destruct (53 - Zpos (digits2_pos m)) as [|k|k] eqn:Ek; try lia.
  apply iter_xO_mul.
Qed.

Lemma digits_bounds (m : positive) :
  2 ^ (Zpos (digits2_pos m) - 1) <= Zpos m < 2 ^ Zpos (digits2_pos m).
Proof. rewrite digits2_pos_size. apply size_bounds. Qed.

Lemma digits_le_53 (m : positive) : Zpos m < 2 ^ 53 -> Zpos (digits2_pos m) <= 53.
Proof.
  intros Hm. pose proof (digits_bounds m) as [Hlo _].
  destruct (Z.le_gt_cases (Zpos (digits2_pos m)) 53) as [|Hgt]; [assumption|].
  assert (2 ^ 53 <= 2 ^ (Zpos (digits2_pos m) - 1)) by (apply Z.pow_le_mono_r; lia).
  lia.
Qed.

(** Comparing two normalized positive integers exponent first, then
    mantissa, is comparing the integers. *)
Lemma compare_normalized (a b : positive) :
  Zpos a < 2 ^ 53 -> Zpos b < 2 ^ 53 ->
  match Zpos (digits2_pos a) - 53 ?= Zpos (digits2_pos b) - 53 with
  | Lt => Lt
  | Gt => Gt
  | Eq => Pos.compare_cont Eq (F64.norm_mant a) (F64.norm_mant b)
  end = (Zpos a ?= Zpos b).
Proof.
  intros Ha Hb.
  pose proof (digits_le_53 a Ha) as Hda. pose proof (digits_le_53 b Hb) as Hdb.
  pose proof (digits_bounds a) as [Ha1 Ha2]. pose proof (digits_bounds b) as [Hb1 Hb2].
  destruct (Z.compare_spec (Zpos (digits2_pos a) - 53) (Zpos (digits2_pos b) - 53)) as [E|L|G].
  - change (Pos.compare_cont Eq (F64.norm_mant a) (F64.norm_mant b))
      with (Zpos (F64.norm_mant a) ?= Zpos (F64.norm_mant b)).
    rewrite !norm_mant_val by assumption.
    replace (Zpos (digits2_pos b)) with (Zpos (digits2_pos a)) by lia.
    symmetry. apply Zmult_compare_compat_r.
    apply Z.lt_gt, Z.pow_pos_nonneg; lia.
  - symmetry. apply Z.compare_lt_iff.
    assert (2 ^ Zpos (digits2_pos a) <= 2 ^ (Zpos (digits2_pos b) - 1))
      by (apply Z.pow_le_mono_r; lia).
    lia.
  - symmetry. apply Z.compare_gt_iff.
    assert (2 ^ Zpos (digits2_pos b) <= 2 ^ (Zpos (digits2_pos a) - 1))
      by (apply Z.pow_le_mono_r; lia).
    lia.
Qed.

Lemma of_Z_pos (m : positive) :
  Zpos m < 2 ^ 53 ->
  F64.of_Z (Zpos m) = S754_finite false (F64.norm_mant m) (Zpos (digits2_pos m) - 53).
Proof. intros H. apply binary_round_small, digits_le_53, H. Qed.

Lemma of_Z_neg (m : positive) :
  Zpos m < 2 ^ 53 ->
  F64.of_Z (Zneg m) = S754_finite true (F64.norm_mant m) (Zpos (digits2_pos m) - 53).
Proof. intros H. apply binary_round_small, digits_le_53, H. Qed.

(** Integers below 2^53 in magnitude convert exactly, so the float
    comparison of two converted integers is the integer comparison. *)
Lemma compare_of_Z (a b : Z) :
  Z.abs a < 2 ^ 53 -> Z.abs b < 2 ^ 53 ->
  SFcompare (F64.of_Z a) (F64.of_Z b) = Some (a ?= b).
Proof.
  intros Ha Hb.
  destruct a as [|a|a], b as [|b|b];
    rewrite ?of_Z_pos, ?of_Z_neg by (simpl in *; lia);
    try reflexivity.
  - cbn [SFcompare]. f_equal. apply compare_normalized; simpl in *; lia.
  - cbn [SFcompare]. f_equal.
    change (Zneg a ?= Zneg b) with (CompOpp (Zpos a ?= Zpos b)).
    rewrite <- (compare_normalized a b) by (simpl in *; lia).
    now destruct (Zpos (digits2_pos a) - 53 ?= Zpos (digits2_pos b) - 53).
Qed.
End OfZ.

(** ** float64 images of bounded integers *)

Section ExactComparison.

Variables a b : Z.
Hypothesis Ha : Z.abs a < 2 ^ 53.
Hypothesis Hb : Z.abs b < 2 ^ 53.

Lemma leb_of_Z : F64.leb (F64.of_Z a) (F64.of_Z b) = (a <=? b).
Proof. unfold F64.leb, SFleb, Z.leb. rewrite compare_of_Z by assumption. now destruct (a ?= b). Qed.

Lemma ltb_of_Z : F64.ltb (F64.of_Z a) (F64.of_Z b) = (a <? b).
Proof. unfold F64.ltb, SFltb, Z.ltb. rewrite compare_of_Z by assumption. now destruct (a ?= b). Qed.

Lemma eqb_of_Z : F64.eqb (F64.of_Z a) (F64.of_Z b) = (a =? b).
Proof.
  unfold F64.eqb, SFeqb. rewrite compare_of_Z by assumption.
  destruct (Z.compare_spec a b) as [E|L|G].
  - symmetry. now apply Z.eqb_eq.
  - symmetry. apply Z.eqb_neq. lia.
  - symmetry. apply Z.eqb_neq. lia.
Qed.

End ExactComparison.

Lemma of_Z_shape (a : Z) :
  Z.abs a < 2 ^ 53 ->
  F64.is_nan (F64.of_Z a) = false /\
  (forall s, F64.is_inf (F64.of_Z a) s = false) /\
  F64.signbit (F64.of_Z a) = (a <? 0).
Proof.
  intros Ha.
  destruct a as [|m|m]; rewrite ?of_Z_pos, ?of_Z_neg by (simpl in Ha; lia);
    repeat split; reflexivity.
Qed.

Lemma Min_of_Z (a b : Z) :
  Z.abs a < 2 ^ 53 -> Z.abs b < 2 ^ 53 ->
  math.Min (F64.of_Z a) (F64.of_Z b) = F64.of_Z (Z.min a b).
Proof.
  intros Ha Hb. unfold math.Min.
  destruct (of_Z_shape a Ha) as (Hna & Hia & Hsa).
  destruct (of_Z_shape b Hb) as (Hnb & Hib & Hsb).
  rewrite Hna, Hnb, Hia, Hib, Hsa. cbn [orb].
  change F64.pos_zero with (F64.of_Z 0).
  rewrite !eqb_of_Z, ltb_of_Z by (assumption || (simpl; lia)).
  destruct (Z.eqb_spec a 0) as [->|Ha0]; cbn [andb].
  - destruct (Z.eqb_spec 0 b) as [<-|Hb0]; [reflexivity|].
    destruct (Z.ltb_spec 0 b); f_equal; lia.
  - destruct (Z.ltb_spec a b); f_equal; lia.
Qed.

Lemma Max_of_Z (a b : Z) :
  Z.abs a < 2 ^ 53 -> Z.abs b < 2 ^ 53 ->
  math.Max (F64.of_Z a) (F64.of_Z b) = F64.of_Z (Z.max a b).
Proof.
  intros Ha Hb. unfold math.Max.
  destruct (of_Z_shape a Ha) as (Hna & Hia & Hsa).
  destruct (of_Z_shape b Hb) as (Hnb & Hib & Hsb).
  rewrite Hna, Hnb, Hia, Hib, Hsa. cbn [orb].
  change F64.pos_zero with (F64.of_Z 0).
  rewrite !eqb_of_Z, ltb_of_Z by (assumption || (simpl; lia)).
  destruct (Z.eqb_spec a 0) as [->|Ha0]; cbn [andb].
  - destruct (Z.eqb_spec 0 b) as [<-|Hb0]; [reflexivity|].
    destruct (Z.ltb_spec b 0); f_equal; lia.
  - destruct (Z.ltb_spec b a); f_equal; lia.
Qed.

(** Truncating the float64 image of an integer below 2^53 gives the
    integer back: the conversion loses nothing. *)
Lemma trunc_of_Z (z : Z) : Z.abs z < 2 ^ 53 -> F64.trunc (F64.of_Z z) = Some z.
Proof.
  intros Hz.
  assert (Hm : forall m, Zpos m < 2 ^ 53 ->
            match Zpos (digits2_pos m) - 53 with
            | 0 => Zpos (F64.norm_mant m)
            | Zpos _ => Zpos (F64.norm_mant m) * 2 ^ (Zpos (digits2_pos m) - 53)
            | Zneg _ => Zpos (F64.norm_mant m) / 2 ^ (- (Zpos (digits2_pos m) - 53))
            end = Zpos m).
  { intros m Hlt. pose proof (digits_le_53 m Hlt) as Hd.
    rewrite norm_mant_val by assumption.
    destruct (Zpos (digits2_pos m) - 53) as [|k|k] eqn:Ek; try lia.
    - replace (53 - Zpos (digits2_pos m)) with 0 by lia. lia.
    - replace (53 - Zpos (digits2_pos m)) with (- Zneg k) by lia.
      apply Z.div_mul. apply Z.pow_nonzero; lia. }
  destruct z as [|m|m].
  - reflexivity.
  - rewrite of_Z_pos by (simpl in *; lia). cbn [F64.trunc].
    rewrite Hm by (simpl in *; lia). reflexivity.
  - rewrite of_Z_neg by (simpl in *; lia). cbn [F64.trunc].
    rewrite Hm by (simpl in *; lia). reflexivity.
Qed.

Lemma int32_lt_2_53 (z : Z) : Int32.in_range z -> Z.abs z < 2 ^ 53.
Proof. unfold Int32.in_range, Int32.min_signed, Int32.max_signed. lia. Qed.

(** The float test computes the integer test. *)
Lemma inRange_is_inRange_int (p : Point) (r : Rectangle) :
  point_ok p -> rect_ok r -> inRange p r = inRange_int p r.
Proof.
  intros [Hplat Hplng] [[Hlolat Hlolng] [Hhilat Hhilng]].
  apply int32_lt_2_53 in Hplat, Hplng, Hlolat, Hlolng, Hhilat, Hhilng.
  unfold inRange, inRange_int, F64.geb.
  rewrite !Min_of_Z, !Max_of_Z by assumption.
  fold (F64.leb (F64.of_Z (Z.min (Longitude (Lo r)) (Longitude (Hi r)))) (F64.of_Z (Longitude p))).
  fold (F64.leb (F64.of_Z (Z.min (Latitude (Lo r)) (Latitude (Hi r)))) (F64.of_Z (Latitude p))).
  rewrite !leb_of_Z by lia.
  now destruct (_ && _).
Qed.

(** ** Magnitude of rounded results *)

Lemma Zdigits2_nonneg (m : Z) : 0 <= Zdigits2 m.
Proof. destruct m; simpl; lia. Qed.

Lemma Zdigits2_le (m k : Z) : 0 <= k -> 0 <= m < 2 ^ k -> Zdigits2 m <= k.
Proof.
  intros Hk [Hm Hlt]. destruct m as [|p|p]; simpl; try lia.
  pose proof (digits_bounds p) as [Hlo _].
  destruct (Z.le_gt_cases (Zpos (digits2_pos p)) k) as [|Hgt]; [assumption|].
  assert (2 ^ k <= 2 ^ (Zpos (digits2_pos p) - 1)) by (apply Z.pow_le_mono_r; lia).
  lia.
Qed.

Lemma Zdigits2_lt_pow (m : Z) : 0 <= m -> m < 2 ^ Zdigits2 m.
Proof.
  intros Hm. destruct m as [|p|p]; simpl; try lia. apply digits_bounds.
Qed.

Lemma shr_1_spec (mrs : shr_record) :
  0 <= shr_m mrs ->
  0 <= shr_m (shr_1 mrs) /\
  Zdigits2 (shr_m (shr_1 mrs)) = Z.max 0 (Zdigits2 (shr_m mrs) - 1).
Proof.
  destruct mrs as [[|[p|p|]|p] r s]; cbn; intros H; try lia.
Qed.

Lemma iter_shr_1_spec (p : positive) (mrs : shr_record) :
  0 <= shr_m mrs ->
  0 <= shr_m (SpecFloat.iter_pos shr_1 p mrs) /\
  Zdigits2 (shr_m (SpecFloat.iter_pos shr_1 p mrs)) = Z.max 0 (Zdigits2 (shr_m mrs) - Zpos p).
Proof.
  revert mrs. induction p as [p IH|p IH|]; intros mrs H; cbn [SpecFloat.iter_pos].
  - destruct (shr_1_spec mrs H) as [H1 E1].
    destruct (IH _ H1) as [H2 E2]. destruct (IH _ H2) as [H3 E3].
    split; [assumption|]. rewrite E3, E2, E1. lia.
  - destruct (IH _ H) as [H2 E2]. destruct (IH _ H2) as [H3 E3].
    split; [assumption|]. rewrite E3, E2. lia.
  - destruct (shr_1_spec mrs H) as [H1 E1]. split; [assumption|]. rewrite E1. lia.
Qed.

Lemma shr_record_of_loc_m (m : Z) (l : location) : shr_m (shr_record_of_loc m l) = m.
Proof. destruct l as [|[]]; reflexivity. Qed.

Lemma shr_fexp_spec (m e : Z) (l : location) :
  0 <= m ->
  let r := shr_fexp F64.prec F64.emax m e l in
  0 <= shr_m (fst r) /\
  snd r = Z.max e (Z.max (Zdigits2 m + e - 53) (-1074)) /\
  Zdigits2 (shr_m (fst r)) = Z.max 0 (Zdigits2 m - (snd r - e)).
Proof.
  intros Hm. unfold shr_fexp, shr, fexp, emin, F64.prec, F64.emax.
  change (3 - 1024 - 53) with (-1074).
  pose proof (Zdigits2_nonneg m) as Hd.
  destruct (Z.max (Zdigits2 m + e - 53) (-1074) - e) as [|p|p] eqn:En; cbn [fst snd].
  - rewrite shr_record_of_loc_m. repeat split; lia.
  - destruct (iter_shr_1_spec p (shr_record_of_loc m l)) as [H1 E1].
    { now rewrite shr_record_of_loc_m. }
    rewrite shr_record_of_loc_m in E1. repeat split; [assumption | lia | rewrite E1; lia].
  - rewrite shr_record_of_loc_m. repeat split; lia.
Qed.

Lemma round_nearest_even_spec (m : Z) (l : location) :
  0 <= m ->
  0 <= round_nearest_even m l /\ Zdigits2 (round_nearest_even m l) <= Zdigits2 m + 1.
Proof.
  intros Hm.
  assert (Hs : 0 <= m + 1 /\ Zdigits2 (m + 1) <= Zdigits2 m + 1).
  { split; [lia|]. pose proof (Zdigits2_nonneg m). apply Zdigits2_le; [lia|].
    pose proof (Zdigits2_lt_pow m Hm). rewrite Z.pow_add_r by lia. lia. }
  unfold round_nearest_even. destruct l as [|[]]; try destruct (Z.even m); try lia; try apply Hs.
Qed.

Lemma binary_round_aux_magnitude (s : bool) (m e : Z) (l : location) (k : Z) :
  0 <= m -> Zdigits2 m + e <= k -> -1074 <= k <= 970 ->
  F64.magnitude_le (binary_round_aux F64.prec F64.emax s m e l) (k + 1).
Proof.
  intros Hm Hk Hr. unfold binary_round_aux.
  pose proof (shr_fexp_spec m e l Hm) as H1. cbv zeta in H1.
  destruct (shr_fexp F64.prec F64.emax m e l) as [mrs1 e1]. cbn [fst snd] in H1.
  destruct H1 as (Hm1 & He1 & Hd1).
  pose proof (round_nearest_even_spec (shr_m mrs1) (loc_of_shr_record mrs1) Hm1) as [Hm2 Hd2].
  pose proof (shr_fexp_spec _ e1 loc_Exact Hm2) as H3. cbv zeta in H3.
  destruct (shr_fexp F64.prec F64.emax _ e1 loc_Exact) as [mrs3 e3]. cbn [fst snd] in H3.
  destruct H3 as (Hm3 & He3 & Hd3).
  pose proof (Zdigits2_nonneg m) as Hd.
  destruct (shr_m mrs3) as [|p|p] eqn:Ep; cbn [F64.magnitude_le]; [exact I| |lia].
  cbn [Zdigits2] in Hd3.
  unfold F64.emax, F64.prec.
  destruct (Z.leb_spec e3 (1024 - 53)); cbn [F64.magnitude_le]; lia.
Qed.

Lemma magnitude_le_finite (x : float64) (k : Z) : F64.magnitude_le x k -> F64.is_finite x = true.
Proof. destruct x; cbn; intros H; (reflexivity || contradiction). Qed.

Lemma magnitude_le_weaken (x : float64) (k k' : Z) :
  F64.magnitude_le x k -> k <= k' -> F64.magnitude_le x k'.
Proof. destruct x; cbn; intros; try lia. Qed.

Lemma digits2_pos_mul (p q : positive) :
  Zpos (digits2_pos (p * q)) <= Zpos (digits2_pos p) + Zpos (digits2_pos q).
Proof.
  pose proof (digits_bounds p) as [_ Hp]. pose proof (digits_bounds q) as [_ Hq].
  apply (Zdigits2_le (Zpos (p * q))); [lia|].
  rewrite Pos2Z.inj_mul, Z.pow_add_r by lia. split; [lia|].
  apply Z.mul_lt_mono_nonneg; lia.
Qed.

Lemma mul_magnitude (x y : float64) (kx ky : Z) :
  F64.magnitude_le x kx -> F64.magnitude_le y ky -> -1074 <= kx + ky <= 970 ->
  F64.magnitude_le (F64.mul x y) (kx + ky + 1).
Proof.
  destruct x as [sx|sx| |sx mx ex], y as [sy|sy| |sy my ey]; cbn [F64.magnitude_le];
    try contradiction; try (intros; exact I).
  intros Hx Hy Hr. unfold F64.mul. cbn [SFmul].
  apply binary_round_aux_magnitude; [lia | | lia].
  cbn [Zdigits2]. pose proof (digits2_pos_mul mx my). lia.
Qed.

(** Dividing by a finite non-zero [y] whose magnitude is exactly [ky]. *)
Lemma div_magnitude (x : float64) (sy : bool) (my : positive) (ey kx : Z) :
  F64.magnitude_le x kx ->
  let ky := Zpos (digits2_pos my) + ey in
  -1074 <= kx - ky + 1 <= 970 ->
  F64.magnitude_le (F64.div x (S754_finite sy my ey)) (kx - ky + 2).
Proof.
  intros Hx ky Hr.
  destruct x as [sx|sx| |sx mx ex]; cbn [F64.magnitude_le] in Hx; try contradiction.
  - exact I.
  - unfold F64.div. cbn [SFdiv]. unfold SFdiv_core_binary.
    cbn [Zdigits2]. fold ky.
    set (e' := Z.min (fexp F64.prec F64.emax (Zpos (digits2_pos mx) + ex - ky)) (ex - ey)).
    set (m' := match ex - ey - e' with
               | 0 => Zpos mx
               | Zpos _ => Z.shiftl (Zpos mx) (ex - ey - e')
               | Zneg _ => 0
               end).
    assert (He' : e' <= ex - ey) by (unfold e'; lia).
    assert (He'' : e' <= Z.max (Zpos (digits2_pos mx) + ex - ky - 53) (-1074))
      by (unfold e', fexp, emin, F64.prec, F64.emax; lia).
    assert (Hm' : 0 <= m' < 2 ^ (Zpos (digits2_pos mx) + (ex - ey - e'))).
    { pose proof (digits_bounds mx) as [_ Hmx]. unfold m'.
      destruct (ex - ey - e') as [|s|s] eqn:Es; try lia.
      - rewrite Z.add_0_r. lia.
      - rewrite Z.shiftl_mul_pow2, Z.pow_add_r by lia.
        split; [lia|]. apply Z.mul_lt_mono_pos_r; [apply Z.pow_pos_nonneg|]; lia. }
    pose proof (Z_div_mod m' (Zpos my) eq_refl) as Hdm.
    destruct (Z.div_eucl m' (Zpos my)) as [q r]. destruct Hdm as [Hq Hrem].
    replace (kx - ky + 2) with ((kx - ky + 1) + 1) by lia.
    assert (Hq0 : 0 <= q) by nia.
    apply binary_round_aux_magnitude; [assumption | | lia].
    pose proof (digits_bounds my) as [Hmy _].
    destruct (Z.le_gt_cases (Zpos (digits2_pos my) - 1) (Zpos (digits2_pos mx) + (ex - ey - e')))
      as [Hge|Hlt].
    + assert (Zdigits2 q <= Zpos (digits2_pos mx) + (ex - ey - e') - (Zpos (digits2_pos my) - 1)).
      { apply Zdigits2_le; [lia|]. split; [assumption|].
        apply (Z.mul_lt_mono_pos_r (2 ^ (Zpos (digits2_pos my) - 1))); [apply Z.pow_pos_nonneg; lia|].
        rewrite <- Z.pow_add_r by lia.
        replace (Zpos (digits2_pos mx) + (ex - ey - e') - (Zpos (digits2_pos my) - 1)
                 + (Zpos (digits2_pos my) - 1))
          with (Zpos (digits2_pos mx) + (ex - ey - e')) by lia.
        nia. }
      unfold ky in *. lia.
    + assert (q = 0).
      { assert (2 ^ (Zpos (digits2_pos mx) + (ex - ey - e')) <= 2 ^ (Zpos (digits2_pos my) - 1))
          by (apply Z.pow_le_mono_r; lia).
        nia. }
      subst q. cbn [Zdigits2]. unfold ky in *. lia.
Qed.

Lemma opp_binary_round_aux (s : bool) (m e : Z) (l : location) :
  SFopp (binary_round_aux F64.prec F64.emax s m e l) =
  binary_round_aux F64.prec F64.emax (negb s) m e l.
Proof.
  unfold binary_round_aux.
  destruct (shr_fexp F64.prec F64.emax m e l) as [mrs1 e1].
  destruct (shr_fexp F64.prec F64.emax _ e1 loc_Exact) as [mrs2 e2].
  destruct (shr_m mrs2); [reflexivity | | reflexivity].
  now destruct (e2 <=? F64.emax - F64.prec).
Qed.

Lemma binary_normalize_opp (m e : Z) :
  m <> 0 ->
  binary_normalize F64.prec F64.emax (- m) e false =
  SFopp (binary_normalize F64.prec F64.emax m e false).
Proof.
  intros Hm. destruct m as [|p|p]; [contradiction| |].
  - change (- Zpos p) with (Zneg p). unfold binary_normalize, binary_round.
    destruct (shl_align p e _) as [mz ez]. now rewrite opp_binary_round_aux.
  - change (- Zneg p) with (Zpos p). unfold binary_normalize, binary_round.
    destruct (shl_align p e _) as [mz ez]. now rewrite opp_binary_round_aux.
Qed.

Lemma sub_swap (x y : float64) :
  F64.sub y x = F64.neg (F64.sub x y) \/ F64.sub y x = F64.sub x y.
Proof.
  unfold F64.sub, F64.neg.
  destruct x as [sx|sx| |sx mx ex], y as [sy|sy| |sy my ey]; cbn [SFsub SFopp];
    try (destruct sx, sy; cbn; auto; fail);
    try (destruct sx; cbn; auto; fail);
    try (destruct sy; cbn; auto; fail);
    auto.
  rewrite (Z.min_comm ey ex).
  set (zx := cond_Zopp sx (Zpos (fst (shl_align mx ex (Z.min ex ey))))).
  set (zy := cond_Zopp sy (Zpos (fst (shl_align my ey (Z.min ex ey))))).
  destruct (Z.eq_dec (zx - zy) 0) as [E|NE].
  - right. replace (zy - zx) with 0 by lia. now rewrite E.
  - left. replace (zy - zx) with (- (zx - zy)) by lia. now apply binary_normalize_opp.
Qed.

Lemma sub_diag (x : float64) : F64.is_finite x = true -> F64.sub x x = F64.pos_zero.
Proof.
  destruct x as [[]|sx| |sx mx ex]; cbn; try discriminate; try reflexivity.
  intros _. unfold F64.sub. cbn [SFsub]. now rewrite Z.sub_diag.
Qed.

Lemma div_neg_l (x y : float64) : F64.div (F64.neg x) y = F64.neg (F64.div x y).
Proof.
  unfold F64.div, F64.neg.
  destruct x as [sx|sx| |sx mx ex], y as [sy|sy| |sy my ey]; cbn [SFdiv SFopp];
    try reflexivity; try (destruct sx, sy; reflexivity).
  destruct (SFdiv_core_binary _ _ _ _ _ _) as [[mz ez] lz].
  rewrite opp_binary_round_aux. now destruct sx, sy.
Qed.

Lemma mul_neg_r (x y : float64) : F64.mul x (F64.neg y) = F64.neg (F64.mul x y).
Proof.
  unfold F64.mul, F64.neg.
  destruct x as [sx|sx| |sx mx ex], y as [sy|sy| |sy my ey]; cbn [SFmul SFopp];
    try reflexivity; try (destruct sx, sy; reflexivity).
  rewrite opp_binary_round_aux. now destruct sx, sy.
Qed.

Lemma mul_comm (x y : float64) : F64.mul x y = F64.mul y x.
Proof.
  unfold F64.mul.
  destruct x as [sx|sx| |sx mx ex], y as [sy|sy| |sy my ey]; cbn [SFmul];
    try reflexivity; try (destruct sx, sy; reflexivity).
  now rewrite Pos.mul_comm, Z.add_comm, xorb_comm.
Qed.

Lemma mul_neg_l (x y : float64) : F64.mul (F64.neg x) y = F64.neg (F64.mul x y).
Proof. now rewrite mul_comm, mul_neg_r, mul_comm. Qed.

Lemma neg_neg (x : float64) : F64.neg (F64.neg x) = x.
Proof. unfold F64.neg. now destruct x as [[]|[]| |[] ? ?]. Qed.

Lemma mul_neg_neg (x y : float64) : F64.mul (F64.neg x) (F64.neg y) = F64.mul x y.
Proof. now rewrite mul_neg_r, mul_neg_l, neg_neg. Qed.

Lemma digits_norm_mant (m : positive) :
  Zpos (digits2_pos m) <= 53 -> Zpos (digits2_pos (F64.norm_mant m)) = 53.
Proof.
  intros H. unfold F64.norm_mant, F64.prec.
  destruct (53 - Zpos (digits2_pos m)) as [|k|k] eqn:E; try lia.
  rewrite digits2_pos_iter_xO. lia.
Qed.

Lemma of_Z_magnitude (z : Z) : Int32.in_range z -> F64.magnitude_le (F64.of_Z z) 32.
Proof.
  unfold Int32.in_range, Int32.min_signed, Int32.max_signed. intros Hz.
  assert (Hd : forall m, Zpos m <= 2 ^ 31 -> Zpos (digits2_pos m) <= 32).
  { intros m Hm. apply (Zdigits2_le (Zpos m)); lia. }
  destruct z as [|m|m]; [exact I| |].
  - rewrite of_Z_pos by lia. cbn [F64.magnitude_le].
    rewrite digits_norm_mant by (specialize (Hd m); lia). specialize (Hd m). lia.
  - rewrite of_Z_neg by lia. cbn [F64.magnitude_le].
    rewrite digits_norm_mant by (specialize (Hd m); lia). specialize (Hd m). lia.
Qed.

Section DistanceFacts.

Context {M : GoMath} {L : GoMathLaws M}.

(** Coordinates in radians are finite numbers (of magnitude below 2^7). *)
Lemma radians_finite (z : Z) :
  Int32.in_range z ->
  F64.is_finite (toRadians (F64.div (F64.of_Z z) CordFactor)) = true.
Proof.
  intros Hz. apply (magnitude_le_finite _ 7). unfold toRadians.
  change (F64.of_Z 180) with (S754_finite false 6333186975989760 (-45)).
  change CordFactor with (S754_finite false 5368709120000000 (-29)).
  eapply magnitude_le_weaken; [apply (div_magnitude _ _ _ _ 13) | cbn; lia]; [|cbn; lia].
  apply (mul_magnitude _ _ 10 2); [| cbn; lia | lia].
  eapply magnitude_le_weaken; [apply (div_magnitude _ _ _ _ 32) | cbn; lia]; [|cbn; lia].
  now apply of_Z_magnitude.
Qed.

Lemma mul_finite_zero (x : float64) :
  F64.is_finite x = true -> exists s, F64.mul x F64.pos_zero = S754_zero s.
Proof. destruct x; cbn; try discriminate; eauto. Qed.

Lemma half_sine_square_even (d : float64) :
  F64.mul (Sin (F64.div (F64.neg d) (F64.of_Z 2))) (Sin (F64.div (F64.neg d) (F64.of_Z 2))) =
  F64.mul (Sin (F64.div d (F64.of_Z 2))) (Sin (F64.div d (F64.of_Z 2))).
Proof. now rewrite div_neg_l, Sin_odd, mul_neg_neg. Qed.

Lemma cosine_term_even (c d : float64) :
  F64.mul (F64.mul c (Sin (F64.div (F64.neg d) (F64.of_Z 2))))
          (Sin (F64.div (F64.neg d) (F64.of_Z 2))) =
  F64.mul (F64.mul c (Sin (F64.div d (F64.of_Z 2)))) (Sin (F64.div d (F64.of_Z 2))).
Proof. now rewrite div_neg_l, Sin_odd, !mul_neg_r, mul_neg_l, neg_neg. Qed.

Lemma calcDistance_comm (p1 p2 : Point) : calcDistance p1 p2 = calcDistance p2 p1.
Proof.
  unfold calcDistance. cbv zeta.
  set (lat1 := toRadians (F64.div (F64.of_Z (Latitude p1)) CordFactor)).
  set (lat2 := toRadians (F64.div (F64.of_Z (Latitude p2)) CordFactor)).
  set (lng1 := toRadians (F64.div (F64.of_Z (Longitude p1)) CordFactor)).
  set (lng2 := toRadians (F64.div (F64.of_Z (Longitude p2)) CordFactor)).
  rewrite (mul_comm (Cos lat2) (Cos lat1)).
  destruct (sub_swap lat1 lat2) as [-> | ->], (sub_swap lng1 lng2) as [-> | ->];
    rewrite ?half_sine_square_even, ?cosine_term_even; reflexivity.
Qed.

Lemma calcDistance_diag (p : Point) : point_ok p -> calcDistance p p = 0.
Proof.
  intros [Hlat Hlng]. unfold calcDistance. cbv zeta.
  pose proof (radians_finite _ Hlat) as Flat. pose proof (radians_finite _ Hlng) as Flng.
  set (lat := toRadians (F64.div (F64.of_Z (Latitude p)) CordFactor)) in *.
  set (lng := toRadians (F64.div (F64.of_Z (Longitude p)) CordFactor)) in *.
  rewrite !sub_diag by assumption.
  change (F64.div F64.pos_zero (F64.of_Z 2)) with F64.pos_zero.
  rewrite Sin_zero.
  assert (Hc : F64.is_finite (F64.mul (Cos lat) (Cos lat)) = true).
  { apply (magnitude_le_finite _ 3), (mul_magnitude _ _ 1 1); try lia; now apply Cos_bounded. }
  destruct (mul_finite_zero _ Hc) as [s ->].
  change (F64.mul F64.pos_zero F64.pos_zero) with F64.pos_zero.
  replace (F64.add F64.pos_zero (F64.mul (S754_zero s) F64.pos_zero)) with F64.pos_zero
    by (now destruct s).
  change (F64.sqrt F64.pos_zero) with F64.pos_zero.
  change (F64.sqrt (F64.sub (F64.of_Z 1) F64.pos_zero)) with F64.one.
  rewrite Atan2_zero. reflexivity.
Qed.

End DistanceFacts.

(** ** Signs of rounded results *)

Lemma binary_round_aux_sign (s : bool) (m e : Z) (l : location) :
  0 <= m ->
  F64.is_nan (binary_round_aux F64.prec F64.emax s m e l) = false /\
  F64.signbit (binary_round_aux F64.prec F64.emax s m e l) = s.
Proof.
  intros Hm. unfold binary_round_aux.
  pose proof (shr_fexp_spec m e l Hm) as H1. cbv zeta in H1.
  destruct (shr_fexp F64.prec F64.emax m e l) as [mrs1 e1]. cbn [fst snd] in H1.
  destruct H1 as (Hm1 & _ & _).
  pose proof (round_nearest_even_spec (shr_m mrs1) (loc_of_shr_record mrs1) Hm1) as [Hm2 _].
  pose proof (shr_fexp_spec _ e1 loc_Exact Hm2) as H3. cbv zeta in H3.
  destruct (shr_fexp F64.prec F64.emax _ e1 loc_Exact) as [mrs3 e3]. cbn [fst snd] in H3.
  destruct H3 as (Hm3 & _ & _).
  destruct (shr_m mrs3) as [|p|p]; [split; reflexivity| |lia].
  destruct (e3 <=? F64.emax - F64.prec); split; reflexivity.
Qed.

Lemma leb_zero_of_sign (x : float64) :
  F64.is_nan x = false -> F64.signbit x = false -> F64.leb F64.pos_zero x = true.
Proof. destruct x as [[]|[]| |[] m e]; cbn; intros; congruence. Qed.

Lemma leb_zero_not_nan (x : float64) :
  F64.leb F64.pos_zero x = true -> F64.is_nan x = false.
Proof. destruct x; cbn; intros; congruence. Qed.

Lemma binary_round_aux_nonneg (m e : Z) (l : location) :
  0 <= m -> F64.leb F64.pos_zero (binary_round_aux F64.prec F64.emax false m e l) = true.
Proof.
  intros Hm. destruct (binary_round_aux_sign false m e l Hm). now apply leb_zero_of_sign.
Qed.

Lemma sqrt_sign (x : float64) :
  F64.is_nan x = false -> F64.signbit x = false ->
  F64.is_nan (F64.sqrt x) = false /\ F64.signbit (F64.sqrt x) = false.
Proof.
  destruct x as [[]|[]| |[] m e]; cbn; intros; try congruence; try (split; reflexivity).
  unfold SFsqrt_core_binary.
  set (m' := match _ - _ with 0 => _ | Zpos _ => _ | Zneg _ => _ end).
  pose proof (Z.sqrtrem_sqrt m') as Hq. pose proof (Z.sqrt_nonneg m') as Hs.
  destruct (Z.sqrtrem m') as [q r]. cbn [fst] in Hq.
  apply binary_round_aux_sign. lia.
Qed.

Lemma sqrt_not_nan (x : float64) :
  F64.leb F64.pos_zero x = true -> F64.is_nan (F64.sqrt x) = false.
Proof.
  destruct x as [s|[]| |[] m e]; cbn; intros; try congruence.
  apply (sqrt_sign (S754_finite false m e)); reflexivity.
Qed.

Lemma mul_nonneg (x y : float64) :
  F64.leb F64.pos_zero x = true -> F64.leb F64.pos_zero y = true ->
  F64.is_finite x = true -> F64.is_finite y = true ->
  F64.leb F64.pos_zero (F64.mul x y) = true.
Proof.
  destruct x as [sx|[]| |[] mx ex], y as [sy|[]| |[] my ey]; cbn; intros; try congruence.
  apply binary_round_aux_nonneg. lia.
Qed.

Lemma div_nonneg (x : float64) (my : positive) (ey : Z) :
  F64.leb F64.pos_zero x = true -> F64.is_finite x = true ->
  F64.leb F64.pos_zero (F64.div x (S754_finite false my ey)) = true.
Proof.
  destruct x as [sx|[]| |[] mx ex]; cbn; intros; try congruence.
  unfold SFdiv_core_binary.
  set (m' := match _ - _ - _ with 0 => _ | Zpos _ => _ | Zneg _ => _ end).
  assert (Hm' : 0 <= m').
  { unfold m'. destruct (_ - _ - _) eqn:E; try lia. apply Z.shiftl_nonneg. lia. }
  pose proof (Z_div_mod m' (Zpos my) eq_refl) as Hdm.
  destruct (Z.div_eucl m' (Zpos my)) as [q r]. destruct Hdm as [Hq Hrem].
  apply binary_round_aux_nonneg. nia.
Qed.

(** ** Truncation of non-negative numbers *)

Lemma trunc_nonneg (x : float64) (k : Z) :
  F64.leb F64.pos_zero x = true -> F64.magnitude_le x k -> 0 <= k ->
  exists z, F64.trunc x = Some z /\ 0 <= z < 2 ^ k.
Proof.
  destruct x as [sx|[]| |[] m e]; cbn; intros Hx Hk H0; try congruence; try contradiction.
  - exists 0. split; [reflexivity|]. split; [lia|]. apply Z.pow_pos_nonneg; lia.
  - pose proof (digits_bounds m) as [_ Hm].
    eexists. split; [reflexivity|].
    assert (Hd : 0 < Zpos (digits2_pos m)) by lia.
    destruct e as [|e|e].
    + split; [lia|]. eapply Z.lt_le_trans; [exact Hm|]. apply Z.pow_le_mono_r; lia.
    + split; [lia|].
      eapply Z.lt_le_trans; [|apply (Z.pow_le_mono_r 2 (Zpos (digits2_pos m) + Zpos e) k); lia].
      rewrite Z.pow_add_r by lia. apply Z.mul_lt_mono_pos_r; [apply Z.pow_pos_nonneg; lia|lia].
    + change (- Zneg e) with (Zpos e).
      assert (Hp : 0 < 2 ^ Zpos e) by (apply Z.pow_pos_nonneg; lia).
      split; [apply Z.div_pos; lia|].
      apply Z.div_lt_upper_bound; [lia|].
      rewrite <- Z.pow_add_r by lia.
      eapply Z.lt_le_trans; [exact Hm|]. apply Z.pow_le_mono_r; lia.
Qed.

Lemma int32_of_float64_nonneg {M : GoMath} (x : float64) (k : Z) :
  F64.leb F64.pos_zero x = true -> F64.magnitude_le x k -> 0 <= k <= 31 ->
  0 <= int32_of_float64 x < 2 ^ k.
Proof.
  intros Hx Hk Hr. destruct (trunc_nonneg x k Hx Hk ltac:(lia)) as (z & Hz & Hb).
  unfold int32_of_float64. rewrite Hz.
  assert (2 ^ k <= 2 ^ 31) by (apply Z.pow_le_mono_r; lia).
  replace ((Int32.min_signed <=? z) && (z <=? Int32.max_signed)) with true; [assumption|].
  symmetry. apply andb_true_iff. unfold Int32.min_signed, Int32.max_signed.
  split; apply Z.leb_le; lia.
Qed.

(** ** The range of a leg *)

Lemma magnitude_leb_spec (x : float64) (k : Z) :
  F64.magnitude_leb x k = true -> F64.magnitude_le x k.
Proof. destruct x; cbn; intros H; try congruence; [exact I | now apply Z.leb_le]. Qed.

Lemma clamped_angle_math_range : GoMathRange clamped_angle_math.
Proof.
  split. intros y x _ _ _. cbn.
  destruct (F64.leb F64.pos_zero (F64.div y x)) eqn:Hpos; cbn [andb];
    [|split; [reflexivity | exact I]].
  destruct (F64.magnitude_leb (F64.div y x) 1) eqn:Hmag; [|split; [reflexivity | exact I]].
  split; [assumption|].
  apply magnitude_le_weaken with (k := 1); [now apply magnitude_leb_spec | lia].
Qed.

(** The float [distance] of [calcDistance] is a non-negative number below
    2^29 when neither square root is NaN. *)
Lemma leg_float_range {M : GoMath} (range : GoMathRange M) (p1 p2 : Point) :
  radicands_ok p1 p2 ->
  exists distance,
    calcDistance p1 p2 = int32_of_float64 distance /\
    F64.leb F64.pos_zero distance = true /\ F64.magnitude_le distance 29.
Proof.
  intros (Hnan & Hsign & Hsub).
  exists (F64.mul R (F64.mul (F64.of_Z 2)
            (Atan2 (F64.sqrt (haversine p1 p2))
                   (F64.sqrt (F64.sub (F64.of_Z 1) (haversine p1 p2)))))).
  split; [reflexivity|].
  destruct (sqrt_sign _ Hnan Hsign) as [Hn1 Hs1].
  pose proof (sqrt_not_nan _ Hsub) as Hn2.
  destruct (Atan2_upper_half _ _ Hn1 Hs1 Hn2) as [Hpos Hmag].
  set (r := Atan2 _ _) in *.
  assert (H2 : F64.magnitude_le (F64.of_Z 2) 2) by (vm_compute; discriminate).
  assert (HR : F64.magnitude_le R 23) by (vm_compute; discriminate).
  pose proof (mul_magnitude _ _ 2 2 H2 Hmag ltac:(lia)) as Hc.
  assert (Hcpos : F64.leb F64.pos_zero (F64.mul (F64.of_Z 2) r) = true).
  { apply mul_nonneg; [reflexivity | assumption | reflexivity |].
    eapply magnitude_le_finite; eassumption. }
  split.
  - apply mul_nonneg; [reflexivity | assumption | reflexivity |].
    eapply magnitude_le_finite; eassumption.
  - exact (mul_magnitude _ _ 23 5 HR Hc ltac:(lia)).
Qed.

Lemma route_length_nonneg {M : GoMath} (range : GoMathRange M) (points : list Point) :
  legs_ok points -> 0 <= route_length points.
Proof.
  induction points as [|a l IH]; [cbn; lia|].
  destruct l as [|b l]; [cbn; lia|].
  intros [Hleg Hrest]. specialize (IH Hrest).
  change (route_length (a :: b :: l)) with (calcDistance a b + route_length (b :: l)).
  destruct (leg_float_range range a b Hleg) as (distance & -> & Hpos & Hmag).
  pose proof (int32_of_float64_nonneg distance 29 Hpos Hmag ltac:(lia)). lia.
Qed.

(** ** Sums and the elapsed time *)

Lemma shl_align_spec (m : positive) (e e' : Z) :
  e' <= e ->
  snd (shl_align m e e') = e' /\
  Zpos (fst (shl_align m e e')) = Zpos m * 2 ^ (e - e').
Proof.
  intros H. unfold shl_align.
  destruct (e' - e) as [|d|d] eqn:E; cbn [fst snd].
  - assert (e = e') by lia. subst. rewrite Z.sub_diag. split; [reflexivity|lia].
  - lia.
  - split; [reflexivity|]. rewrite iter_xO_mul. f_equal. f_equal. lia.
Qed.

Lemma binary_round_sign_magnitude (s : bool) (m : positive) (e k : Z) :
  Zpos (digits2_pos m) + e <= k -> -1074 <= k <= 970 ->
  F64.is_nan (binary_round F64.prec F64.emax s m e) = false /\
  F64.signbit (binary_round F64.prec F64.emax s m e) = s /\
  F64.magnitude_le (binary_round F64.prec F64.emax s m e) (k + 1).
Proof.
  intros Hk Hr. unfold binary_round.
  set (e' := fexp F64.prec F64.emax (Zpos (digits2_pos m) + e)).
  assert (Hd : Zpos (digits2_pos (fst (shl_align m e e'))) + snd (shl_align m e e')
               = Zpos (digits2_pos m) + e).
  { unfold shl_align. destruct (e' - e) as [|d|d] eqn:E; cbn [fst snd]; try reflexivity.
    rewrite digits2_pos_iter_xO. lia. }
  destruct (shl_align m e e') as [mz ez]. cbn [fst snd] in Hd.
  destruct (binary_round_aux_sign s (Zpos mz) ez loc_Exact ltac:(lia)) as [Hn Hs].
  split; [assumption|]. split; [assumption|].
  apply binary_round_aux_magnitude; [lia | cbn [Zdigits2]; lia | lia].
Qed.

Lemma add_nonneg_magnitude (x y : float64) (k : Z) :
  F64.leb F64.pos_zero x = true -> F64.leb F64.pos_zero y = true ->
  F64.magnitude_le x k -> F64.magnitude_le y k -> -1074 <= k <= 968 ->
  F64.leb F64.pos_zero (F64.add x y) = true /\ F64.magnitude_le (F64.add x y) (k + 2).
Proof.
  destruct x as [sx|[]| |[] mx ex], y as [sy|[]| |[] my ey]; cbn [F64.magnitude_le];
    intros Hx Hy Kx Ky Hr; try contradiction; try (cbn in Hx, Hy; congruence).
  - destruct sx, sy; cbn; split; (reflexivity || exact I).
  - cbn. split; [reflexivity|]. cbn. lia.
  - cbn. split; [reflexivity|]. cbn. lia.
  - unfold F64.add. cbn [SFadd cond_Zopp].
    set (ez := Z.min ex ey).
    destruct (shl_align_spec mx ex ez ltac:(lia)) as [_ Hmx].
    destruct (shl_align_spec my ey ez ltac:(lia)) as [_ Hmy].
    set (ax := fst (shl_align mx ex ez)) in *. set (ay := fst (shl_align my ey ez)) in *.
    change (Zpos ax + Zpos ay) with (Zpos (ax + ay)). cbn [binary_normalize].
    assert (Hsum : Zpos (digits2_pos (ax + ay)) + ez <= k + 1).
    { pose proof (digits_bounds mx) as [_ Bx]. pose proof (digits_bounds my) as [_ By].
      assert (Hpx : 0 < 2 ^ (ex - ez)) by (apply Z.pow_pos_nonneg; lia).
      assert (Hpy : 0 < 2 ^ (ey - ez)) by (apply Z.pow_pos_nonneg; lia).
      assert (Zpos ax < 2 ^ (k - ez)).
      { rewrite Hmx.
        eapply Z.lt_le_trans; [apply Z.mul_lt_mono_pos_r; [exact Hpx|exact Bx]|].
        rewrite <- Z.pow_add_r by lia. apply Z.pow_le_mono_r; lia. }
      assert (Zpos ay < 2 ^ (k - ez)).
      { rewrite Hmy.
        eapply Z.lt_le_trans; [apply Z.mul_lt_mono_pos_r; [exact Hpy|exact By]|].
        rewrite <- Z.pow_add_r by lia. apply Z.pow_le_mono_r; lia. }
      assert (Hke : 0 <= k - ez).
      { destruct (Z.le_gt_cases 0 (k - ez)); [assumption|].
        rewrite Z.pow_neg_r in * by lia. lia. }
      enough (Zdigits2 (Zpos (ax + ay)) <= k - ez + 1) by (cbn [Zdigits2] in *; lia).
      apply Zdigits2_le; [lia|]. split; [lia|].
      rewrite Z.pow_add_r by lia. rewrite Pos2Z.inj_add. lia. }
    destruct (binary_round_sign_magnitude false (ax + ay) ez (k + 1) Hsum ltac:(lia))
      as (Hn & Hs & Hm).
    split; [now apply leb_zero_of_sign|].
    replace (k + 2) with (k + 1 + 1) by lia. exact Hm.
Qed.

Lemma of_Z_nonneg_magnitude (z k : Z) :
  0 <= z < 2 ^ k -> 0 <= k <= 53 ->
  F64.leb F64.pos_zero (F64.of_Z z) = true /\ F64.magnitude_le (F64.of_Z z) k.
Proof.
  intros [H0 Hz] Hk. destruct z as [|m|m]; [split; [reflexivity|exact I]| |lia].
  assert (Zpos m < 2 ^ 53).
  { eapply Z.lt_le_trans; [exact Hz|]. apply Z.pow_le_mono_r; lia. }
  rewrite of_Z_pos by assumption. split; [reflexivity|].
  cbn [F64.magnitude_le]. rewrite digits_norm_mant by now apply digits_le_53.
  pose proof (Zdigits2_le (Zpos m) k ltac:(lia) ltac:(lia)) as Hd. cbn [Zdigits2] in Hd. lia.
Qed.

Lemma Seconds_range (d : Z) :
  0 <= d < 2 ^ 29 * Duration.Second ->
  F64.leb F64.pos_zero (Duration.Seconds d) = true /\
  F64.magnitude_le (Duration.Seconds d) 31.
Proof.
  intros Hd. unfold Duration.Seconds. cbv zeta.
  assert (Hs : 0 < Duration.Second) by reflexivity.
  rewrite Z.quot_div_nonneg, Z.rem_mod_nonneg by lia.
  pose proof (Z.mod_pos_bound d Duration.Second Hs) as Hn.
  assert (Hq : 0 <= d / Duration.Second < 2 ^ 29).
  { split; [apply Z.div_pos; lia|]. apply Z.div_lt_upper_bound; lia. }
  destruct (of_Z_nonneg_magnitude (d / Duration.Second) 29 Hq ltac:(lia)) as [Hx Kx].
  assert (Hn' : 0 <= d mod Duration.Second < 2 ^ 30).
  { change Duration.Second with 1000000000 in *. lia. }
  destruct (of_Z_nonneg_magnitude (d mod Duration.Second) 30 Hn' ltac:(lia)) as [Hy Ky].
  assert (E : F64.of_Z 1000000000 = S754_finite false 8388608000000000 (-23))
    by (vm_compute; reflexivity).
  rewrite E.
  pose proof (div_nonneg _ 8388608000000000 (-23) Hy (magnitude_le_finite _ _ Ky)) as Hf.
  pose proof (div_magnitude _ false 8388608000000000 (-23) 30 Ky) as Kf.
  cbv zeta in Kf. specialize (Kf ltac:(vm_compute; split; discriminate)).
  change (30 - (Zpos (digits2_pos 8388608000000000) + -23) + 2) with 2 in Kf.
  replace 31 with (29 + 2) by reflexivity.
  apply add_nonneg_magnitude; try assumption; [|lia].
  eapply magnitude_le_weaken; [exact Kf|lia].
Qed.

Lemma Sub_small (t u : Z) :
  u <= t < u + 2 ^ 29 * Duration.Second -> Duration.Sub t u = t - u.
Proof.
  unfold Duration.Sub, Duration.minDuration, Duration.maxDuration, Duration.Second. lia.
Qed.

Lemma elapsed_seconds_range {M : GoMath} (startTime endTime : Z) :
  startTime <= endTime < startTime + 2 ^ 29 * Duration.Second ->
  0 <= elapsed_seconds startTime endTime < 2 ^ 31.
Proof.
  intros Hd. unfold elapsed_seconds. rewrite Sub_small by assumption.
  destruct (Seconds_range (endTime - startTime) ltac:(lia)) as [Hpos Hmag].
  apply int32_of_float64_nonneg; [assumption..|lia].
Qed.

(** Beyond 2^31 - 1 seconds the conversion leaves the int32 range: one
    nanosecond before 2^31 seconds the sum of [Duration.Seconds] rounds up
    to 2^31, and what [int32] makes of it depends on the implementation. *)
Lemma elapsed_seconds_unrepresentable {M : GoMath} :
  let d := (2 ^ 31 - 1) * Duration.Second + 999999999 in
  F64.trunc (Duration.Seconds d) = Some (2 ^ 31) /\
  elapsed_seconds 0 d = Int32.wrap (int32_of_unrepresentable (Duration.Seconds d)).
Proof. split; reflexivity. Qed.

(** ** Containment test *)

(** C10: the containment test converts the 32-bit coordinates to float64
    before comparing; every int32 value [z] converts exactly (truncating
    its float64 image gives [z] back), and for every rectangle and point
    with int32 coordinates the float test returns the same boolean as the
    purely integer min/max comparison [inRange_int]. *)
Theorem inRange_refines_integer_test (p : Point) (r : Rectangle) (z : Z) :
  point_ok p -> rect_ok r -> Int32.in_range z ->
  F64.trunc (F64.of_Z z) = Some z /\ inRange p r = inRange_int p r.
Proof.
  intros Hp Hr Hz. split.
  - apply trunc_of_Z, int32_lt_2_53, Hz.
  - apply inRange_is_inRange_int; assumption.
Qed.

Lemma inRange_refines_integer_test_witness :
  F64.trunc (F64.of_Z (-746188906)) = Some (-746188906) /\
  inRange {| Latitude := 409146138; Longitude := -746188906 |}
          {| Lo := {| Latitude := 400000000; Longitude := -750000000 |};
             Hi := {| Latitude := 420000000; Longitude := -730000000 |} |} =
  inRange_int {| Latitude := 409146138; Longitude := -746188906 |}
          {| Lo := {| Latitude := 400000000; Longitude := -750000000 |};
             Hi := {| Latitude := 420000000; Longitude := -730000000 |} |}.
Proof.
  apply inRange_refines_integer_test;
    repeat split; vm_compute; discriminate.
Defined.

(** C5: for every rectangle and point (int32 coordinates) the containment
    test gives the same boolean when the two corners are exchanged, and it
    is true exactly when the point's longitude lies between the minimum
    and maximum corner longitudes and its latitude between the minimum and
    maximum corner latitudes, both bounds included. *)
Theorem inRange_corner_symmetric_inclusive (rect : Rectangle) (p : Point) :
  point_ok p -> rect_ok rect ->
  inRange p (swap_corners rect) = inRange p rect /\
  (inRange p rect = true <->
   Z.min (Longitude (Lo rect)) (Longitude (Hi rect)) <= Longitude p
     <= Z.max (Longitude (Lo rect)) (Longitude (Hi rect)) /\
   Z.min (Latitude (Lo rect)) (Latitude (Hi rect)) <= Latitude p
     <= Z.max (Latitude (Lo rect)) (Latitude (Hi rect))).
Proof.
  intros Hp Hr.
  assert (Hs : rect_ok (swap_corners rect)) by (destruct Hr; split; assumption).
  rewrite !inRange_is_inRange_int by assumption.
  unfold inRange_int, swap_corners; cbn [Lo Hi].
  split.
  - rewrite (Z.min_comm (Longitude (Hi rect))), (Z.max_comm (Longitude (Hi rect))),
      (Z.min_comm (Latitude (Hi rect))), (Z.max_comm (Latitude (Hi rect))).
    reflexivity.
  - rewrite !andb_true_iff, !Z.leb_le. tauto.
Qed.

Lemma inRange_corner_symmetric_inclusive_witness :
  let rect := {| Lo := {| Latitude := 420000000; Longitude := -750000000 |};
                 Hi := {| Latitude := 400000000; Longitude := -730000000 |} |} in
  let p := {| Latitude := 420000000; Longitude := -730000000 |} in
  inRange p (swap_corners rect) = inRange p rect /\
  (inRange p rect = true <->
   Z.min (Longitude (Lo rect)) (Longitude (Hi rect)) <= Longitude p
     <= Z.max (Longitude (Lo rect)) (Longitude (Hi rect)) /\
   Z.min (Latitude (Lo rect)) (Latitude (Hi rect)) <= Latitude p
     <= Z.max (Latitude (Lo rect)) (Latitude (Hi rect))).
Proof.
  apply inRange_corner_symmetric_inclusive;
    repeat split; vm_compute; discriminate.
Defined.

(** ** GetFeature *)

Lemma proto_Equal_eq (p q : Point) : proto_Equal p q = true <-> p = q.
Proof.
  unfold proto_Equal. rewrite andb_true_iff, !Z.eqb_eq.
  destruct p, q; cbn. split; [intros [-> ->]; reflexivity | intros [= -> ->]; auto].
Qed.

Lemma proto_Equal_neq (p q : Point) : proto_Equal p q = false <-> p <> q.
Proof.
  rewrite <- proto_Equal_eq. destruct (proto_Equal p q); split; congruence.
Qed.

Lemma GetFeature_scan_Some (features : list Feature) (point : Point) (f : Feature) :
  GetFeature_scan features point = Some f ->
  exists before after,
    features = before ++ f :: after /\ Location f = point /\
    Forall (fun g => Location g <> point) before.
Proof.
  induction features as [|g rest IH]; cbn; [discriminate|].
  destruct (proto_Equal (Location g) point) eqn:E.
  - intros [= ->]. exists [], rest. apply proto_Equal_eq in E. auto.
  - intros H. destruct (IH H) as (before & after & -> & Hloc & Hall).
    exists (g :: before), after. apply proto_Equal_neq in E. auto.
Qed.

Lemma GetFeature_scan_None (features : list Feature) (point : Point) :
  GetFeature_scan features point = None ->
  Forall (fun g => Location g <> point) features.
Proof.
  induction features as [|g rest IH]; cbn; [constructor|].
  destruct (proto_Equal (Location g) point) eqn:E; [discriminate|].
  intros H. apply proto_Equal_neq in E. auto.
Qed.

(** C2: for every point, GetFeature returns no error; if some known
    feature is located exactly at the point it returns the first such
    feature in store order (that very feature, hence its exact name);
    otherwise it returns a feature with empty name located at the point. *)
Theorem GetFeature_first_match_or_unnamed (s : server) (point : Point) :
  snd (GetFeature s point) = None /\
  ((exists before f after,
      knownFeatures s = before ++ f :: after /\
      Location f = point /\
      Forall (fun g => Location g <> point) before /\
      fst (GetFeature s point) = f) \/
   (Forall (fun g => Location g <> point) (knownFeatures s) /\
    fst (GetFeature s point) = {| Name := EmptyString; Location := point |})).
Proof.
  unfold GetFeature.
  destruct (GetFeature_scan (knownFeatures s) point) as [f|] eqn:E; cbn.
  - split; [reflexivity|]. left.
    destruct (GetFeature_scan_Some _ _ _ E) as (before & after & H1 & H2 & H3).
    exists before, f, after. auto.
  - split; [reflexivity|]. right. split; [|reflexivity].
    apply GetFeature_scan_None, E.
Qed.

(** ** Sending *)

Lemma accepts_S {A : Type} (stream : SendStream A) (msg : A) (n : nat) :
  accepts stream (S n) ->
  Send stream msg = (debit stream [msg], None) /\ accepts (debit stream [msg]) n.
Proof.
  unfold accepts, Send, debit. destruct stream as [out [[|c]|]]; cbn; intros H.
  - lia.
  - rewrite Nat.sub_0_r. split; [reflexivity | lia].
  - split; [reflexivity | exact I].
Qed.

Lemma accepts_le {A : Type} (stream : SendStream A) (n m : nat) :
  accepts stream n -> (m <= n)%nat -> accepts stream m.
Proof. unfold accepts. destruct (credit stream); [lia | auto]. Qed.

Lemma accepts_debit {A : Type} (stream : SendStream A) (msgs : list A) (n : nat) :
  accepts stream (length msgs + n) -> accepts (debit stream msgs) n.
Proof. unfold accepts, debit. destruct (credit stream); cbn; [lia | auto]. Qed.

Lemma debit_nil {A : Type} (stream : SendStream A) : debit stream [] = stream.
Proof.
  destruct stream as [out [c|]]; unfold debit; cbn; rewrite app_nil_r, ?Nat.sub_0_r; reflexivity.
Qed.

Lemma debit_debit {A : Type} (stream : SendStream A) (l1 l2 : list A) :
  debit (debit stream l1) l2 = debit stream (l1 ++ l2).
Proof.
  destruct stream as [out [c|]]; unfold debit; cbn; rewrite <- app_assoc; [|reflexivity].
  rewrite length_app. do 2 f_equal. lia.
Qed.

Lemma send_all_accepted {A : Type} (msgs : list A) (stream : SendStream A) :
  accepts stream (length msgs) -> send_all stream msgs = (debit stream msgs, None).
Proof.
  revert stream. induction msgs as [|msg rest IH]; intros stream H; cbn.
  - now rewrite debit_nil.
  - destruct (accepts_S stream msg (length rest) H) as [-> H'].
    rewrite IH by assumption. now rewrite debit_debit.
Qed.

(** ** ListFeatures *)

Lemma ListFeatures_scan_accepted (features : list Feature) (rect : Rectangle)
    (stream : SendStream Feature) :
  accepts stream (length (List.filter (fun f => inRange (Location f) rect) features)) ->
  ListFeatures_scan features rect stream =
  (debit stream (List.filter (fun f => inRange (Location f) rect) features), None).
Proof.
  revert stream. induction features as [|f rest IH]; intros stream H; cbn in *.
  - now rewrite debit_nil.
  - destruct (inRange (Location f) rect); cbn in H.
    + destruct (accepts_S stream f _ H) as [-> H'].
      rewrite IH by assumption. now rewrite debit_debit.
    + now apply IH.
Qed.

Lemma covers_all_inRange (rect : Rectangle) (p : Point) :
  covers_all rect -> point_ok p -> inRange p rect = true.
Proof.
  intros (Hr & H1 & H2 & H3 & H4) Hp.
  rewrite inRange_is_inRange_int by assumption.
  unfold inRange_int. rewrite H1, H2, H3, H4.
  destruct Hp as [[? ?] [? ?]].
  rewrite !andb_true_iff, !Z.leb_le. auto.
Qed.

Lemma filter_all {A : Type} (f : A -> bool) (l : list A) :
  Forall (fun x => f x = true) l -> List.filter f l = l.
Proof. induction 1 as [|x l Hx _ IH]; cbn; [reflexivity|]. now rewrite Hx, IH. Qed.

(** C3: for every rectangle, when the transport accepts the messages,
    ListFeatures sends exactly the known features whose location passes
    the containment test, one message each, in store order, and returns
    without error (ending the stream); with no match nothing is sent; with
    a rectangle covering the whole coordinate space every known feature is
    sent exactly once, in load order. *)
Theorem ListFeatures_streams_matches_in_order (s : server) (rect : Rectangle)
    (stream : SendStream Feature) :
  accepts stream (length (features_in s rect)) ->
  snd (ListFeatures s rect stream) = None /\
  sent (fst (ListFeatures s rect stream)) = sent stream ++ features_in s rect /\
  (features_in s rect = [] -> sent (fst (ListFeatures s rect stream)) = sent stream) /\
  (covers_all rect -> Forall (fun f => point_ok (Location f)) (knownFeatures s) ->
   sent (fst (ListFeatures s rect stream)) = sent stream ++ knownFeatures s).
Proof.
  intros H. unfold ListFeatures, features_in in *.
  rewrite ListFeatures_scan_accepted by assumption. cbn.
  repeat split.
  - intros ->. apply app_nil_r.
  - intros Hc Hall. f_equal. apply filter_all.
    eapply Forall_impl; [exact Hall|]. intros f Hf. now apply covers_all_inRange.
Qed.

Lemma ListFeatures_streams_matches_in_order_witness :
  let s := {| knownFeatures :=
                [ {| Name := "A"; Location := {| Latitude := 409146138; Longitude := -746188906 |} |};
                  {| Name := "B"; Location := {| Latitude := 0; Longitude := 0 |} |};
                  {| Name := "C"; Location := {| Latitude := 413628156; Longitude := -749015468 |} |} ];
              routeNotes := ∅ |} in
  let rect := {| Lo := {| Latitude := 400000000; Longitude := -750000000 |};
                 Hi := {| Latitude := 420000000; Longitude := -730000000 |} |} in
  let stream := {| sent := []; credit := Some 2%nat |} in
  snd (ListFeatures s rect stream) = None /\
  sent (fst (ListFeatures s rect stream)) = sent stream ++ features_in s rect /\
  (features_in s rect = [] -> sent (fst (ListFeatures s rect stream)) = sent stream) /\
  (covers_all rect -> Forall (fun f => point_ok (Location f)) (knownFeatures s) ->
   sent (fst (ListFeatures s rect stream)) = sent stream ++ knownFeatures s).
Proof.
  apply ListFeatures_streams_matches_in_order. vm_compute. lia.
Defined.

(** ** Registry keys *)

Lemma pretty_N_char_no_space (x : N) : pretty_N_char x <> " "%char.
Proof. unfold pretty_N_char. repeat case_match; discriminate. Qed.

Lemma pretty_N_go_no_space (x : N) (s : string) :
  no_space s -> no_space (pretty_N_go x s).
Proof.
  revert s. induction (N.lt_wf_0 x) as [x _ IH]; intros s Hs.
  destruct (N.eq_dec x 0%N) as [->|Hx].
  - now rewrite pretty_N_go_0.
  - rewrite pretty_N_go_step by lia. apply IH.
    + apply N.div_lt; lia.
    + split; [apply pretty_N_char_no_space | assumption].
Qed.

Lemma pretty_N_no_space (x : N) : no_space (pretty x).
Proof.
  unfold pretty, pretty_N. case_decide.
  - cbn. split; [discriminate | exact I].
  - apply pretty_N_go_no_space. exact I.
Qed.

Lemma pretty_Z_no_space (z : Z) : no_space (pretty z).
Proof.
  destruct z as [|p|p]; unfold pretty, pretty_Z.
  - cbn. split; [discriminate | exact I].
  - apply pretty_N_no_space.
  - cbn. split; [discriminate | apply pretty_N_no_space].
Qed.

(** Two blank-separated pairs of blank-free words are equal only if the
    words are. *)
Lemma split_at_space (a b x y : string) :
  no_space a -> no_space b ->
  a +:+ " " +:+ x = b +:+ " " +:+ y -> a = b /\ x = y.
Proof.
  revert b. induction a as [|c a IH]; intros [|d b]; cbn; intros Ha Hb H.
  - injection H as H. cbn in H. auto.
  - injection H as H1 _. destruct Hb as [Hd _]. congruence.
  - injection H as H1 _. destruct Ha as [Hc _]. congruence.
  - injection H as -> H. destruct Ha as [_ Ha], Hb as [_ Hb].
    destruct (IH b Ha Hb H) as [-> ->]. auto.
Qed.

Lemma location_key_inj (p q : Point) : location_key p = location_key q -> p = q.
Proof.
  unfold location_key. intros H.
  apply split_at_space in H as [H1 H2]; try apply pretty_Z_no_space.
  apply (inj pretty) in H1, H2. destruct p, q; cbn in *; congruence.
Qed.

Lemma notes_at_insert (notes : gmap string (list RouteNote)) (key : string)
    (l : list RouteNote) :
  notes_at (<[key := l]> notes) key = l.
Proof. unfold notes_at. now rewrite lookup_insert_eq. Qed.

Lemma notes_at_insert_ne (notes : gmap string (list RouteNote)) (key key' : string)
    (l : list RouteNote) :
  key <> key' -> notes_at (<[key := l]> notes) key' = notes_at notes key'.
Proof. intros H. unfold notes_at. now rewrite lookup_insert_ne. Qed.

(** C9: the registry key of a point determines its coordinates: two
    points get the same key exactly when their latitudes and their
    longitudes are equal; so appending a note leaves the entry of every
    other coordinate pair untouched, and the snapshot it returns holds only
    notes of the entry at the note's own coordinates. *)
Theorem location_key_exact_coordinates (p q : Point)
    (notes : gmap string (list RouteNote)) (note : RouteNote) :
  (location_key p = location_key q <->
   Latitude p = Latitude q /\ Longitude p = Longitude q) /\
  (p <> NoteLocation note ->
   notes_at (fst (append_note notes note)) (location_key p) =
   notes_at notes (location_key p)) /\
  snd (append_note notes note) =
  notes_at notes (location_key (NoteLocation note)) ++ [note].
Proof.
  split; [split|split].
  - intros H. apply location_key_inj in H as ->. auto.
  - intros [H1 H2]. destruct p, q; cbn in *. now subst.
  - intros Hne. unfold append_note; cbn. apply notes_at_insert_ne.
    intros H. apply location_key_inj in H. congruence.
  - unfold append_note; cbn. apply notes_at_insert.
Qed.

Lemma location_key_exact_coordinates_witness :
  let p := {| Latitude := 0; Longitude := 1 |} in
  let note := {| NoteLocation := {| Latitude := 0; Longitude := 2 |}; Message := "I was here too." |} in
  let notes : gmap string (list RouteNote) :=
    {[ "0 1" := [ {| NoteLocation := p; Message := "I was here!" |} ] ]} in
  notes_at (fst (append_note notes note)) (location_key p) = notes_at notes (location_key p).
Proof.
  cbv zeta.
  apply (location_key_exact_coordinates
           {| Latitude := 0; Longitude := 1 |} {| Latitude := 0; Longitude := 1 |}).
  discriminate.
Defined.

(** ** RouteChat *)

Lemma RouteChat_loop_step (notes : gmap string (list RouteNote)) (note : RouteNote)
    (rest : list RouteNote) (ending : error) (outbound : SendStream RouteNote) :
  let key := location_key (NoteLocation note) in
  let history := notes_at notes key ++ [note] in
  accepts outbound (length history) ->
  RouteChat_loop notes (note :: rest) ending outbound =
  RouteChat_loop (<[key := history]> notes) rest ending (debit outbound history).
Proof.
  intros key history H. cbn [RouteChat_loop]. unfold append_note.
  fold key. fold history. rewrite notes_at_insert.
  now rewrite send_all_accepted.
Qed.

(** C4: for an incoming note, RouteChat appends the note to the registry
    entry keyed by the note's location and then sends, on this call's
    outbound stream, every note of the entry after the append, in append
    order and ending with the note itself, before it goes on with the next
    note; hence a call that sends N1 then N2 to one location with no
    earlier notes produces N1, then N1 and N2. *)
Theorem RouteChat_sends_history_after_append (s : server) (note N1 N2 : RouteNote)
    (rest : list RouteNote) (closing : error)
    (outbound outbound' : SendStream RouteNote) :
  let key := location_key (NoteLocation note) in
  let history := notes_at (routeNotes s) key ++ [note] in
  accepts outbound (length history) ->
  NoteLocation N1 = NoteLocation N2 ->
  notes_at (routeNotes s) (location_key (NoteLocation N1)) = [] ->
  accepts outbound' 3 ->
  RouteChat s {| incoming := note :: rest; ending := closing |} outbound =
  RouteChat {| knownFeatures := knownFeatures s;
               routeNotes := <[key := history]> (routeNotes s) |}
            {| incoming := rest; ending := closing |} (debit outbound history) /\
  (let '(s', out, err) := RouteChat s {| incoming := [N1; N2]; ending := io_EOF |} outbound' in
   sent out = sent outbound' ++ [N1] ++ [N1; N2] /\
   notes_at (routeNotes s') (location_key (NoteLocation N1)) = [N1; N2] /\
   err = None).
Proof.
  intros key history Hacc Hloc Hempty Hacc'. split.
  - unfold RouteChat; cbn [incoming ending knownFeatures routeNotes].
    now rewrite RouteChat_loop_step.
  - unfold RouteChat; cbn [incoming ending].
    rewrite RouteChat_loop_step
      by (rewrite Hempty; apply (accepts_le _ 3); [assumption | cbn; lia]).
    rewrite Hempty. cbn [app].
    rewrite RouteChat_loop_step.
    + rewrite <- Hloc, notes_at_insert. cbn [RouteChat_loop routeNotes].
      rewrite debit_debit, notes_at_insert. cbn. auto.
    + rewrite <- Hloc, notes_at_insert. apply accepts_debit.
      apply (accepts_le _ 3); [assumption | cbn; lia].
Qed.

Lemma RouteChat_sends_history_after_append_witness :
  let N1 := {| NoteLocation := {| Latitude := 0; Longitude := 1 |}; Message := "I was here!" |} in
  let N2 := {| NoteLocation := {| Latitude := 0; Longitude := 1 |}; Message := "Ummm..." |} in
  let s := {| knownFeatures := []; routeNotes := ∅ |} in
  let out := {| sent := []; credit := None |} in
  let '(s', o, err) := RouteChat s {| incoming := [N1; N2]; ending := io_EOF |} out in
  sent o = sent out ++ [N1] ++ [N1; N2] /\
  notes_at (routeNotes s') (location_key (NoteLocation N1)) = [N1; N2] /\
  err = None.
Proof.
  cbv zeta.
  refine (proj2 (RouteChat_sends_history_after_append
                   {| knownFeatures := []; routeNotes := ∅ |}
                   {| NoteLocation := {| Latitude := 0; Longitude := 1 |}; Message := "I was here!" |}
                   {| NoteLocation := {| Latitude := 0; Longitude := 1 |}; Message := "I was here!" |}
                   {| NoteLocation := {| Latitude := 0; Longitude := 1 |}; Message := "Ummm..." |}
                   [] io_EOF {| sent := []; credit := None |} {| sent := []; credit := None |}
                   _ _ _ _)).
  - exact I.
  - reflexivity.
  - reflexivity.
  - exact I.
Defined.

(** ** 32-bit accumulation *)

Lemma wrap_in_range (z : Z) : Int32.in_range (Int32.wrap z).
Proof.
  unfold Int32.in_range, Int32.wrap, Int32.min_signed, Int32.max_signed, Int32.modulus.
  pose proof (Z.mod_pos_bound (z + 2 ^ 31) (2 ^ 32)). lia.
Qed.

Lemma wrap_small (z : Z) : Int32.in_range z -> Int32.wrap z = z.
Proof.
  unfold Int32.in_range, Int32.wrap, Int32.min_signed, Int32.max_signed, Int32.modulus.
  intros H. rewrite Z.mod_small; lia.
Qed.

Lemma wrap_add_wrap (a b : Z) : Int32.wrap (Int32.wrap a + b) = Int32.wrap (a + b).
Proof.
  unfold Int32.wrap, Int32.modulus. f_equal.
  replace ((a + 2 ^ 31) mod 2 ^ 32 - 2 ^ 31 + b + 2 ^ 31)
    with ((a + 2 ^ 31) mod 2 ^ 32 + b) by lia.
  rewrite Zplus_mod_idemp_l. f_equal. lia.
Qed.

Lemma incr_wrap (a : Z) : Int32.incr (Int32.wrap a) = Int32.wrap (a + 1).
Proof. unfold Int32.incr, Int32.add. apply wrap_add_wrap. Qed.

(** ** The loops read their stream with [Recv] *)

Lemma RecordRoute_loop_Recv {M : GoMath} (s : server) (stream : RecvStream Point)
    (pointCount featureCount distance : Z) (lastPoint : option Point)
    (elapsed : Z) (close : option error) :
  RecordRoute_loop s (incoming stream) (ending stream) pointCount featureCount distance
    lastPoint elapsed close =
  match Recv stream with
  | (inr io_EOF, _) =>
      {| response := Some {| PointCount := pointCount; FeatureCount := featureCount;
                             Distance := distance; ElapsedTime := elapsed |};
         returned := close |}
  | (inr err, _) => {| response := None; returned := Some err |}
  | (inl point, stream') =>
      RecordRoute_loop s (incoming stream') (ending stream')
        (Int32.incr pointCount)
        (count_features (knownFeatures s) point featureCount)
        (match lastPoint with
         | Some last => Int32.add distance (calcDistance last point)
         | None => distance
         end)
        (Some point) elapsed close
  end.
Proof. destruct stream as [[|point rest] []]; reflexivity. Qed.

Lemma RouteChat_loop_Recv (notes : gmap string (list RouteNote))
    (stream : RecvStream RouteNote) (outbound : SendStream RouteNote) :
  RouteChat_loop notes (incoming stream) (ending stream) outbound =
  match Recv stream with
  | (inr io_EOF, _) => (notes, outbound, None)
  | (inr err, _) => (notes, outbound, Some err)
  | (inl note, stream') =>
      let '(notes', rn) := append_note notes note in
      match send_all outbound rn with
      | (outbound', Some err) => (notes', outbound', Some err)
      | (outbound', None) =>
          RouteChat_loop notes' (incoming stream') (ending stream') outbound'
      end
  end.
Proof. destruct stream as [[|note rest] []]; reflexivity. Qed.

(** ** RecordRoute *)

Lemma count_features_wrap (features : list Feature) (point : Point) (n : Z) :
  count_features features point (Int32.wrap n) =
  Int32.wrap (n + Z.of_nat (length (List.filter
                (fun feature => proto_Equal (Location feature) point) features))).
Proof.
  revert n. induction features as [|f rest IH]; intros n; cbn.
  - f_equal. lia.
  - destruct (proto_Equal (Location f) point); cbn [length].
    + rewrite incr_wrap, IH. f_equal. lia.
    + apply IH.
Qed.

Section RecordRouteFacts.

Context {M : GoMath}.

Lemma RecordRoute_loop_wrap (s : server) (points : list Point) (last : option Point)
    (n m d elapsed : Z) (close : option error) :
  RecordRoute_loop s points io_EOF (Int32.wrap n) (Int32.wrap m) (Int32.wrap d) last
    elapsed close =
  {| response := Some {| PointCount := Int32.wrap (n + Z.of_nat (length points));
                         FeatureCount := Int32.wrap (m + total_matches s points);
                         Distance := Int32.wrap (d + remaining_length last points);
                         ElapsedTime := elapsed |};
     returned := close |}.
Proof.
  revert last n m d. induction points as [|point rest IH]; intros last n m d.
  - cbn [RecordRoute_loop length total_matches]. unfold remaining_length.
    destruct last; cbn [route_length]; rewrite !Z.add_0_r; reflexivity.
  - cbn [RecordRoute_loop]. rewrite incr_wrap, count_features_wrap.
    fold (matches_at s point).
    destruct last as [previous|].
    + unfold Int32.add. rewrite wrap_add_wrap, IH.
      cbn [length total_matches remaining_length].
      change (route_length (previous :: point :: rest))
        with (calcDistance previous point + route_length (point :: rest)).
      f_equal. f_equal. f_equal; f_equal; lia.
    + rewrite IH.
      cbn [length total_matches remaining_length].
      f_equal. f_equal. f_equal; f_equal; lia.
Qed.

Lemma RecordRoute_summary (s : server) (points : list Point) (elapsed : Z)
    (close : option error) :
  RecordRoute s {| incoming := points; ending := io_EOF |} elapsed close =
  {| response := Some {| PointCount := Int32.wrap (Z.of_nat (length points));
                         FeatureCount := Int32.wrap (total_matches s points);
                         Distance := Int32.wrap (route_length points);
                         ElapsedTime := elapsed |};
     returned := close |}.
Proof.
  unfold RecordRoute; cbn [incoming ending].
  change 0 with (Int32.wrap 0) at 1 2 3.
  now rewrite RecordRoute_loop_wrap.
Qed.

Lemma total_matches_nonneg (s : server) (points : list Point) : 0 <= total_matches s points.
Proof. induction points; cbn; unfold matches_at in *; lia. Qed.

End RecordRouteFacts.

(** C1 (amended): for every finite sequence of streamed points ended by
    the client, RecordRoute responds with a summary whose point count,
    feature count and distance are the number of points received, the
    number of exact feature matches summed over the received points (a
    point received twice counts twice) and the sum of [calcDistance] over
    consecutive points (the first point adding nothing), each reduced
    modulo 2^32 into the int32 range, hence equal to that number whenever
    it fits in an int32; with no point all three are 0. *)
Theorem RecordRoute_summary_int32 {M : GoMath} (s : server) (points : list Point)
    (elapsed : Z) (close : option error) :
  exists summary,
    response (RecordRoute s {| incoming := points; ending := io_EOF |} elapsed close)
      = Some summary /\
    PointCount summary = Int32.wrap (Z.of_nat (length points)) /\
    FeatureCount summary = Int32.wrap (total_matches s points) /\
    Distance summary = Int32.wrap (route_length points) /\
    (Int32.in_range (Z.of_nat (length points)) ->
     PointCount summary = Z.of_nat (length points)) /\
    (Int32.in_range (total_matches s points) ->
     FeatureCount summary = total_matches s points) /\
    (Int32.in_range (route_length points) ->
     Distance summary = route_length points) /\
    (points = [] ->
     PointCount summary = 0 /\ Distance summary = 0 /\ FeatureCount summary = 0).
Proof.
  rewrite RecordRoute_summary. eexists. split; [reflexivity|].
  cbn [PointCount FeatureCount Distance].
  split; [reflexivity|]. split; [reflexivity|]. split; [reflexivity|].
  split; [apply wrap_small|]. split; [apply wrap_small|]. split; [apply wrap_small|].
  intros ->. auto.
Qed.

Lemma RecordRoute_summary_int32_witness :
  let A := {| Latitude := 409146138; Longitude := -746188906 |} in
  let B := {| Latitude := 413628156; Longitude := -749015468 |} in
  let s := {| knownFeatures := [ {| Name := "A"; Location := A |}; {| Name := "A2"; Location := A |} ];
              routeNotes := ∅ |} in
  exists summary,
    response (RecordRoute (M := small_angle_math) s
                {| incoming := [A; B; A]; ending := io_EOF |} 3 None) = Some summary /\
    PointCount summary = 3 /\ FeatureCount summary = 4 /\ Distance summary = 117842.
Proof.
  cbv zeta.
  destruct (RecordRoute_summary_int32 (M := small_angle_math)
              {| knownFeatures :=
                   [ {| Name := "A"; Location := {| Latitude := 409146138; Longitude := -746188906 |} |};
                     {| Name := "A2"; Location := {| Latitude := 409146138; Longitude := -746188906 |} |} ];
                 routeNotes := ∅ |}
              [ {| Latitude := 409146138; Longitude := -746188906 |};
                {| Latitude := 413628156; Longitude := -749015468 |};
                {| Latitude := 409146138; Longitude := -746188906 |} ] 3 None)
    as (summary & Hr & _ & _ & _ & Hp & Hf & Hd & _).
  exists summary. split; [exact Hr|].
  split; [|split].
  - rewrite Hp; [reflexivity | vm_compute; split; discriminate].
  - rewrite Hf; [reflexivity | vm_compute; split; discriminate].
  - rewrite Hd; [reflexivity | vm_compute; split; discriminate].
Defined.

(** The counters are exact only up to 2^31 - 1: a stream of 2^31 points
    yields the point count -2^31. *)
Lemma RecordRoute_point_count_wraps :
  let points := repeat {| Latitude := 0; Longitude := 0 |} (Z.to_nat 2147483648) in
  Z.of_nat (length points) = 2147483648 /\
  option_map PointCount
    (response (RecordRoute (M := small_angle_math)
                 {| knownFeatures := []; routeNotes := ∅ |}
                 {| incoming := points; ending := io_EOF |} 0 None))
  = Some (-2147483648).
Proof.
  cbv zeta. rewrite RecordRoute_summary. cbn [response option_map PointCount].
  rewrite repeat_length, Z2Nat.id by lia.
  split; reflexivity.
Qed.

(** The distance accumulator is the first to overflow: legs are at most
    half the circumference of the earth (about 20,015,086 m), and 108 legs
    of at least 19,884,108 m already sum to 2^31 or more. *)
Lemma route_length_back_and_forth {M : GoMath} (a b : Point) (d : Z) (legs : nat) :
  calcDistance a b = d -> calcDistance b a = d ->
  route_length (back_and_forth a b legs) = Z.of_nat legs * d.
Proof.
  intros Hab Hba. revert a b Hab Hba.
  induction legs as [|n IH]; intros a b Hab Hba; [reflexivity|].
  cbn [back_and_forth].
  replace (route_length (a :: back_and_forth b a n))
    with (calcDistance a b + route_length (back_and_forth b a n))
    by (destruct n; reflexivity).
  rewrite IH, Hab by assumption. lia.
Qed.

Lemma RecordRoute_distance_wraps {M : GoMath} (s : server) (a b : Point) (d elapsed : Z)
    (close : option error) :
  calcDistance a b = d -> calcDistance b a = d -> 19884108 <= d <= 39768215 ->
  exists summary,
    response (RecordRoute s {| incoming := back_and_forth a b 108; ending := io_EOF |}
                elapsed close) = Some summary /\
    Distance summary = 108 * d - 2 ^ 32 /\ Distance summary < 0.
Proof.
  intros Hab Hba Hd. rewrite RecordRoute_summary. eexists. split; [reflexivity|].
  cbn [Distance]. rewrite (route_length_back_and_forth a b d) by assumption.
  change (Z.of_nat 108) with 108.
  assert (E : Int32.wrap (108 * d) = 108 * d - 2 ^ 32).
  { unfold Int32.wrap, Int32.modulus.
    replace (108 * d + 2 ^ 31) with (108 * d - 2 ^ 31 + 1 * 2 ^ 32) by lia.
    rewrite Z.mod_add by lia. rewrite Z.mod_small by lia. lia. }
  rewrite E. lia.
Qed.

(** C7 (amended): for every finite input stream of at most 2^31 - 1
    points, with at most 2^31 - 1 exact feature matches in total, on every
    leg of which neither square root of [calcDistance] is taken of a
    negative number or NaN, whose leg distances sum to at most 2^31 - 1,
    and for a call during which the monotonic clock did not run backwards
    and advanced by less than 2^29 seconds, the four fields of the summary
    returned by RecordRoute are non-negative.  [math.Atan2] is assumed to
    return an angle between 0 and pi on the upper half plane. *)
Theorem RecordRoute_summary_nonnegative {M : GoMath} (range : GoMathRange M)
    (s : server) (points : list Point) (startTime endTime : Z) (close : option error) :
  Z.of_nat (length points) <= Int32.max_signed ->
  total_matches s points <= Int32.max_signed ->
  legs_ok points ->
  route_length points <= Int32.max_signed ->
  startTime <= endTime < startTime + 2 ^ 29 * Duration.Second ->
  exists summary,
    response (RecordRoute s {| incoming := points; ending := io_EOF |}
                (elapsed_seconds startTime endTime) close) = Some summary /\
    0 <= PointCount summary /\ 0 <= FeatureCount summary /\
    0 <= Distance summary /\ 0 <= ElapsedTime summary.
Proof.
  intros Hp Hf Hlegs Hd Hclock. rewrite RecordRoute_summary. eexists. split; [reflexivity|]. cbn.
  pose proof (total_matches_nonneg s points).
  pose proof (route_length_nonneg range points Hlegs).
  pose proof (elapsed_seconds_range startTime endTime Hclock).
  unfold Int32.max_signed in *.
  rewrite !wrap_small by (unfold Int32.in_range, Int32.min_signed, Int32.max_signed; lia).
  lia.
Qed.

Lemma RecordRoute_summary_nonnegative_witness :
  let A := {| Latitude := 409146138; Longitude := -746188906 |} in
  let B := {| Latitude := 413628156; Longitude := -749015468 |} in
  let s := {| knownFeatures := [ {| Name := "A"; Location := A |} ]; routeNotes := ∅ |} in
  exists summary,
    response (RecordRoute (M := clamped_angle_math) s
                {| incoming := [A; B]; ending := io_EOF |}
                (elapsed_seconds (M := clamped_angle_math) 5000000000 8200000000) None)
      = Some summary /\
    0 <= PointCount summary /\ 0 <= FeatureCount summary /\
    0 <= Distance summary /\ 0 <= ElapsedTime summary.
Proof.
  cbv zeta. apply (RecordRoute_summary_nonnegative clamped_angle_math_range).
  - vm_compute. discriminate.
  - vm_compute. discriminate.
  - vm_compute. repeat split; reflexivity.
  - vm_compute. discriminate.
  - vm_compute. split; [discriminate | reflexivity].
Defined.

(** A field of the summary can be negative: after 3 * 10^9 points the
    point count has wrapped around to -1294967296. *)
Lemma RecordRoute_point_count_negative :
  let points := repeat {| Latitude := 1; Longitude := 1 |} (Z.to_nat 3000000000) in
  exists summary,
    response (RecordRoute (M := small_angle_math)
                {| knownFeatures := []; routeNotes := ∅ |}
                {| incoming := points; ending := io_EOF |} 1 None) = Some summary /\
    PointCount summary = -1294967296 /\ PointCount summary < 0.
Proof.
  cbv zeta. rewrite RecordRoute_summary. eexists. split; [reflexivity|].
  cbn [PointCount]. rewrite repeat_length, Z2Nat.id by lia.
  split; reflexivity.
Qed.

(** ** Great-circle distance *)

Lemma small_angle_math_laws : GoMathLaws small_angle_math.
Proof.
  split; cbn.
  - reflexivity.
  - reflexivity.
  - intros x _. vm_compute. discriminate.
  - reflexivity.
Qed.

(** C6: the distance from a point (int32 coordinates) to itself is 0, and
    the distance between two points does not depend on their order; this
    holds for every math library satisfying [GoMathLaws]. *)
Theorem calcDistance_zero_on_diagonal_and_symmetric {M : GoMath} (L : GoMathLaws M)
    (p p1 p2 : Point) :
  point_ok p ->
  calcDistance p p = 0 /\ calcDistance p1 p2 = calcDistance p2 p1.
Proof.
  intros Hp. split.
  - now apply calcDistance_diag.
  - apply calcDistance_comm.
Qed.

Lemma calcDistance_zero_on_diagonal_and_symmetric_witness :
  let A := {| Latitude := 409146138; Longitude := -746188906 |} in
  let B := {| Latitude := 413628156; Longitude := -749015468 |} in
  calcDistance (M := small_angle_math) A A = 0 /\
  calcDistance (M := small_angle_math) A B = calcDistance (M := small_angle_math) B A.
Proof.
  cbv zeta.
  apply (calcDistance_zero_on_diagonal_and_symmetric small_angle_math_laws).
  repeat split; vm_compute; discriminate.
Defined.

(** ** Concurrent calls of RouteChat *)

Section ConcurrentFacts.

Import Concurrent.

Variable notes0 : gmap string (list RouteNote).

Lemma appended_at_app (key : string) (evs1 evs2 : list event) :
  appended_at key (evs1 ++ evs2) = appended_at key evs1 ++ appended_at key evs2.
Proof.
  induction evs1 as [|[i note| | |] evs1 IH]; cbn; try assumption; [reflexivity|].
  case_decide; cbn; now rewrite IH.
Qed.

Lemma appended_at_quiet (key : string) (evs : list event) (ev : event) :
  (forall i note, ev <> Appended i note) ->
  appended_at key (evs ++ [ev]) = appended_at key evs.
Proof.
  intros H. rewrite appended_at_app. destruct ev; cbn; try apply app_nil_r.
  now destruct (H i note).
Qed.

Lemma trace_ok_snoc (evs : list event) (ev : event) :
  trace_ok notes0 evs -> event_ok notes0 evs ev -> trace_ok notes0 (evs ++ [ev]).
Proof.
  intros Hevs Hev before e after E.
  destruct after as [|x after _] using rev_ind.
  - apply app_inj_tail in E as [-> ->]. exact Hev.
  - rewrite app_comm_cons, app_assoc in E. apply app_inj_tail in E as [E _].
    now apply (Hevs before e after).
Qed.

Lemma invariant_start (streams : list (RecvStream RouteNote * SendStream RouteNote)) :
  invariant notes0 (start notes0 streams) [].
Proof.
  split; cbn.
  - intros key. now rewrite app_nil_r.
  - intros i c Hc Hcrit. rewrite list_lookup_fmap in Hc.
    destruct (streams !! i); cbn in Hc; [|discriminate].
    injection Hc as <-. discriminate.
  - discriminate.
  - intros i c note entry Hc Hp. rewrite list_lookup_fmap in Hc.
    destruct (streams !! i); cbn in Hc; [|discriminate].
    injection Hc as <-. discriminate.
  - intros i c note Hc Hp. rewrite list_lookup_fmap in Hc.
    destruct (streams !! i); cbn in Hc; [|discriminate].
    injection Hc as <-. discriminate.
  - intros [|? ?] ev after E; discriminate.
Qed.

(** How one statement of call [i] may change the state without breaking
    the invariant. *)
Lemma invariant_update (sys : system) (events : list event) (i : nat) (c : call)
    (p' : position) (inb' : RecvStream RouteNote) (outb' : SendStream RouteNote)
    (R' : gmap string (list RouteNote)) (mu' : option nat) (ev : event) :
  invariant notes0 sys events ->
  calls sys !! i = Some c ->
  (forall key, notes_at R' key = notes_at notes0 key ++ appended_at key (events ++ [ev])) ->
  (R' = registry sys \/ in_critical_section (position_of c) = true) ->
  (mu' = mu sys \/ (mu sys = None /\ mu' = Some i) \/
   (in_critical_section (position_of c) = true /\ mu' = None)) ->
  (in_critical_section p' = true <-> mu' = Some i) ->
  (forall note entry, p' = AtWrite note entry ->
     entry = notes_at R' (location_key (NoteLocation note)) ++ [note]) ->
  (forall note, p' = AtCopy note ->
     exists earlier, notes_at R' (location_key (NoteLocation note)) = earlier ++ [note]) ->
  event_ok notes0 events ev ->
  invariant notes0
    {| registry := R'; mu := mu';
       calls := <[i := {| position_of := p'; inbound := inb'; outbound := outb' |}]>
                  (calls sys) |}
    (events ++ [ev]).
Proof.
  intros [Ireg Iholder Iheld Iwrite Icopy Itrace] Hc Hreg HR Hmu Hcrit Hw Hcp Hev.
  assert (Hi : (i < length (calls sys))%nat) by (eapply lookup_lt_Some; eassumption).
  assert (Hother : forall j cj, j <> i -> calls sys !! j = Some cj ->
            in_critical_section (position_of cj) = true ->
            R' = registry sys /\ mu' = mu sys).
  { intros j cj Hne Hj Hcj. pose proof (Iholder j cj Hj Hcj) as Hmj.
    assert (in_critical_section (position_of c) = true -> False).
    { intros Hci. pose proof (Iholder i c Hc Hci). congruence. }
    split.
    - destruct HR as [|]; [assumption | tauto].
    - destruct Hmu as [|[[? ?]|[? ?]]]; [assumption | congruence | tauto]. }
  split; cbn [registry mu calls].
  - exact Hreg.
  - intros j cj Hj Hcj. destruct (decide (j = i)) as [->|Hne].
    + rewrite list_lookup_insert_eq in Hj by assumption. injection Hj as <-.
      now apply Hcrit.
    + rewrite list_lookup_insert_ne in Hj by congruence.
      destruct (Hother j cj Hne Hj Hcj) as [_ ->]. eauto.
  - intros j Hj. destruct (decide (j = i)) as [->|Hne].
    + rewrite list_lookup_insert_eq by assumption. eexists. split; [reflexivity|].
      now apply Hcrit.
    + rewrite list_lookup_insert_ne by congruence.
      destruct Hmu as [E|[[_ E]|[_ E]]]; [|congruence..].
      rewrite E in Hj. now apply Iheld.
  - intros j cj note entry Hj Hp. destruct (decide (j = i)) as [->|Hne].
    + rewrite list_lookup_insert_eq in Hj by assumption. injection Hj as <-.
      now apply Hw.
    + rewrite list_lookup_insert_ne in Hj by congruence.
      destruct (Hother j cj Hne Hj) as [-> _]; [now rewrite Hp|]. eauto.
  - intros j cj note Hj Hp. destruct (decide (j = i)) as [->|Hne].
    + rewrite list_lookup_insert_eq in Hj by assumption. injection Hj as <-.
      now apply Hcp.
    + rewrite list_lookup_insert_ne in Hj by congruence.
      destruct (Hother j cj Hne Hj) as [-> _]; [now rewrite Hp|]. eauto.
  - now apply trace_ok_snoc.
Qed.

Lemma not_held_outside (sys : system) (events : list event) (i : nat) (c : call) :
  invariant notes0 sys events -> calls sys !! i = Some c ->
  in_critical_section (position_of c) = false -> mu sys <> Some i.
Proof.
  intros Inv Hc Hp Hmu. destruct (inv_held _ _ _ Inv i Hmu) as (c' & Hc' & Hcrit).
  congruence.
Qed.

Lemma step_invariant (sys sys' : system) (events : list event) (i : nat) (ev : event) :
  invariant notes0 sys events -> step sys i = Some (sys', ev) ->
  invariant notes0 sys' (events ++ [ev]).
Proof.
  intros Inv Hstep. unfold step in Hstep.
  destruct (calls sys !! i) as [c|] eqn:Hc; [|discriminate].
  pose proof (inv_registry _ _ _ Inv) as Ireg.
  assert (Hquiet : forall e, (forall j note, e <> Appended j note) ->
            forall key, notes_at (registry sys) key =
                        notes_at notes0 key ++ appended_at key (events ++ [e])).
  { intros e He key. rewrite appended_at_quiet by assumption. apply Ireg. }
  destruct (position_of c) as [|note|note|note entry|note|rn|[|note rn]|err] eqn:Hp.
  - (* Recv *)
    pose proof (not_held_outside sys events i c Inv Hc) as Hout. rewrite Hp in Hout.
    specialize (Hout eq_refl).
    destruct (Recv (inbound c)) as [[note|[|]] rest]; injection Hstep as <- <-;
      apply invariant_update with (c := c); try assumption;
      try (apply Hquiet; discriminate); try (now left); try discriminate;
      try exact I; cbn; (split; [discriminate | congruence]).
  - (* Lock *)
    destruct (mu sys) eqn:Hmu; [discriminate|]. injection Hstep as <- <-.
    apply invariant_update with (c := c); try assumption.
    + apply Hquiet; discriminate.
    + now left.
    + right; left. auto.
    + cbn. tauto.
    + discriminate.
    + discriminate.
    + exact I.
  - (* read the entry *)
    injection Hstep as <- <-.
    assert (Hmu : mu sys = Some i) by (apply (inv_holder _ _ _ Inv i c Hc); now rewrite Hp).
    apply invariant_update with (c := c); try assumption.
    + apply Hquiet; discriminate.
    + now left.
    + now left.
    + cbn. tauto.
    + now intros ? ? [= <- <-].
    + discriminate.
    + exact I.
  - (* write the entry *)
    injection Hstep as <- <-.
    assert (Hmu : mu sys = Some i) by (apply (inv_holder _ _ _ Inv i c Hc); now rewrite Hp).
    pose proof (inv_write _ _ _ Inv i c note entry Hc Hp) as Hentry.
    apply invariant_update with (c := c); try assumption.
    + intros key. rewrite appended_at_app. cbn [appended_at].
      destruct (decide (location_key (NoteLocation note) = key)) as [<-|Hne].
      * rewrite notes_at_insert, Hentry, Ireg. now rewrite app_assoc.
      * rewrite notes_at_insert_ne by assumption. rewrite app_nil_r. apply Ireg.
    + right. now rewrite Hp.
    + now left.
    + cbn. tauto.
    + discriminate.
    + intros ? [= <-]. rewrite notes_at_insert. eauto.
    + exact I.
  - (* copy *)
    injection Hstep as <- <-.
    assert (Hmu : mu sys = Some i) by (apply (inv_holder _ _ _ Inv i c Hc); now rewrite Hp).
    apply invariant_update with (c := c); try assumption.
    + apply Hquiet; discriminate.
    + now left.
    + now left.
    + cbn. tauto.
    + discriminate.
    + discriminate.
    + cbn. split; [apply Ireg | apply (inv_copy _ _ _ Inv i c note Hc Hp)].
  - (* Unlock *)
    injection Hstep as <- <-.
    apply invariant_update with (c := c); try assumption.
    + apply Hquiet; discriminate.
    + now left.
    + right; right. now rewrite Hp.
    + cbn. split; discriminate.
    + discriminate.
    + discriminate.
    + exact I.
  - (* the snapshot is exhausted *)
    pose proof (not_held_outside sys events i c Inv Hc) as Hout. rewrite Hp in Hout.
    specialize (Hout eq_refl). injection Hstep as <- <-.
    apply invariant_update with (c := c); try assumption.
    + apply Hquiet; discriminate.
    + now left.
    + now left.
    + cbn; split; [discriminate | congruence].
    + discriminate.
    + discriminate.
    + exact I.
  - (* Send *)
    pose proof (not_held_outside sys events i c Inv Hc) as Hout. rewrite Hp in Hout.
    specialize (Hout eq_refl).
    destruct (Send (outbound c) note) as [out [err|]]; injection Hstep as <- <-;
      apply invariant_update with (c := c); try assumption;
      try (apply Hquiet; discriminate); try (now left); try discriminate;
      try exact I; cbn; (split; [discriminate | congruence]).
  - discriminate.
Qed.

Lemma run_invariant (schedule : list nat) (sys : system) (events : list event) :
  invariant notes0 sys events ->
  invariant notes0 (fst (run sys events schedule)) (snd (run sys events schedule)).
Proof.
  revert sys events. induction schedule as [|i rest IH]; intros sys events Inv; cbn.
  - assumption.
  - destruct (step sys i) as [[sys' ev]|] eqn:Hstep.
    + apply IH. eapply step_invariant; eassumption.
    + now apply IH.
Qed.

(** A statement of one call leaves the state of every other call alone:
    in particular the snapshot another call is sending. *)
Lemma step_other_call (sys sys' : system) (i j : nat) (ev : event) :
  step sys i = Some (sys', ev) -> j <> i -> calls sys' !! j = calls sys !! j.
Proof.
  intros Hstep Hne. unfold step in Hstep.
  destruct (calls sys !! i) as [c|]; [|discriminate].
  destruct (position_of c) as [|note|note|note entry|note|rn|[|note rn]|err];
    repeat match type of Hstep with
           | context [match ?x with _ => _ end] => destruct x
           end;
    try discriminate; injection Hstep as <- _; cbn;
    now rewrite list_lookup_insert_ne by congruence.
Qed.

End ConcurrentFacts.

(** *** A single call *)

Section Solo.

Import Concurrent.

Lemma run_app (s1 s2 : list nat) (sys : system) (events : list event) :
  run sys events (s1 ++ s2) =
  run (fst (run sys events s1)) (snd (run sys events s1)) s2.
Proof.
  revert sys events. induction s1 as [|i s1 IH]; intros sys events; cbn; [reflexivity|].
  destruct (step sys i) as [[sys' ev]|]; apply IH.
Qed.

Lemma Send_failed {A : Type} (stream stream' : SendStream A) (msg : A) (err : error) :
  Send stream msg = (stream', Some err) -> stream' = stream.
Proof. unfold Send. destruct (credit stream) as [[|n]|]; now intros [= <- _]. Qed.

Lemma solo_sending (rn : list RouteNote) (notes : gmap string (list RouteNote))
    (inb : RecvStream RouteNote) (out : SendStream RouteNote) (events : list event) :
  exists n,
    fst (run (solo notes None (AtSend rn) inb out) events (repeat 0%nat n)) =
    match send_all out rn with
    | (out', None) => solo notes None AtRecv inb out'
    | (out', Some err) => solo notes None (Returned (Some err)) inb out'
    end.
Proof.
  revert out events. induction rn as [|note rest IH]; intros out events.
  - exists 1%nat. reflexivity.
  - destruct (Send out note) as [out1 [err|]] eqn:E.
    + exists 1%nat. cbn. unfold solo, step; cbn. rewrite E. cbn.
      now rewrite (Send_failed _ _ _ _ E).
    + destruct (IH out1 (events ++ [Sent 0 note None])) as [n Hn].
      exists (S n). cbn [repeat run send_all]. unfold step at 1; cbn. rewrite E.
      exact Hn.
Qed.

Lemma solo_note (note : RouteNote) (rest : list RouteNote)
    (notes : gmap string (list RouteNote)) (ending : error)
    (out : SendStream RouteNote) (events : list event) :
  let key := location_key (NoteLocation note) in
  let notes' := <[key := notes_at notes key ++ [note]]> notes in
  exists events',
    run (solo notes None AtRecv {| incoming := note :: rest; ending := ending |} out)
        events [0; 0; 0; 0; 0; 0]%nat =
    (solo notes' None (AtSend (notes_at notes' key)) {| incoming := rest; ending := ending |} out,
     events').
Proof. intros key notes'. eexists. reflexivity. Qed.

(** A call running alone behaves as the function [RouteChat_loop]. *)
Lemma solo_run (inb : list RouteNote) (notes : gmap string (list RouteNote))
    (ending : error) (out : SendStream RouteNote) (events : list event) :
  exists n inb',
    fst (run (solo notes None AtRecv {| incoming := inb; ending := ending |} out)
             events (repeat 0%nat n)) =
    let '(notes', out', err) := RouteChat_loop notes inb ending out in
    solo notes' None (Returned err) inb' out'.
Proof.
  revert notes out events. induction inb as [|note rest IH]; intros notes out events.
  - exists 1%nat. eexists. destruct ending; reflexivity.
  - destruct (solo_note note rest notes ending out events) as [events1 H1].
    cbv zeta in H1.
    set (key := location_key (NoteLocation note)) in *.
    set (notes' := <[key := notes_at notes key ++ [note]]> notes) in *.
    set (inb1 := {| incoming := rest; ending := ending |}) in *.
    destruct (solo_sending (notes_at notes' key) notes' inb1 out events1) as [n Hn].
    cbn [RouteChat_loop]. unfold append_note. fold key. fold notes'.
    destruct (send_all out (notes_at notes' key)) as [out' [err|]] eqn:E.
    + exists (6 + n)%nat, inb1.
      change (repeat 0%nat (6 + n)) with ([0; 0; 0; 0; 0; 0]%nat ++ repeat 0%nat n).
      rewrite run_app, H1. cbn [fst snd]. exact Hn.
    + set (X := run (solo notes' None (AtSend (notes_at notes' key)) inb1 out) events1
                    (repeat 0%nat n)) in *.
      destruct (IH notes' out' (snd X)) as (m & inb' & Hm).
      exists (6 + (n + m))%nat, inb'.
      change (repeat 0%nat (6 + (n + m)))
        with ([0; 0; 0; 0; 0; 0]%nat ++ repeat 0%nat (n + m)).
      rewrite repeat_app, !run_app, H1. cbn [fst snd]. fold X. rewrite Hn. exact Hm.
Qed.

End Solo.

(** C8: whatever the interleaving of the calls, the registry entry of
    every key is its initial content followed by all notes stored under
    the key, in the order the stores happened (no append is lost and the
    appends to one key are totally ordered); every snapshot a call takes is
    that whole history up to its own note, which comes last; at most one
    call is between Lock and Unlock; a call hands a message to its stream
    only while it does not hold the mutex; and a step of one call never
    changes the snapshot another call is sending. *)
Theorem RouteChat_appends_linearized_snapshots_private
    (notes0 : gmap string (list RouteNote))
    (streams : list (RecvStream RouteNote * SendStream RouteNote))
    (schedule : list nat) :
  let sys := fst (Concurrent.run (Concurrent.start notes0 streams) [] schedule) in
  let events := snd (Concurrent.run (Concurrent.start notes0 streams) [] schedule) in
  (forall key,
     notes_at (Concurrent.registry sys) key =
     notes_at notes0 key ++ Concurrent.appended_at key events) /\
  (forall before i note rn after,
     events = before ++ Concurrent.Copied i note rn :: after ->
     rn = notes_at notes0 (location_key (NoteLocation note)) ++
          Concurrent.appended_at (location_key (NoteLocation note)) before /\
     exists earlier, rn = earlier ++ [note]) /\
  (forall i j ci cj,
     Concurrent.calls sys !! i = Some ci -> Concurrent.calls sys !! j = Some cj ->
     Concurrent.in_critical_section (Concurrent.position_of ci) = true ->
     Concurrent.in_critical_section (Concurrent.position_of cj) = true ->
     i = j) /\
  (forall before i note holder after,
     events = before ++ Concurrent.Sent i note holder :: after -> holder <> Some i) /\
  (forall i j sys' ev,
     Concurrent.step sys i = Some (sys', ev) -> j <> i ->
     Concurrent.calls sys' !! j = Concurrent.calls sys !! j).
Proof.
  intros sys events.
  pose proof (run_invariant notes0 schedule _ _ (invariant_start notes0 streams)) as Inv.
  fold sys events in Inv.
  split; [|split; [|split; [|split]]].
  - apply (Concurrent.inv_registry _ _ _ Inv).
  - intros before i note rn after E.
    apply (Concurrent.inv_trace _ _ _ Inv before _ after E).
  - intros i j ci cj Hi Hj Hci Hcj.
    pose proof (Concurrent.inv_holder _ _ _ Inv i ci Hi Hci).
    pose proof (Concurrent.inv_holder _ _ _ Inv j cj Hj Hcj).
    congruence.
  - intros before i note holder after E.
    apply (Concurrent.inv_trace _ _ _ Inv before _ after E).
  - intros i j sys' ev. apply step_other_call.
Qed.

(** Two calls writing to one location, the second starting while the
    first is between two notes; the first call then waits at Lock until
    the second has released the mutex. *)
Example two_calls_one_location :
  let N1 := {| NoteLocation := {| Latitude := 0; Longitude := 1 |}; Message := "I was here!" |} in
  let N2 := {| NoteLocation := {| Latitude := 0; Longitude := 1 |}; Message := "Ummm..." |} in
  let N3 := {| NoteLocation := {| Latitude := 0; Longitude := 1 |}; Message := "Me too." |} in
  let streams :=
    [ ({| incoming := [N1; N2]; ending := io_EOF |}, {| sent := []; credit := None |});
      ({| incoming := [N3]; ending := io_EOF |}, {| sent := []; credit := None |}) ] in
  let schedule :=
    [0; 0; 0; 0; 0; 0; 0; 0; 1; 1; 0; 0; 1; 1; 1; 1; 0; 0; 0; 0; 0;
     1; 1; 0; 0; 0; 0; 0; 1; 1]%nat in
  let sys := fst (Concurrent.run (Concurrent.start ∅ streams) [] schedule) in
  notes_at (Concurrent.registry sys) "0 1" = [N1; N3; N2] /\
  map (fun c => sent (Concurrent.outbound c)) (Concurrent.calls sys) =
    [ [N1; N1; N3; N2]; [N1; N3] ] /\
  map Concurrent.position_of (Concurrent.calls sys) =
    [ Concurrent.Returned None; Concurrent.Returned None ].
Proof. vm_compute. auto. Qed.

Lemma RouteChat_appends_linearized_snapshots_private_witness :
  let N1 := {| NoteLocation := {| Latitude := 0; Longitude := 1 |}; Message := "I was here!" |} in
  let N3 := {| NoteLocation := {| Latitude := 0; Longitude := 1 |}; Message := "Me too." |} in
  let streams :=
    [ ({| incoming := [N1]; ending := io_EOF |}, {| sent := []; credit := None |});
      ({| incoming := [N3]; ending := io_EOF |}, {| sent := []; credit := None |}) ] in
  let schedule := [0; 1; 1; 0; 1; 1; 1; 1; 0; 0; 0; 0; 0; 1; 1; 0; 0]%nat in
  let sys := fst (Concurrent.run (Concurrent.start ∅ streams) [] schedule) in
  let events := snd (Concurrent.run (Concurrent.start ∅ streams) [] schedule) in
  notes_at (Concurrent.registry sys) "0 1" =
  notes_at ∅ "0 1" ++ Concurrent.appended_at "0 1" events.
Proof.
  cbv zeta.
  refine (proj1 (RouteChat_appends_linearized_snapshots_private ∅
    [ ({| incoming := [ {| NoteLocation := {| Latitude := 0; Longitude := 1 |};
                           Message := "I was here!" |} ]; ending := io_EOF |},
       {| sent := []; credit := None |});
      ({| incoming := [ {| NoteLocation := {| Latitude := 0; Longitude := 1 |};
                           Message := "Me too." |} ]; ending := io_EOF |},
       {| sent := []; credit := None |}) ]
    [0; 1; 1; 0; 1; 1; 1; 1; 0; 0; 0; 0; 0; 1; 1; 0; 0]%nat) "0 1").
Defined.

(** * Further properties of the handlers *)

(** ** Containment *)

(** X1: both corners of a rectangle lie inside it, whichever way round
    they are given, and a rectangle whose corners coincide contains that
    one point only. *)
Theorem inRange_corners_and_degenerate (rect : Rectangle) (p q : Point) :
  rect_ok rect -> point_ok p -> point_ok q ->
  inRange (Lo rect) rect = true /\ inRange (Hi rect) rect = true /\
  (inRange p {| Lo := q; Hi := q |} = true <-> p = q).
Proof.
  intros Hr Hp Hq. pose proof Hr as [Hlo Hhi].
  assert (Hqq : rect_ok {| Lo := q; Hi := q |}) by (split; assumption).
  rewrite !inRange_is_inRange_int by assumption.
  unfold inRange_int; cbn [Lo Hi].
  split; [|split].
  - rewrite !andb_true_iff, !Z.leb_le. lia.
  - rewrite !andb_true_iff, !Z.leb_le. lia.
  - rewrite !Z.min_id, !Z.max_id, !andb_true_iff, !Z.leb_le. split.
    + intros (((H1 & H2) & H3) & H4). destruct p, q; cbn in *. f_equal; lia.
    + intros ->. lia.
Qed.

Lemma inRange_corners_and_degenerate_witness :
  let rect := {| Lo := {| Latitude := 420000000; Longitude := -750000000 |};
                 Hi := {| Latitude := 400000000; Longitude := -730000000 |} |} in
  let p := {| Latitude := 0; Longitude := 1 |} in
  inRange (Lo rect) rect = true /\ inRange (Hi rect) rect = true /\
  (inRange p {| Lo := p; Hi := p |} = true <-> p = p).
Proof.
  cbv zeta. apply inRange_corners_and_degenerate; repeat split; vm_compute; discriminate.
Defined.

(** X2: a point inside a rectangle is inside every rectangle that spans
    it: enlarging the longitude and latitude ranges never loses a point. *)
Theorem inRange_monotone (inner outer : Rectangle) (p : Point) :
  rect_ok inner -> rect_ok outer -> point_ok p ->
  Z.min (Longitude (Lo outer)) (Longitude (Hi outer))
    <= Z.min (Longitude (Lo inner)) (Longitude (Hi inner)) ->
  Z.max (Longitude (Lo inner)) (Longitude (Hi inner))
    <= Z.max (Longitude (Lo outer)) (Longitude (Hi outer)) ->
  Z.min (Latitude (Lo outer)) (Latitude (Hi outer))
    <= Z.min (Latitude (Lo inner)) (Latitude (Hi inner)) ->
  Z.max (Latitude (Lo inner)) (Latitude (Hi inner))
    <= Z.max (Latitude (Lo outer)) (Latitude (Hi outer)) ->
  inRange p inner = true -> inRange p outer = true.
Proof.
  intros Hi Ho Hp H1 H2 H3 H4.
  rewrite !inRange_is_inRange_int by assumption. unfold inRange_int.
  rewrite !andb_true_iff, !Z.leb_le. lia.
Qed.

Lemma inRange_monotone_witness :
  inRange {| Latitude := 409146138; Longitude := -746188906 |}
          {| Lo := {| Latitude := 400000000; Longitude := -750000000 |};
             Hi := {| Latitude := 430000000; Longitude := -700000000 |} |} = true.
Proof.
  apply (inRange_monotone
           {| Lo := {| Latitude := 400000000; Longitude := -750000000 |};
              Hi := {| Latitude := 420000000; Longitude := -730000000 |} |});
    first [ vm_compute; reflexivity | repeat split; vm_compute; discriminate ].
Defined.

(** ** GetFeature and ListFeatures *)

(** X3: the feature GetFeature returns is always located at the requested
    point, whether it was found in the store or made up; its name is
    empty when the store has no feature there, and with an empty store
    the answer is always the unnamed feature. *)
Theorem GetFeature_located_at_request (s : server) (point : Point) :
  Location (fst (GetFeature s point)) = point /\
  (Forall (fun g => Location g <> point) (knownFeatures s) ->
   Name (fst (GetFeature s point)) = EmptyString) /\
  (knownFeatures s = [] ->
   GetFeature s point = ({| Name := EmptyString; Location := point |}, None)).
Proof.
  unfold GetFeature.
  destruct (GetFeature_scan (knownFeatures s) point) as [f|] eqn:E; cbn.
  - destruct (GetFeature_scan_Some _ _ _ E) as (before & after & Hs & Hloc & _).
    split; [assumption|]. split.
    + intros Hall. rewrite Hs in Hall. apply Forall_app in Hall as [_ Hall].
      inversion Hall; subst. contradiction.
    + intros Hnil. rewrite Hnil in E. discriminate.
  - auto.
Qed.

Lemma ListFeatures_scan_general (features : list Feature) (rect : Rectangle)
    (stream : SendStream Feature) :
  let found := List.filter (fun f => inRange (Location f) rect) features in
  ListFeatures_scan features rect stream =
  match credit stream with
  | None => (debit stream found, None)
  | Some c =>
      if (length found <=? c)%nat then (debit stream found, None)
      else (debit stream (firstn c found), Some transport_error)
  end.
Proof.
  cbv zeta. revert stream. induction features as [|f rest IH]; intros stream.
  - cbn. rewrite debit_nil. destruct (credit stream); reflexivity.
  - cbn [ListFeatures_scan List.filter].
    destruct (inRange (Location f) rect); [|apply IH].
    destruct stream as [out [[|c]|]]; unfold Send; cbn [credit sent].
    + cbn. now rewrite debit_nil.
    + rewrite IH. cbn [credit length firstn].
      change (S (length (List.filter (fun f0 => inRange (Location f0) rect) rest)) <=? S c)%nat
        with (length (List.filter (fun f0 => inRange (Location f0) rect) rest) <=? c)%nat.
      destruct (_ <=? c)%nat;
        unfold debit; cbn; rewrite <- app_assoc; cbn; repeat f_equal.
    + rewrite IH. cbn [credit]. unfold debit; cbn. now rewrite <- app_assoc.
Qed.

(** X4: when the transport fails, ListFeatures stops at the failing Send:
    if the transport accepts only [c] messages and more than [c] features
    match, exactly the first [c] matching features (in store order) have
    been sent and the call returns the transport's error. *)
Theorem ListFeatures_aborts_at_failed_send (s : server) (rect : Rectangle)
    (out : list Feature) (c : nat) :
  (c < length (features_in s rect))%nat ->
  ListFeatures s rect {| sent := out; credit := Some c |} =
  ({| sent := out ++ firstn c (features_in s rect); credit := Some 0%nat |},
   Some transport_error).
Proof.
  intros Hc. unfold ListFeatures, features_in in *.
  rewrite ListFeatures_scan_general. cbn [credit].
  destruct (Nat.leb_spec (length (List.filter (fun f => inRange (Location f) rect)
                                               (knownFeatures s))) c) as [Hle|_]; [lia|].
  unfold debit; cbn. rewrite length_firstn. do 3 f_equal. lia.
Qed.

Lemma ListFeatures_aborts_at_failed_send_witness :
  let A := {| Name := "A"; Location := {| Latitude := 409146138; Longitude := -746188906 |} |} in
  let B := {| Name := "B"; Location := {| Latitude := 413628156; Longitude := -749015468 |} |} in
  let rect := {| Lo := {| Latitude := 400000000; Longitude := -750000000 |};
                 Hi := {| Latitude := 420000000; Longitude := -730000000 |} |} in
  let s := {| knownFeatures := [A; B]; routeNotes := ∅ |} in
  ListFeatures s rect {| sent := []; credit := Some 1%nat |} =
  ({| sent := [] ++ firstn 1 (features_in s rect); credit := Some 0%nat |},
   Some transport_error).
Proof.
  cbv zeta. apply ListFeatures_aborts_at_failed_send. vm_compute. lia.
Defined.

Lemma inRange_swap_corners (rect : Rectangle) (p : Point) :
  point_ok p -> rect_ok rect -> inRange p (swap_corners rect) = inRange p rect.
Proof.
  intros Hp Hr.
  assert (Hs : rect_ok (swap_corners rect)) by (destruct Hr; split; assumption).
  rewrite !inRange_is_inRange_int by assumption.
  unfold inRange_int, swap_corners; cbn [Lo Hi].
  now rewrite (Z.min_comm (Longitude (Hi rect))), (Z.max_comm (Longitude (Hi rect))),
    (Z.min_comm (Latitude (Hi rect))), (Z.max_comm (Latitude (Hi rect))).
Qed.

(** X5: the order in which the two corners of the rectangle are given
    does not change what ListFeatures does: same messages, same result. *)
Theorem ListFeatures_corner_order_irrelevant (s : server) (rect : Rectangle)
    (stream : SendStream Feature) :
  rect_ok rect -> Forall (fun f => point_ok (Location f)) (knownFeatures s) ->
  ListFeatures s (swap_corners rect) stream = ListFeatures s rect stream.
Proof.
  intros Hr Hall. unfold ListFeatures. rewrite !ListFeatures_scan_general. cbv zeta.
  assert (E : List.filter (fun f => inRange (Location f) (swap_corners rect)) (knownFeatures s)
            = List.filter (fun f => inRange (Location f) rect) (knownFeatures s)).
  { induction Hall as [|f l Hf _ IH]; [reflexivity|]. cbn.
    now rewrite IH, inRange_swap_corners. }
  now rewrite E.
Qed.

Lemma ListFeatures_corner_order_irrelevant_witness :
  let A := {| Name := "A"; Location := {| Latitude := 409146138; Longitude := -746188906 |} |} in
  let rect := {| Lo := {| Latitude := 400000000; Longitude := -750000000 |};
                 Hi := {| Latitude := 420000000; Longitude := -730000000 |} |} in
  let s := {| knownFeatures := [A]; routeNotes := ∅ |} in
  ListFeatures s (swap_corners rect) {| sent := []; credit := Some 0%nat |} =
  ListFeatures s rect {| sent := []; credit := Some 0%nat |}.
Proof.
  cbv zeta. apply ListFeatures_corner_order_irrelevant.
  - repeat split; vm_compute; discriminate.
  - repeat constructor; vm_compute; discriminate.
Defined.

Lemma inRange_degenerate (p q : Point) :
  point_ok p -> point_ok q -> inRange p {| Lo := q; Hi := q |} = proto_Equal p q.
Proof.
  intros Hp Hq.
  rewrite inRange_is_inRange_int by (assumption || (split; assumption)).
  unfold inRange_int, proto_Equal; cbn [Lo Hi]. rewrite !Z.min_id, !Z.max_id.
  apply eq_true_iff_eq. rewrite !andb_true_iff, !Z.leb_le, !Z.eqb_eq. lia.
Qed.

Lemma GetFeature_scan_head (features : list Feature) (point : Point) :
  GetFeature_scan features point =
  head (List.filter (fun f => proto_Equal (Location f) point) features).
Proof.
  induction features as [|f rest IH]; [reflexivity|]. cbn.
  now destruct (proto_Equal (Location f) point).
Qed.

(** X6: GetFeature and ListFeatures agree: asked for the rectangle whose
    two corners are the point [p], ListFeatures sends exactly the stored
    features located at [p], in store order, and GetFeature answers with
    the first of them (or with the unnamed feature when there is none). *)
Theorem ListFeatures_at_point_agrees_with_GetFeature (s : server) (p : Point)
    (stream : SendStream Feature) :
  let here := List.filter (fun f => proto_Equal (Location f) p) (knownFeatures s) in
  point_ok p -> Forall (fun f => point_ok (Location f)) (knownFeatures s) ->
  accepts stream (length here) ->
  ListFeatures s {| Lo := p; Hi := p |} stream = (debit stream here, None) /\
  fst (GetFeature s p) = hd {| Name := EmptyString; Location := p |} here.
Proof.
  intros here Hp Hall Hacc.
  assert (E : List.filter (fun f => inRange (Location f) {| Lo := p; Hi := p |})
                (knownFeatures s) = here).
  { unfold here. clear Hacc here. induction Hall as [|f l Hf _ IH]; [reflexivity|].
    cbn. now rewrite IH, inRange_degenerate. }
  split.
  - unfold ListFeatures. rewrite ListFeatures_scan_accepted; rewrite E; [reflexivity | assumption].
  - unfold GetFeature. rewrite GetFeature_scan_head. fold here.
    now destruct here.
Qed.

Lemma ListFeatures_at_point_agrees_with_GetFeature_witness :
  let p := {| Latitude := 409146138; Longitude := -746188906 |} in
  let s := {| knownFeatures := [ {| Name := "B"; Location := {| Latitude := 0; Longitude := 0 |} |};
                                 {| Name := "A"; Location := p |};
                                 {| Name := "A2"; Location := p |} ];
              routeNotes := ∅ |} in
  let stream := {| sent := []; credit := None |} in
  let here := List.filter (fun f => proto_Equal (Location f) p) (knownFeatures s) in
  ListFeatures s {| Lo := p; Hi := p |} stream = (debit stream here, None) /\
  fst (GetFeature s p) = hd {| Name := EmptyString; Location := p |} here.
Proof.
  cbv zeta. apply ListFeatures_at_point_agrees_with_GetFeature.
  - repeat split; vm_compute; discriminate.
  - repeat constructor; vm_compute; discriminate.
  - exact I.
Defined.

(** ** calcDistance and toRadians *)

Lemma int32_of_float64_in_range {M : GoMath} (f : float64) :
  Int32.in_range (int32_of_float64 f).
Proof.
  unfold int32_of_float64. destruct (F64.trunc f) as [z|]; [|apply wrap_in_range].
  destruct (_ && _) eqn:E; [|apply wrap_in_range].
  apply andb_true_iff in E as [H1 H2]. apply Z.leb_le in H1, H2. split; assumption.
Qed.

(** X7: a leg is never negative unless a NaN is involved: when neither
    square root of calcDistance is taken of a negative number or NaN
    (the haversine term [a] is a number with 0 <= a and 0 <= 1 - a) and
    math.Atan2 returns an angle between 0 and pi on the upper half plane,
    the conversion to int32 does not overflow and the distance is
    between 0 and 2^29. *)
Theorem calcDistance_nonnegative {M : GoMath} (range : GoMathRange M) (p1 p2 : Point) :
  radicands_ok p1 p2 -> 0 <= calcDistance p1 p2 < 2 ^ 29.
Proof.
  intros Hleg. destruct (leg_float_range range p1 p2 Hleg) as (distance & -> & Hpos & Hmag).
  apply int32_of_float64_nonneg; [assumption | assumption | lia].
Qed.

Lemma calcDistance_nonnegative_witness :
  0 <= calcDistance (M := clamped_angle_math)
         {| Latitude := 409146138; Longitude := -746188906 |}
         {| Latitude := 413628156; Longitude := -749015468 |} < 2 ^ 29.
Proof.
  apply (calcDistance_nonnegative clamped_angle_math_range).
  vm_compute. repeat split; reflexivity.
Defined.

(** X8: toRadians is an odd function, exactly (rounding included), and
    every int32 coordinate divided by 1e7 converts to a finite number of
    radians of magnitude below 128: the conversion never produces an
    infinity or a NaN. *)
Theorem toRadians_odd_and_finite (x : float64) (z : Z) :
  Int32.in_range z ->
  toRadians (F64.neg x) = F64.neg (toRadians x) /\
  F64.magnitude_le (toRadians (F64.div (F64.of_Z z) CordFactor)) 7.
Proof.
  intros Hz. split.
  - unfold toRadians. now rewrite mul_neg_l, div_neg_l.
  - unfold toRadians.
    change (F64.of_Z 180) with (S754_finite false 6333186975989760 (-45)).
    change CordFactor with (S754_finite false 5368709120000000 (-29)).
    eapply magnitude_le_weaken; [apply (div_magnitude _ _ _ _ 13) | cbn; lia]; [|cbn; lia].
    apply (mul_magnitude _ _ 10 2); [| cbn; lia | lia].
    eapply magnitude_le_weaken; [apply (div_magnitude _ _ _ _ 32) | cbn; lia]; [|cbn; lia].
    now apply of_Z_magnitude.
Qed.

Lemma toRadians_odd_and_finite_witness :
  toRadians (F64.neg (F64.of_Z 180)) = F64.neg (toRadians (F64.of_Z 180)) /\
  F64.magnitude_le (toRadians (F64.div (F64.of_Z (-746188906)) CordFactor)) 7.
Proof.
  apply toRadians_odd_and_finite. split; vm_compute; discriminate.
Defined.

(** ** RecordRoute: errors, small routes, composition *)

Lemma RecordRoute_loop_failed {M : GoMath} (s : server) (points : list Point)
    (n m d : Z) (last : option Point) (elapsed : Z) (close : option error) :
  RecordRoute_loop s points transport_error n m d last elapsed close =
  {| response := None; returned := Some transport_error |}.
Proof.
  revert n m d last. induction points as [|point rest IH]; intros n m d last; cbn.
  - reflexivity.
  - apply IH.
Qed.

(** X9: RecordRoute sends a summary exactly when the stream ends with
    io.EOF; it then returns whatever SendAndClose returned.  When Recv
    fails with another error, after any number of points, nothing is sent
    and that error is returned: the points received so far are dropped. *)
Theorem RecordRoute_result_by_stream_ending {M : GoMath} (s : server)
    (stream : RecvStream Point) (elapsed : Z) (close : option error) :
  returned (RecordRoute s stream elapsed close) =
    match ending stream with
    | io_EOF => close
    | err => Some err
    end /\
  (response (RecordRoute s stream elapsed close) = None <-> ending stream <> io_EOF).
Proof.
  destruct stream as [points []].
  - rewrite RecordRoute_summary. cbn. split; [reflexivity|]. split; [discriminate | congruence].
  - unfold RecordRoute; cbn [incoming ending]. rewrite RecordRoute_loop_failed. cbn.
    split; [reflexivity|]. split; [discriminate | reflexivity].
Qed.

(** A route of one point has distance 0, and a route of two points
    [a], [b] has point count 2 and as distance exactly
    [calcDistance a b]. *)
Theorem RecordRoute_one_and_two_points {M : GoMath} (s : server) (a b : Point)
    (elapsed : Z) (close : option error) :
  (exists summary,
     response (RecordRoute s {| incoming := [a]; ending := io_EOF |} elapsed close)
       = Some summary /\
     PointCount summary = 1 /\ Distance summary = 0) /\
  (exists summary,
     response (RecordRoute s {| incoming := [a; b]; ending := io_EOF |} elapsed close)
       = Some summary /\
     PointCount summary = 2 /\ Distance summary = calcDistance a b).
Proof.
  split; rewrite RecordRoute_summary; eexists; (split; [reflexivity|]); cbn.
  - split; reflexivity.
  - split; [reflexivity|]. rewrite Z.add_0_r. apply wrap_small. unfold calcDistance. apply int32_of_float64_in_range.
Qed.

Lemma route_length_cons2 {M : GoMath} (a b : Point) (l : list Point) :
  route_length (a :: b :: l) = calcDistance a b + route_length (b :: l).
Proof. reflexivity. Qed.

Lemma route_length_split {M : GoMath} (l1 l2 : list Point) (p : Point) :
  route_length (l1 ++ p :: l2) = route_length (l1 ++ [p]) + route_length (p :: l2).
Proof.
  induction l1 as [|a l1 IH].
  - cbn [app]. change (route_length [p]) with 0. lia.
  - destruct l1 as [|b l1].
    + cbn [app]. rewrite !route_length_cons2. change (route_length [p]) with 0. lia.
    + cbn [app] in *. rewrite !route_length_cons2, IH. lia.
Qed.

Lemma total_matches_app (s : server) (l1 l2 : list Point) :
  total_matches s (l1 ++ l2) = total_matches s l1 + total_matches s l2.
Proof. induction l1 as [|a l1 IH]; cbn; lia. Qed.

Lemma wrap_add_wrap_both (a b : Z) :
  Int32.wrap (Int32.wrap a + Int32.wrap b) = Int32.wrap (a + b).
Proof. now rewrite wrap_add_wrap, Z.add_comm, wrap_add_wrap, Z.add_comm. Qed.

(** X12: a route is the sum of its parts: cutting a route at one of its
    points, the distance of the whole route is the int32 sum of the
    distances RecordRoute reports for the part ending at that point and
    for the part starting there. *)
Theorem RecordRoute_distance_of_joined_routes {M : GoMath} (s : server)
    (before after : list Point) (p : Point) (elapsed : Z) (close : option error) :
  exists whole first second,
    response (RecordRoute s {| incoming := before ++ p :: after; ending := io_EOF |}
                elapsed close) = Some whole /\
    response (RecordRoute s {| incoming := before ++ [p]; ending := io_EOF |}
                elapsed close) = Some first /\
    response (RecordRoute s {| incoming := p :: after; ending := io_EOF |}
                elapsed close) = Some second /\
    Distance whole = Int32.add (Distance first) (Distance second) /\
    PointCount whole = Int32.add (PointCount first) (PointCount second - 1).
Proof.
  rewrite !RecordRoute_summary. do 3 eexists. repeat (split; [reflexivity|]).
  cbn [Distance PointCount]. unfold Int32.add. split.
  - now rewrite wrap_add_wrap_both, route_length_split.
  - rewrite wrap_add_wrap. rewrite (Z.add_comm _ (Int32.wrap _ - 1)).
    replace (Int32.wrap (Z.of_nat (length (p :: after))) - 1 + Z.of_nat (length (before ++ [p])))
      with (Int32.wrap (Z.of_nat (length (p :: after))) + (Z.of_nat (length (before ++ [p])) - 1))
      by lia.
    rewrite wrap_add_wrap. f_equal. rewrite !length_app. cbn [length]. lia.
Qed.

Section RouteFacts.

Context {M : GoMath} {L : GoMathLaws M}.

Lemma route_length_stationary (p : Point) (n : nat) :
  point_ok p -> route_length (repeat p n) = 0.
Proof.
  intros Hp. induction n as [|[|n] IH]; try reflexivity.
  change (repeat p (S (S n))) with (p :: p :: repeat p n).
  rewrite route_length_cons2, calcDistance_diag by assumption. exact IH.
Qed.

Lemma route_length_rev (l : list Point) : route_length (rev l) = route_length l.
Proof.
  destruct l as [|a l]; [reflexivity|]. revert a.
  induction l as [|b l IH]; intros a; [reflexivity|].
  change (rev (a :: b :: l)) with ((rev l ++ [b]) ++ [a]).
  rewrite <- app_assoc. cbn [app]. rewrite route_length_split.
  change (rev l ++ [b]) with (rev (b :: l)). rewrite IH, !route_length_cons2.
  change (route_length [a]) with 0. rewrite (calcDistance_comm b a). lia.
Qed.

End RouteFacts.

Lemma total_matches_rev (s : server) (l : list Point) :
  total_matches s (rev l) = total_matches s l.
Proof.
  induction l as [|a l IH]; [reflexivity|].
  cbn [rev]. rewrite total_matches_app. cbn. lia.
Qed.

(** X13: a client that stays at one point (int32 coordinates) travels no
    distance, however many times it reports the point. *)
Theorem RecordRoute_stationary_route {M : GoMath} (L : GoMathLaws M) (s : server)
    (p : Point) (n : nat) (elapsed : Z) (close : option error) :
  point_ok p ->
  exists summary,
    response (RecordRoute s {| incoming := repeat p n; ending := io_EOF |} elapsed close)
      = Some summary /\
    Distance summary = 0.
Proof.
  intros Hp. rewrite RecordRoute_summary. eexists. split; [reflexivity|]. cbn.
  now rewrite route_length_stationary.
Qed.

Lemma RecordRoute_stationary_route_witness :
  exists summary,
    response (RecordRoute (M := small_angle_math) {| knownFeatures := []; routeNotes := ∅ |}
                {| incoming := repeat {| Latitude := 409146138; Longitude := -746188906 |} 5;
                   ending := io_EOF |} 0 None) = Some summary /\
    Distance summary = 0.
Proof.
  apply (RecordRoute_stationary_route small_angle_math_laws).
  repeat split; vm_compute; discriminate.
Defined.

(** X14: travelling a route backwards gives the same summary as
    travelling it forwards: same point count, same feature count and same
    distance. *)
Theorem RecordRoute_reversed_route {M : GoMath} (L : GoMathLaws M) (s : server)
    (points : list Point) (elapsed : Z) (close : option error) :
  RecordRoute s {| incoming := rev points; ending := io_EOF |} elapsed close =
  RecordRoute s {| incoming := points; ending := io_EOF |} elapsed close.
Proof.
  rewrite !RecordRoute_summary.
  now rewrite length_rev, total_matches_rev, route_length_rev.
Qed.

Lemma RecordRoute_reversed_route_witness :
  let A := {| Latitude := 409146138; Longitude := -746188906 |} in
  let B := {| Latitude := 413628156; Longitude := -749015468 |} in
  let O := {| Latitude := 0; Longitude := 0 |} in
  let s := {| knownFeatures := [ {| Name := "A"; Location := A |} ]; routeNotes := ∅ |} in
  RecordRoute (M := small_angle_math) s {| incoming := rev [A; B; O]; ending := io_EOF |} 7 None =
  RecordRoute (M := small_angle_math) s {| incoming := [A; B; O]; ending := io_EOF |} 7 None.
Proof.
  cbv zeta. exact (RecordRoute_reversed_route small_angle_math_laws _ _ _ _).
Defined.

Lemma filter_nil_In {A : Type} (g : A -> bool) (l : list A) :
  (forall x, In x l -> g x = false) -> List.filter g l = [].
Proof.
  induction l as [|x l IH]; intros H; [reflexivity|]. cbn.
  rewrite (H x) by now left. apply IH. intros y Hy. apply H. now right.
Qed.

Lemma total_matches_none (s : server) (points : list Point) :
  (forall p f, In p points -> In f (knownFeatures s) -> Location f <> p) ->
  total_matches s points = 0.
Proof.
  intros H. induction points as [|p rest IH]; [reflexivity|].
  cbn [total_matches]. rewrite IH by (intros; apply H; [now right | assumption]).
  unfold matches_at. rewrite filter_nil_In; [reflexivity|].
  intros f Hf. apply proto_Equal_neq. apply H; [now left | assumption].
Qed.

(** X15: when no point of the route is the location of a known feature
    (in particular when the store is empty), the feature count is 0. *)
Theorem RecordRoute_no_feature_visited {M : GoMath} (s : server) (points : list Point)
    (elapsed : Z) (close : option error) :
  (forall p f, In p points -> In f (knownFeatures s) -> Location f <> p) ->
  exists summary,
    response (RecordRoute s {| incoming := points; ending := io_EOF |} elapsed close)
      = Some summary /\
    FeatureCount summary = 0.
Proof.
  intros H. rewrite RecordRoute_summary. eexists. split; [reflexivity|]. cbn.
  now rewrite total_matches_none.
Qed.

Lemma RecordRoute_no_feature_visited_witness :
  exists summary,
    response (RecordRoute (M := small_angle_math) {| knownFeatures := []; routeNotes := ∅ |}
                {| incoming := [ {| Latitude := 1; Longitude := 2 |} ]; ending := io_EOF |}
                0 None) = Some summary /\
    FeatureCount summary = 0.
Proof.
  apply RecordRoute_no_feature_visited. intros p f _ [].
Defined.

(** ** RouteChat: what is stored, what is sent *)

Lemma send_all_failed {A : Type} (msgs : list A) (stream stream' : SendStream A)
    (err : error) :
  send_all stream msgs = (stream', Some err) ->
  err = transport_error /\ credit stream' = Some 0%nat.
Proof.
  revert stream. induction msgs as [|msg rest IH]; intros stream; cbn; [discriminate|].
  unfold Send. destruct stream as [out [[|c]|]]; cbn [credit sent].
  - intros [= <- <-]. auto.
  - apply IH.
  - apply IH.
Qed.

Lemma notes_at_append_note (notes : gmap string (list RouteNote)) (note : RouteNote)
    (key : string) :
  notes_at (fst (append_note notes note)) key =
  notes_at notes key ++
  List.filter (fun n => bool_decide (location_key (NoteLocation n) = key)) [note].
Proof.
  unfold append_note; cbn [fst List.filter].
  case_bool_decide as E.
  - subst key. now rewrite notes_at_insert.
  - rewrite notes_at_insert_ne by assumption. now rewrite app_nil_r.
Qed.

(** X16: RouteChat never loses or rewrites a stored note.  However the
    call ends, the registry entry of every key is afterwards its former
    content followed by the notes of that key among the notes the call
    received, in the order received.  The call received all inbound notes
    when it returns nil or the error of Recv; when a Send failed it
    received the notes up to the one being answered, and that note is
    stored although its replies were not all sent. *)
Theorem RouteChat_registry_after_call (inbound : list RouteNote)
    (notes : gmap string (list RouteNote)) (closing : error)
    (outbound : SendStream RouteNote) :
  let '(notes', outbound', err) := RouteChat_loop notes inbound closing outbound in
  exists received rest,
    inbound = received ++ rest /\
    (forall key,
       notes_at notes' key =
       notes_at notes key ++
       List.filter (fun n => bool_decide (location_key (NoteLocation n) = key)) received) /\
    ((rest = [] /\ err = match closing with io_EOF => None | e => Some e end) \/
     (received <> [] /\ err = Some transport_error /\ credit outbound' = Some 0%nat)).
Proof.
  revert notes outbound. induction inbound as [|note rest IH]; intros notes outbound.
  - cbn [RouteChat_loop]. destruct closing; exists [], []; cbn;
      (split; [reflexivity|]); (split; [intros; now rewrite app_nil_r|]); left; auto.
  - cbn [RouteChat_loop].
    pose proof (notes_at_append_note notes note) as Hnote.
    destruct (append_note notes note) as [notes1 rn]. cbn [fst] in Hnote.
    destruct (send_all outbound rn) as [out1 [err|]] eqn:Esend.
    + destruct (send_all_failed _ _ _ _ Esend) as [-> Hcredit].
      exists [note], rest. split; [reflexivity|]. split; [exact Hnote|].
      right. split; [discriminate | auto].
    + specialize (IH notes1 out1).
      destruct (RouteChat_loop notes1 rest closing out1) as [[notes' out'] err].
      destruct IH as (received & rest' & Hsplit & Hreg & Hend).
      exists (note :: received), rest'. split; [now rewrite Hsplit|]. split.
      * intros key. rewrite Hreg, Hnote, <- app_assoc. f_equal.
        cbn [List.filter]. now case_bool_decide.
      * destruct Hend as [[-> ->]|(_ & -> & Hc)]; [left; auto | right].
        split; [discriminate | auto].
Qed.

Lemma RouteChat_count_at_location (inbound : list RouteNote) (p : Point)
    (notes : gmap string (list RouteNote)) (out : list RouteNote) :
  Forall (fun n => NoteLocation n = p) inbound ->
  let '(notes', outbound', err) :=
    RouteChat_loop notes inbound io_EOF {| sent := out; credit := None |} in
  err = None /\ credit outbound' = None /\
  notes_at notes' (location_key p) = notes_at notes (location_key p) ++ inbound /\
  2 * Z.of_nat (length (sent outbound')) =
  2 * Z.of_nat (length out) +
  Z.of_nat (length inbound) *
    (2 * Z.of_nat (length (notes_at notes (location_key p))) + Z.of_nat (length inbound) + 1).
Proof.
  intros Hall. revert notes out.
  induction Hall as [|note rest Hnote _ IH]; intros notes out.
  - cbn. rewrite app_nil_r. repeat split; lia.
  - rewrite RouteChat_loop_step by exact I. rewrite Hnote.
    unfold debit; cbn [sent credit option_map].
    specialize (IH (<[location_key p := notes_at notes (location_key p) ++ [note]]> notes)
                   (out ++ notes_at notes (location_key p) ++ [note])).
    destruct (RouteChat_loop _ rest io_EOF _) as [[notes' out'] err].
    destruct IH as (He & Hc & Hreg & Hlen).
    rewrite notes_at_insert in Hreg, Hlen.
    split; [assumption|]. split; [assumption|]. split.
    + rewrite Hreg, <- app_assoc. reflexivity.
    + rewrite Hlen, !length_app. cbn [length]. nia.
Qed.

(** X17: answering grows with the history: when a call sends [n] notes to
    one location whose entry holds [m] notes, and every Send succeeds,
    the call returns nil after sending n*m + n*(n+1)/2 messages (the k-th
    note is answered by m + k messages), and the entry then holds the
    [m] notes followed by the [n] new ones. *)
Theorem RouteChat_messages_for_one_location (s : server) (inbound : list RouteNote)
    (p : Point) (out : list RouteNote) :
  Forall (fun n => NoteLocation n = p) inbound ->
  let n := Z.of_nat (length inbound) in
  let m := Z.of_nat (length (notes_at (routeNotes s) (location_key p))) in
  let '(s', outbound', err) :=
    RouteChat s {| incoming := inbound; ending := io_EOF |} {| sent := out; credit := None |} in
  err = None /\
  notes_at (routeNotes s') (location_key p) =
    notes_at (routeNotes s) (location_key p) ++ inbound /\
  Z.of_nat (length (sent outbound')) = Z.of_nat (length out) + n * m + n * (n + 1) / 2.
Proof.
  intros Hall n m. unfold RouteChat; cbn [incoming ending].
  pose proof (RouteChat_count_at_location inbound p (routeNotes s) out Hall) as H.
  destruct (RouteChat_loop _ inbound io_EOF _) as [[notes' out'] err].
  destruct H as (He & _ & Hreg & Hlen). cbn [routeNotes].
  split; [assumption|]. split; [assumption|].
  fold n m in Hlen.
  assert (Heven : n * (n + 1) = 2 * (n * (n + 1) / 2)).
  { apply Z_div_exact_2; [lia|].
    replace (n * (n + 1)) with (n * n + n) by lia.
    rewrite Z.add_mod, Z.mul_mod by lia.
    destruct (Z.mod_pos_bound n 2 ltac:(lia)) as [? ?].
    assert (n mod 2 = 0 \/ n mod 2 = 1) as [-> | ->] by lia; reflexivity. }
  lia.
Qed.

Lemma RouteChat_messages_for_one_location_witness :
  let p := {| Latitude := 0; Longitude := 1 |} in
  let N1 := {| NoteLocation := p; Message := "I was here!" |} in
  let N2 := {| NoteLocation := p; Message := "Ummm..." |} in
  let N3 := {| NoteLocation := p; Message := "Me too." |} in
  let s := {| knownFeatures := []; routeNotes := {[ "0 1" := [N1] ]} |} in
  let '(s', outbound', err) :=
    RouteChat s {| incoming := [N2; N3]; ending := io_EOF |} {| sent := []; credit := None |} in
  err = None /\
  notes_at (routeNotes s') (location_key p) = notes_at (routeNotes s) (location_key p) ++ [N2; N3] /\
  Z.of_nat (length (sent outbound')) =
  Z.of_nat (length (@nil RouteNote)) +
  Z.of_nat (length [N2; N3]) * Z.of_nat (length (notes_at (routeNotes s) (location_key p))) +
  Z.of_nat (length [N2; N3]) * (Z.of_nat (length [N2; N3]) + 1) / 2.
Proof.
  cbv zeta.
  refine (RouteChat_messages_for_one_location
            {| knownFeatures := [];
               routeNotes := {[ "0 1" := [ {| NoteLocation := {| Latitude := 0; Longitude := 1 |};
                                              Message := "I was here!" |} ] ]} |}
            [ {| NoteLocation := {| Latitude := 0; Longitude := 1 |}; Message := "Ummm..." |};
              {| NoteLocation := {| Latitude := 0; Longitude := 1 |}; Message := "Me too." |} ]
            {| Latitude := 0; Longitude := 1 |} [] _).
  repeat constructor.
Defined.

Lemma send_all_sent {A : Type} (msgs : list A) (stream : SendStream A) :
  exists k, sent (fst (send_all stream msgs)) = sent stream ++ firstn k msgs.
Proof.
  revert stream. induction msgs as [|msg rest IH]; intros stream; cbn.
  - exists 0%nat. now rewrite app_nil_r.
  - unfold Send. destruct stream as [out [[|c]|]]; cbn [credit sent].
    + exists 0%nat. cbn. now rewrite app_nil_r.
    + destruct (IH {| sent := out ++ [msg]; credit := Some c |}) as [k Hk].
      destruct (send_all _ rest) as [out' e]. destruct e; cbn in *;
        exists (S k); rewrite Hk, <- app_assoc; reflexivity.
    + destruct (IH {| sent := out ++ [msg]; credit := None |}) as [k Hk].
      destruct (send_all _ rest) as [out' e]. destruct e; cbn in *;
        exists (S k); rewrite Hk, <- app_assoc; reflexivity.
Qed.

Lemma In_firstn {A : Type} (x : A) (k : nat) (l : list A) :
  In x (firstn k l) -> In x l.
Proof.
  revert l. induction k as [|k IH]; intros [|y l]; cbn; try tauto.
  intros [->|H]; [now left | right; now apply IH].
Qed.

Lemma well_keyed_empty : well_keyed ∅.
Proof. intros key entry note H. now rewrite lookup_empty in H. Qed.

Lemma notes_at_well_keyed (notes : gmap string (list RouteNote)) (key : string)
    (note : RouteNote) :
  well_keyed notes -> In note (notes_at notes key) ->
  location_key (NoteLocation note) = key.
Proof.
  intros Hw. unfold notes_at. destruct (notes !! key) as [entry|] eqn:E; cbn.
  - apply (Hw key entry note E).
  - intros [].
Qed.

Lemma append_note_well_keyed (notes : gmap string (list RouteNote)) (note : RouteNote) :
  well_keyed notes ->
  well_keyed (fst (append_note notes note)) /\
  Forall (fun r => NoteLocation r = NoteLocation note) (snd (append_note notes note)).
Proof.
  intros Hw. unfold append_note; cbn [fst snd]. rewrite notes_at_insert.
  set (key := location_key (NoteLocation note)).
  assert (Hentry : forall r, In r (notes_at notes key ++ [note]) ->
            location_key (NoteLocation r) = key).
  { intros r Hr. apply in_app_or in Hr as [Hr|[<-|[]]]; [|reflexivity].
    now apply (notes_at_well_keyed notes). }
  split.
  - intros key' entry r Hlook Hr.
    destruct (decide (key = key')) as [<-|Hne].
    + rewrite lookup_insert_eq in Hlook. injection Hlook as <-. now apply Hentry.
    + rewrite lookup_insert_ne in Hlook by assumption. now apply (Hw key' entry).
  - apply List.Forall_forall. intros r Hr. apply location_key_inj. now apply Hentry.
Qed.

(** X18: in a registry where every note is filed under its own location
    (the empty registry of a new server is one), RouteChat keeps it so,
    the snapshot taken for a note holds only notes left at exactly that
    note's coordinates, and every message the call sends is located where
    one of the inbound notes is. *)
Theorem RouteChat_replies_share_location (inbound : list RouteNote)
    (notes : gmap string (list RouteNote)) (closing : error)
    (outbound : SendStream RouteNote) (note : RouteNote) :
  well_keyed notes ->
  Forall (fun r => NoteLocation r = NoteLocation note) (snd (append_note notes note)) /\
  let '(notes', outbound', err) := RouteChat_loop notes inbound closing outbound in
  well_keyed notes' /\
  exists replies,
    sent outbound' = sent outbound ++ replies /\
    Forall (fun r => exists n, In n inbound /\ NoteLocation r = NoteLocation n) replies.
Proof.
  intros Hw. split; [now apply append_note_well_keyed|]. clear note.
  revert notes outbound Hw. induction inbound as [|note rest IH]; intros notes outbound Hw.
  - cbn [RouteChat_loop]. destruct closing; (split; [assumption|]);
      exists []; (split; [now rewrite app_nil_r | constructor]).
  - cbn [RouteChat_loop].
    destruct (append_note_well_keyed notes note Hw) as [Hw1 Hrn].
    destruct (append_note notes note) as [notes1 rn]. cbn [fst snd] in Hw1, Hrn.
    destruct (send_all_sent rn outbound) as [k Hk].
    assert (Hfirst : Forall (fun r => exists n, In n (note :: rest) /\
                                       NoteLocation r = NoteLocation n) (firstn k rn)).
    { apply List.Forall_forall. intros r Hr. exists note. split; [now left|].
      apply In_firstn in Hr. rewrite List.Forall_forall in Hrn. now apply Hrn. }
    destruct (send_all outbound rn) as [out1 [err|]]; cbn [fst] in Hk.
    + split; [assumption|]. exists (firstn k rn). auto.
    + specialize (IH notes1 out1 Hw1).
      destruct (RouteChat_loop notes1 rest closing out1) as [[notes' out'] err].
      destruct IH as (Hw' & replies & Hsent & Hall).
      split; [assumption|]. exists (firstn k rn ++ replies). split.
      * now rewrite Hsent, Hk, app_assoc.
      * apply Forall_app. split; [assumption|].
        eapply List.Forall_impl; [|exact Hall].
        intros r (n & Hn & Hloc). exists n. split; [now right | assumption].
Qed.

Lemma RouteChat_replies_share_location_witness :
  let N1 := {| NoteLocation := {| Latitude := 0; Longitude := 1 |}; Message := "I was here!" |} in
  let N2 := {| NoteLocation := {| Latitude := 0; Longitude := 2 |}; Message := "I was here too." |} in
  Forall (fun r => NoteLocation r = NoteLocation N2) (snd (append_note ∅ N2)) /\
  let '(notes', outbound', err) :=
    RouteChat_loop ∅ [N1; N2] io_EOF {| sent := []; credit := None |} in
  well_keyed notes' /\
  exists replies,
    sent outbound' = sent {| sent := @nil RouteNote; credit := None |} ++ replies /\
    Forall (fun r => exists n, In n [N1; N2] /\ NoteLocation r = NoteLocation n) replies.
Proof.
  cbv zeta.
  exact (RouteChat_replies_share_location
           [ {| NoteLocation := {| Latitude := 0; Longitude := 1 |}; Message := "I was here!" |};
             {| NoteLocation := {| Latitude := 0; Longitude := 2 |}; Message := "I was here too." |} ]
           ∅ io_EOF {| sent := []; credit := None |}
           {| NoteLocation := {| Latitude := 0; Longitude := 2 |}; Message := "I was here too." |}
           well_keyed_empty).
Defined.

(** ** The demonstration client *)

Lemma counting_rand_laws : RandLaws Z.
Proof. split. intros n g Hn. cbn. apply Z.mod_pos_bound. assumption. Qed.

Section ClientFacts.

Context {G : Type} {rand : Rand G} {laws : RandLaws G}.

Lemma randomPoint_coordinates (r : G) :
  exists a b,
    -90 <= a <= 89 /\ -180 <= b <= 179 /\
    Latitude (fst (randomPoint r)) = a * 10000000 /\
    Longitude (fst (randomPoint r)) = b * 10000000.
Proof.
  unfold randomPoint.
  pose proof (Int31n_range 180 r ltac:(lia)) as Ha.
  destruct (Int31n 180 r) as [a r1]. cbn [fst] in Ha.
  pose proof (Int31n_range 360 r1 ltac:(lia)) as Hb.
  destruct (Int31n 360 r1) as [b r2]. cbn [fst] in Hb.
  exists (a - 90), (b - 180). cbn [fst Latitude Longitude].
  unfold int32_mul, int32_sub.
  rewrite !(wrap_small (_ - _)) by (unfold Int32.in_range, Int32.min_signed, Int32.max_signed; lia).
  rewrite !wrap_small by (unfold Int32.in_range, Int32.min_signed, Int32.max_signed; lia).
  repeat split; lia.
Qed.

Lemma randomPoint_ok (r : G) : point_ok (fst (randomPoint r)).
Proof.
  destruct (randomPoint_coordinates r) as (a & b & Ha & Hb & Hlat & Hlng).
  unfold point_ok. rewrite Hlat, Hlng.
  unfold Int32.in_range, Int32.min_signed, Int32.max_signed. lia.
Qed.

Lemma random_points_spec (n : nat) (r : G) :
  length (fst (random_points n r)) = n /\ Forall point_ok (fst (random_points n r)).
Proof.
  revert r. induction n as [|n IH]; intros r; cbn [random_points].
  - split; [reflexivity | constructor].
  - pose proof (randomPoint_ok r) as Hp.
    destruct (randomPoint r) as [p r1]. cbn [fst] in Hp.
    specialize (IH r1). destruct (random_points n r1) as [ps r2]. cbn [fst] in *.
    destruct IH as [Hlen Hall]. split; [cbn; now rewrite Hlen | now constructor].
Qed.

Lemma runRecordRoute_points_spec (r : G) :
  (2 <= length (runRecordRoute_points r) <= 101)%nat /\
  head (runRecordRoute_points r) = Some featured_point /\
  Forall point_ok (runRecordRoute_points r).
Proof.
  unfold runRecordRoute_points.
  pose proof (Int31n_range 100 r ltac:(lia)) as Hk.
  destruct (Int31n 100 r) as [k r1]. cbn [fst] in Hk.
  destruct (random_points_spec (Z.to_nat (k + 2 - 1)) r1) as [Hlen Hall].
  cbn [length head]. rewrite Hlen. split; [lia|]. split; [reflexivity|].
  constructor; [|assumption].
  split; vm_compute; split; discriminate.
Qed.

End ClientFacts.

(** X20: randomPoint never overflows: whatever the generator draws, the
    point has a latitude of a whole number of degrees from -90 to 89 and a
    longitude of a whole number of degrees from -180 to 179, both in units
    of 1e-7 degree, which fit in an int32. *)
Theorem randomPoint_whole_degrees_in_range {G : Type} {rand : Rand G} (laws : RandLaws G)
    (r : G) :
  point_ok (fst (randomPoint r)) /\
  exists a b,
    -90 <= a <= 89 /\ -180 <= b <= 179 /\
    Latitude (fst (randomPoint r)) = a * 10000000 /\
    Longitude (fst (randomPoint r)) = b * 10000000.
Proof. split; [apply randomPoint_ok | apply randomPoint_coordinates]. Qed.

Lemma randomPoint_whole_degrees_in_range_witness :
  point_ok (fst (randomPoint (rand := counting_rand) 1234)) /\
  exists a b,
    -90 <= a <= 89 /\ -180 <= b <= 179 /\
    Latitude (fst (randomPoint (rand := counting_rand) 1234)) = a * 10000000 /\
    Longitude (fst (randomPoint (rand := counting_rand) 1234)) = b * 10000000.
Proof. exact (randomPoint_whole_degrees_in_range counting_rand_laws 1234). Defined.

Lemma matches_at_le (s : server) (p : Point) :
  0 <= matches_at s p <= Z.of_nat (length (knownFeatures s)).
Proof.
  unfold matches_at. pose proof (List.filter_length_le
    (fun feature => proto_Equal (Location feature) p) (knownFeatures s)). lia.
Qed.

Lemma total_matches_le (s : server) (points : list Point) :
  total_matches s points <= Z.of_nat (length points) * Z.of_nat (length (knownFeatures s)).
Proof.
  induction points as [|p rest IH]; [cbn; lia|].
  cbn [total_matches length]. pose proof (matches_at_le s p). lia.
Qed.

Lemma lags_nonneg (p : pace) (i n : nat) : 0 <= lags p i n.
Proof. revert i. induction n as [|n IH]; intros i; cbn [lags]; [lia|]. specialize (IH (S i)). lia. Qed.

(** The sending loop ends at the time the iterations add up to, unless
    the context expired before one of the Sends. *)
Lemma send_points_Some (points : list Point) (i : nat) (p : pace) (now t : Z) :
  send_points points i p now = Some t ->
  t = now + lags p i (length points) + Z.of_nat (length points) * nap.
Proof.
  revert i now. induction points as [|point rest IH]; intros i now; cbn [send_points length lags].
  - intros [= <-]. lia.
  - destruct (deadline <=? now); [discriminate|]. intros H. apply IH in H. lia.
Qed.

Lemma send_points_in_time (points : list Point) (i : nat) (p : pace) (now : Z) :
  now + lags p i (length points) + Z.of_nat (length points) * nap < deadline ->
  send_points points i p now =
  Some (now + lags p i (length points) + Z.of_nat (length points) * nap).
Proof.
  revert i now. induction points as [|point rest IH]; intros i now; cbn [send_points length lags].
  - intros _. f_equal. lia.
  - intros H. pose proof (lags_nonneg p (S i) (length rest)).
    assert (0 < nap) by reflexivity.
    destruct (Z.leb_spec deadline now); [lia|].
    rewrite IH by lia. f_equal. lia.
Qed.

Lemma runRecordRoute_outcome {G : Type} {rand : Rand G} {M : GoMath} (s : server) (r : G)
    (p : pace) (elapsed : Z) :
  runRecordRoute s r p elapsed =
  if deadline <=? run_time p (length (runRecordRoute_points r)) then None
  else response (RecordRoute s {| incoming := runRecordRoute_points r; ending := io_EOF |}
                   elapsed None).
Proof.
  unfold runRecordRoute, run_time. cbv zeta. rewrite RecordRoute_summary.
  cbn [response].
  set (points := runRecordRoute_points r).
  pose proof (lags_nonneg p 0 (length points)) as Hl.
  assert (Hnap : 0 < nap) by reflexivity.
  destruct (Z.leb_spec deadline (Z.of_N (dial p))) as [Hdial|Hdial].
  { destruct (Z.leb_spec deadline
      (Z.of_N (dial p) + lags p 0 (length points) + Z.of_nat (length points) * nap
       + Z.of_N (reply p))); [reflexivity|]. nia. }
  destruct (send_points points 0 p (Z.of_N (dial p))) as [t|] eqn:Hsend.
  - apply send_points_Some in Hsend. subst t. reflexivity.
  - destruct (Z.leb_spec deadline
      (Z.of_N (dial p) + lags p 0 (length points) + Z.of_nat (length points) * nap
       + Z.of_N (reply p))); [reflexivity|].
    rewrite send_points_in_time in Hsend by lia. discriminate.
Qed.

(** X21: runRecordRoute sends between 2 and 101 points, all with int32
    coordinates, the first one the fixed featured point, sleeping 100 ms
    after each under a deadline of 10 s.  The client ends in log.Fatalf
    exactly when the run takes 10 s or more, which it always does for 100
    or 101 points.  A run within the deadline gets a summary whose point
    count is the number of points sent and, for a store of at most
    21,000,000 features, whose feature count is at least the number of
    known features at the featured point. *)
Theorem runRecordRoute_summary {G : Type} {rand : Rand G} (laws : RandLaws G)
    {M : GoMath} (s : server) (r : G) (p : pace) (elapsed : Z) :
  Z.of_nat (length (knownFeatures s)) <= 21000000 ->
  let points := runRecordRoute_points r in
  Forall point_ok points /\ (2 <= length points <= 101)%nat /\
  (runRecordRoute s r p elapsed = None <-> deadline <= run_time p (length points)) /\
  ((100 <= length points)%nat -> runRecordRoute s r p elapsed = None) /\
  (run_time p (length points) < deadline ->
   exists summary,
     runRecordRoute s r p elapsed = Some summary /\
     PointCount summary = Z.of_nat (length points) /\
     matches_at s featured_point <= FeatureCount summary).
Proof.
  intros Hstore points.
  destruct (runRecordRoute_points_spec r) as (Hlen & Hhead & Hall). fold points in Hlen, Hhead, Hall.
  split; [assumption|]. split; [assumption|].
  rewrite runRecordRoute_outcome. fold points. rewrite RecordRoute_summary. cbn [response].
  pose proof (lags_nonneg p 0 (length points)) as Hl.
  split; [|split].
  - destruct (Z.leb_spec deadline (run_time p (length points))); split;
      intros; (reflexivity || discriminate || lia).
  - intros Hmany.
    replace (deadline <=? run_time p (length points)) with true; [reflexivity|].
    symmetry. apply Z.leb_le. unfold run_time.
    assert (100 * nap <= Z.of_nat (length points) * nap)
      by (apply Z.mul_le_mono_nonneg_r; [unfold nap, Duration.Millisecond|]; lia).
    change (100 * nap) with deadline in *. lia.
  - intros Hquick.
    destruct (Z.leb_spec deadline (run_time p (length points))); [lia|].
    eexists. split; [reflexivity|]. cbn [PointCount FeatureCount].
    pose proof (total_matches_le s points) as Hle.
    pose proof (total_matches_nonneg s points) as H0.
    assert (Hfirst : matches_at s featured_point <= total_matches s points).
    { destruct points as [|q rest]; [discriminate|].
      injection Hhead as ->. cbn [total_matches].
      pose proof (total_matches_nonneg s rest). lia. }
    assert (Hbound : Z.of_nat (length points) * Z.of_nat (length (knownFeatures s))
                     <= 101 * 21000000)
      by (apply Z.mul_le_mono_nonneg; lia).
    rewrite !wrap_small
      by (unfold Int32.in_range, Int32.min_signed, Int32.max_signed; lia).
    split; [reflexivity | lia].
Qed.

Lemma runRecordRoute_summary_witness :
  let s := {| knownFeatures := [ {| Name := "Berkshire Valley Management Area Trail";
                                    Location := featured_point |} ];
              routeNotes := ∅ |} in
  let p := {| dial := 1000000%N; lag := fun _ => 2000000%N; reply := 3000000%N |} in
  let points := runRecordRoute_points (rand := counting_rand) 5 in
  Forall point_ok points /\ (2 <= length points <= 101)%nat /\
  (runRecordRoute (rand := counting_rand) (M := small_angle_math) s 5 p 0 = None
     <-> deadline <= run_time p (length points)) /\
  ((100 <= length points)%nat ->
   runRecordRoute (rand := counting_rand) (M := small_angle_math) s 5 p 0 = None) /\
  (run_time p (length points) < deadline ->
   exists summary,
     runRecordRoute (rand := counting_rand) (M := small_angle_math) s 5 p 0 = Some summary /\
     PointCount summary = Z.of_nat (length points) /\
     matches_at s featured_point <= FeatureCount summary).
Proof.
  cbv zeta. apply (runRecordRoute_summary counting_rand_laws). cbn. lia.
Defined.

(** X22: what runRouteChat shows: against any server, the client gets, for
    each of its first three notes, the earlier notes at that location and
    the note itself, and for each of its last three notes the same again
    followed by the new note; on a server with no notes these are nine
    messages, and the last three notes are each answered by the earlier
    note left at the same place and the note itself. *)
Theorem runRouteChat_replies (s : server) :
  let n1 := {| NoteLocation := {| Latitude := 0; Longitude := 1 |}; Message := "I was here!" |} in
  let n2 := {| NoteLocation := {| Latitude := 0; Longitude := 2 |}; Message := "I was here too." |} in
  let n3 := {| NoteLocation := {| Latitude := 0; Longitude := 3 |}; Message := "Here is the exit!" |} in
  let n4 := {| NoteLocation := {| Latitude := 0; Longitude := 1 |}; Message := "Ummm..." |} in
  let n5 := {| NoteLocation := {| Latitude := 0; Longitude := 2 |}; Message := "Is this..." |} in
  let n6 := {| NoteLocation := {| Latitude := 0; Longitude := 3 |};
               Message := "I am stuck in a loop, aren't I?" |} in
  let e1 := notes_at (routeNotes s) "0 1" in
  let e2 := notes_at (routeNotes s) "0 2" in
  let e3 := notes_at (routeNotes s) "0 3" in
  snd (runRouteChat s) =
    (e1 ++ [n1]) ++ (e2 ++ [n2]) ++ (e3 ++ [n3]) ++
    (e1 ++ [n1; n4]) ++ (e2 ++ [n2; n5]) ++ (e3 ++ [n3; n6]) /\
  notes_at (routeNotes (fst (runRouteChat s))) "0 1" = e1 ++ [n1; n4] /\
  notes_at (routeNotes (fst (runRouteChat s))) "0 2" = e2 ++ [n2; n5] /\
  notes_at (routeNotes (fst (runRouteChat s))) "0 3" = e3 ++ [n3; n6] /\
  (routeNotes s = ∅ -> snd (runRouteChat s) = [n1; n2; n3; n1; n4; n2; n5; n3; n6]).
Proof.
  intros n1 n2 n3 n4 n5 n6 e1 e2 e3.
  assert (Hrun : runRouteChat s =
    ({| knownFeatures := knownFeatures s;
        routeNotes := <["0 3" := e3 ++ [n3; n6]]> (<["0 2" := e2 ++ [n2; n5]]>
                      (<["0 1" := e1 ++ [n1; n4]]> (<["0 3" := e3 ++ [n3]]>
                      (<["0 2" := e2 ++ [n2]]> (<["0 1" := e1 ++ [n1]]> (routeNotes s)))))) |},
     (e1 ++ [n1]) ++ (e2 ++ [n2]) ++ (e3 ++ [n3]) ++
     (e1 ++ [n1; n4]) ++ (e2 ++ [n2; n5]) ++ (e3 ++ [n3; n6]))).
  { unfold runRouteChat, RouteChat, runRouteChat_notes. cbn [incoming ending].
    fold n1 n2 n3 n4 n5 n6.
    do 6 (rewrite RouteChat_loop_step by exact I).
    change (location_key (NoteLocation n1)) with "0 1".
    change (location_key (NoteLocation n2)) with "0 2".
    change (location_key (NoteLocation n3)) with "0 3".
    change (location_key (NoteLocation n4)) with "0 1".
    change (location_key (NoteLocation n5)) with "0 2".
    change (location_key (NoteLocation n6)) with "0 3".
    repeat first [ rewrite notes_at_insert | rewrite notes_at_insert_ne by discriminate ].
    fold e1 e2 e3. cbn [RouteChat_loop]. rewrite !debit_debit. unfold debit; cbn [sent app].
    rewrite <- !app_assoc. reflexivity. }
  rewrite Hrun. cbn [fst snd routeNotes].
  repeat first [ rewrite notes_at_insert | rewrite notes_at_insert_ne by discriminate ].
  repeat split.
  intros Hempty. unfold e1, e2, e3, notes_at. rewrite Hempty, !lookup_empty. reflexivity.
Qed.

(** ** Concurrent calls: progress *)

Lemma step_enabled (sys : Concurrent.system) (i : nat) (c : Concurrent.call) :
  Concurrent.calls sys !! i = Some c ->
  (exists err, Concurrent.position_of c = Concurrent.Returned err) \/
  (exists note holder, Concurrent.position_of c = Concurrent.AtLock note /\
                       Concurrent.mu sys = Some holder) \/
  is_Some (Concurrent.step sys i).
Proof.
  intros Hc. unfold Concurrent.step. rewrite Hc.
  destruct (Concurrent.position_of c) as [|note|note|note entry|note|rn|[|note rn]|err].
  - right; right. destruct (Recv (Concurrent.inbound c)) as [[note|[|]] rest];
      eexists; reflexivity.
  - destruct (Concurrent.mu sys) as [holder|].
    + right; left. eauto.
    + right; right. eexists; reflexivity.
  - right; right. eexists; reflexivity.
  - right; right. eexists; reflexivity.
  - right; right. eexists; reflexivity.
  - right; right. eexists; reflexivity.
  - right; right. eexists; reflexivity.
  - right; right. destruct (Send (Concurrent.outbound c) note) as [out [err|]];
      eexists; reflexivity.
  - left. eauto.
Qed.

(** X23: RouteChat never deadlocks: in every state the calls can reach,
    a call that has not returned can either execute its next statement,
    or it waits at Lock for another call, and that call can execute its
    next statement. *)
Theorem RouteChat_calls_never_deadlock
    (notes0 : gmap string (list RouteNote))
    (streams : list (RecvStream RouteNote * SendStream RouteNote))
    (schedule : list nat) (i : nat) (c : Concurrent.call) :
  let sys := fst (Concurrent.run (Concurrent.start notes0 streams) [] schedule) in
  Concurrent.calls sys !! i = Some c ->
  (exists err, Concurrent.position_of c = Concurrent.Returned err) \/
  is_Some (Concurrent.step sys i) \/
  (exists note holder,
     Concurrent.position_of c = Concurrent.AtLock note /\
     Concurrent.mu sys = Some holder /\ holder <> i /\
     is_Some (Concurrent.step sys holder)).
Proof.
  intros sys Hc.
  pose proof (run_invariant notes0 schedule _ _ (invariant_start notes0 streams)) as Inv.
  fold sys in Inv.
  destruct (step_enabled sys i c Hc) as [Hret|[(note & holder & Hp & Hmu)|Hstep]]; auto.
  right; right. exists note, holder.
  destruct (Concurrent.inv_held _ _ _ Inv holder Hmu) as (ch & Hch & Hcrit).
  repeat split; try assumption.
  - intros ->. rewrite Hc in Hch. injection Hch as <-. rewrite Hp in Hcrit. discriminate.
  - destruct (step_enabled sys holder ch Hch) as [[err He]|[(n & h & He & _)|Hstep]];
      [rewrite He in Hcrit; discriminate | rewrite He in Hcrit; discriminate | assumption].
Qed.

Lemma RouteChat_calls_never_deadlock_witness :
  let N1 := {| NoteLocation := {| Latitude := 0; Longitude := 1 |}; Message := "I was here!" |} in
  let N3 := {| NoteLocation := {| Latitude := 0; Longitude := 1 |}; Message := "Me too." |} in
  let streams :=
    [ ({| incoming := [N1]; ending := io_EOF |}, {| sent := []; credit := None |});
      ({| incoming := [N3]; ending := io_EOF |}, {| sent := []; credit := None |}) ] in
  let sys := fst (Concurrent.run (Concurrent.start ∅ streams) [] [0; 0; 1]%nat) in
  let c := {| Concurrent.position_of := Concurrent.AtLock N3;
              Concurrent.inbound := {| incoming := []; ending := io_EOF |};
              Concurrent.outbound := {| sent := []; credit := None |} |} in
  (exists err, Concurrent.position_of c = Concurrent.Returned err) \/
  is_Some (Concurrent.step sys 1) \/
  (exists note holder,
     Concurrent.position_of c = Concurrent.AtLock note /\
     Concurrent.mu sys = Some holder /\ holder <> 1%nat /\
     is_Some (Concurrent.step sys holder)).
Proof.
  cbv zeta.
  refine (RouteChat_calls_never_deadlock ∅
    [ ({| incoming := [ {| NoteLocation := {| Latitude := 0; Longitude := 1 |};
                           Message := "I was here!" |} ]; ending := io_EOF |},
       {| sent := []; credit := None |});
      ({| incoming := [ {| NoteLocation := {| Latitude := 0; Longitude := 1 |};
                           Message := "Me too." |} ]; ending := io_EOF |},
       {| sent := []; credit := None |}) ]
    [0; 0; 1]%nat 1%nat _ _).
  reflexivity.
Defined.

(** X24: the mutex is never left locked: in every reachable state its
    holder is a call between Lock and Unlock, so a call that has returned
    (with or without error) or that is sending does not hold it, and once
    every call has returned the mutex is free. *)
Theorem RouteChat_mutex_released
    (notes0 : gmap string (list RouteNote))
    (streams : list (RecvStream RouteNote * SendStream RouteNote))
    (schedule : list nat) :
  let sys := fst (Concurrent.run (Concurrent.start notes0 streams) [] schedule) in
  (forall i, Concurrent.mu sys = Some i ->
     exists c, Concurrent.calls sys !! i = Some c /\
               Concurrent.in_critical_section (Concurrent.position_of c) = true) /\
  ((forall i c, Concurrent.calls sys !! i = Some c ->
      exists err, Concurrent.position_of c = Concurrent.Returned err) ->
   Concurrent.mu sys = None).
Proof.
  intros sys.
  pose proof (run_invariant notes0 schedule _ _ (invariant_start notes0 streams)) as Inv.
  fold sys in Inv. split.
  - apply (Concurrent.inv_held _ _ _ Inv).
  - intros Hall. destruct (Concurrent.mu sys) as [i|] eqn:Hmu; [|reflexivity].
    destruct (Concurrent.inv_held _ _ _ Inv i Hmu) as (c & Hc & Hcrit).
    destruct (Hall i c Hc) as [err He]. rewrite He in Hcrit. discriminate.
Qed.

(** X25: the interleaving semantics extends the sequential handler: one
    call scheduled alone on the server [s] ends, after finitely many steps,
    with the error, the outbound stream and the registry that the function
    [RouteChat] computes, and with the mutex free. *)
Theorem single_call_computes_RouteChat (s : server) (inbound : RecvStream RouteNote)
    (outbound : SendStream RouteNote) :
  exists n rest,
    fst (Concurrent.run (Concurrent.start (routeNotes s) [(inbound, outbound)]) []
           (repeat 0%nat n)) =
    let '(s', outbound', err) := RouteChat s inbound outbound in
    Concurrent.solo (routeNotes s') None (Concurrent.Returned err) rest outbound'.
Proof.
  destruct inbound as [inb closing].
  destruct (solo_run inb (routeNotes s) closing outbound []) as (n & rest & H).
  exists n, rest. unfold RouteChat; cbn [incoming ending].
  destruct (RouteChat_loop (routeNotes s) inb closing outbound) as [[notes' out'] err].
  exact H.
Qed.

(** ** Concurrent calls: each caller's notes in order *)

Section CallerOrder.

Import Concurrent.

Variable i : nat.
Variable sent_notes : list RouteNote.

Lemma appended_by_app (evs1 evs2 : list event) :
  appended_by i (evs1 ++ evs2) = appended_by i evs1 ++ appended_by i evs2.
Proof.
  induction evs1 as [|[j note| | |] evs1 IH]; cbn; try assumption; [reflexivity|].
  case_decide; cbn; now rewrite IH.
Qed.

Lemma step_event_index (sys sys' : system) (j : nat) (ev : event) :
  step sys j = Some (sys', ev) ->
  match ev with
  | Appended k _ | Copied k _ _ | Sent k _ _ => k = j
  | Silent => True
  end.
Proof.
  intros Hstep. unfold step in Hstep.
  destruct (calls sys !! j) as [c|]; [|discriminate].
  destruct (position_of c) as [|note|note|note entry|note|rn|[|note rn]|err];
    repeat match type of Hstep with
           | context [match ?x with _ => _ end] => destruct x
           end;
    try discriminate; injection Hstep as _ <-; auto.
Qed.

Lemma caller_progress_step (sys sys' : system) (events : list event) (j : nat) (ev : event) :
  caller_progress i sent_notes sys events -> step sys j = Some (sys', ev) ->
  caller_progress i sent_notes sys' (events ++ [ev]).
Proof.
  intros (c & Hc & Hsplit & Hret) Hstep. unfold caller_progress.
  rewrite appended_by_app.
  destruct (decide (j = i)) as [->|Hne].
  - assert (Hi : (i < length (calls sys))%nat) by (eapply lookup_lt_Some; eassumption).
    unfold step in Hstep. rewrite Hc in Hstep. rewrite Hsplit. clear Hsplit.
    destruct (position_of c) as [|note|note|note entry|note|rn|[|note rn]|err] eqn:Hp;
      cbn [pending_note app] in *.
    + destruct (inbound c) as [[|note rest] closing] eqn:Hin; cbn in Hstep.
      * destruct closing; injection Hstep as <- <-; cbn [calls move];
          rewrite list_lookup_insert_eq by assumption; eexists; (split; [reflexivity|]);
          cbn; rewrite Hin; cbn; rewrite !app_nil_r; split; try reflexivity; discriminate.
      * injection Hstep as <- <-. cbn [calls].
        rewrite list_lookup_insert_eq by assumption. eexists. split; [reflexivity|].
        cbn. rewrite app_nil_r. split; [reflexivity | discriminate].
    + destruct (mu sys); [discriminate|]. injection Hstep as <- <-. cbn [calls move].
      rewrite list_lookup_insert_eq by assumption. eexists. split; [reflexivity|].
      cbn. rewrite app_nil_r. split; [reflexivity | discriminate].
    + injection Hstep as <- <-. cbn [calls move].
      rewrite list_lookup_insert_eq by assumption. eexists. split; [reflexivity|].
      cbn. rewrite app_nil_r. split; [reflexivity | discriminate].
    + injection Hstep as <- <-. cbn [calls move].
      rewrite list_lookup_insert_eq by assumption. eexists. split; [reflexivity|].
      cbn. rewrite decide_True by reflexivity. rewrite <- app_assoc.
      split; [reflexivity | discriminate].
    + injection Hstep as <- <-. cbn [calls move].
      rewrite list_lookup_insert_eq by assumption. eexists. split; [reflexivity|].
      cbn. rewrite app_nil_r. split; [reflexivity | discriminate].
    + injection Hstep as <- <-. cbn [calls move].
      rewrite list_lookup_insert_eq by assumption. eexists. split; [reflexivity|].
      cbn. rewrite app_nil_r. split; [reflexivity | discriminate].
    + injection Hstep as <- <-. cbn [calls move].
      rewrite list_lookup_insert_eq by assumption. eexists. split; [reflexivity|].
      cbn. rewrite app_nil_r. split; [reflexivity | discriminate].
    + destruct (Send (outbound c) note) as [out [err|]]; injection Hstep as <- <-;
        cbn [calls move]; rewrite list_lookup_insert_eq by assumption;
        eexists; (split; [reflexivity|]); cbn; rewrite app_nil_r;
        (split; [reflexivity | discriminate]).
    + discriminate.
  - pose proof (step_other_call _ _ _ _ _ Hstep (not_eq_sym Hne)) as Hother.
    pose proof (step_event_index _ _ _ _ Hstep) as Hev.
    exists c. rewrite Hother. split; [assumption|]. split; [|assumption].
    rewrite Hsplit.
    replace (appended_by i [ev]) with (@nil RouteNote); [now rewrite app_nil_r|].
    destruct ev; cbn; try reflexivity. subst. now rewrite decide_False by assumption.
Qed.

Lemma caller_progress_run (schedule : list nat) (sys : system) (events : list event) :
  caller_progress i sent_notes sys events ->
  caller_progress i sent_notes (fst (run sys events schedule)) (snd (run sys events schedule)).
Proof.
  revert sys events. induction schedule as [|j rest IH]; intros sys events H; cbn.
  - assumption.
  - destruct (step sys j) as [[sys' ev]|] eqn:Hstep.
    + apply IH. eapply caller_progress_step; eassumption.
    + now apply IH.
Qed.

End CallerOrder.

(** X26: each caller's notes are stored in the order the caller sent
    them, none dropped and none stored twice: at any moment the notes
    call [i] has stored are a prefix of the notes its client sent, and
    once the call has returned nil it has stored all of them. *)
Theorem RouteChat_stores_each_callers_notes_in_order
    (notes0 : gmap string (list RouteNote))
    (streams : list (RecvStream RouteNote * SendStream RouteNote))
    (schedule : list nat) (i : nat) (inbound : RecvStream RouteNote)
    (outbound : SendStream RouteNote) :
  let sys := fst (Concurrent.run (Concurrent.start notes0 streams) [] schedule) in
  let events := snd (Concurrent.run (Concurrent.start notes0 streams) [] schedule) in
  streams !! i = Some (inbound, outbound) ->
  exists c later,
    Concurrent.calls sys !! i = Some c /\
    incoming inbound = appended_by i events ++ later /\
    (Concurrent.position_of c = Concurrent.Returned None -> later = []).
Proof.
  intros sys events Hi.
  assert (H0 : caller_progress i (incoming inbound) (Concurrent.start notes0 streams) []).
  { eexists. split; [|split].
    - unfold Concurrent.start; cbn. rewrite list_lookup_fmap, Hi. reflexivity.
    - reflexivity.
    - discriminate. }
  destruct (caller_progress_run i (incoming inbound) schedule _ _ H0) as (c & Hc & Hsplit & Hret).
  fold sys events in Hc, Hsplit.
  exists c, (pending_note (Concurrent.position_of c) ++ incoming (Concurrent.inbound c)).
  split; [assumption|]. split; [assumption|].
  intros Hp. rewrite (Hret Hp), Hp. reflexivity.
Qed.

Lemma RouteChat_stores_each_callers_notes_in_order_witness :
  let N1 := {| NoteLocation := {| Latitude := 0; Longitude := 1 |}; Message := "I was here!" |} in
  let N2 := {| NoteLocation := {| Latitude := 0; Longitude := 1 |}; Message := "Ummm..." |} in
  let streams := [ ({| incoming := [N1; N2]; ending := io_EOF |},
                    {| sent := []; credit := None |}) ] in
  let sys := fst (Concurrent.run (Concurrent.start ∅ streams) [] (repeat 0%nat 9)) in
  let events := snd (Concurrent.run (Concurrent.start ∅ streams) [] (repeat 0%nat 9)) in
  exists c later,
    Concurrent.calls sys !! 0%nat = Some c /\
    [N1; N2] = appended_by 0 events ++ later /\
    (Concurrent.position_of c = Concurrent.Returned None -> later = []).
Proof.
  cbv zeta.
  refine (RouteChat_stores_each_callers_notes_in_order ∅
    [ ({| incoming := [ {| NoteLocation := {| Latitude := 0; Longitude := 1 |};
                           Message := "I was here!" |};
                        {| NoteLocation := {| Latitude := 0; Longitude := 1 |};
                           Message := "Ummm..." |} ]; ending := io_EOF |},
       {| sent := []; credit := None |}) ]
    (repeat 0%nat 9) 0%nat
    {| incoming := [ {| NoteLocation := {| Latitude := 0; Longitude := 1 |};
                        Message := "I was here!" |};
                     {| NoteLocation := {| Latitude := 0; Longitude := 1 |};
                        Message := "Ummm..." |} ]; ending := io_EOF |}
    {| sent := []; credit := None |} _).
  reflexivity.
Defined.

(** ** RecordRoute with features at distinct locations *)

Lemma matches_at_distinct (features : list Feature) (p : Point) :
  List.NoDup (map Location features) ->
  (length (List.filter (fun f => proto_Equal (Location f) p) features) <= 1)%nat.
Proof.
  induction features as [|f rest IH]; cbn; intros Hnd; [lia|].
  inversion Hnd as [|x l Hnotin Hrest]; subst.
  destruct (proto_Equal (Location f) p) eqn:E; [|now apply IH].
  apply proto_Equal_eq in E. subst p. cbn.
  rewrite filter_nil_In; [cbn; lia|].
  intros g Hg. apply proto_Equal_neq. intros Heq. apply Hnotin.
  rewrite <- Heq. now apply in_map.
Qed.

(** X27: when no two known features share a location, every received
    point counts for at most one feature, so a route of fewer than 2^31
    points gets a feature count between 0 and its point count. *)
Theorem RecordRoute_feature_count_at_most_point_count {M : GoMath} (s : server)
    (points : list Point) (elapsed : Z) (close : option error) :
  List.NoDup (map Location (knownFeatures s)) ->
  Z.of_nat (length points) <= Int32.max_signed ->
  exists summary,
    response (RecordRoute s {| incoming := points; ending := io_EOF |} elapsed close)
      = Some summary /\
    0 <= FeatureCount summary <= PointCount summary.
Proof.
  intros Hnd Hlen. rewrite RecordRoute_summary. eexists. split; [reflexivity|].
  cbn [FeatureCount PointCount].
  assert (Hle : total_matches s points <= Z.of_nat (length points)).
  { clear Hlen. induction points as [|p rest IH]; [cbn; lia|].
    cbn [total_matches length]. unfold matches_at at 1.
    pose proof (matches_at_distinct (knownFeatures s) p Hnd). lia. }
  pose proof (total_matches_nonneg s points).
  unfold Int32.max_signed in Hlen.
  rewrite !wrap_small by (unfold Int32.in_range, Int32.min_signed, Int32.max_signed; lia).
  lia.
Qed.

Lemma RecordRoute_feature_count_at_most_point_count_witness :
  let A := {| Latitude := 409146138; Longitude := -746188906 |} in
  let B := {| Latitude := 413628156; Longitude := -749015468 |} in
  let s := {| knownFeatures := [ {| Name := "A"; Location := A |}; {| Name := "B"; Location := B |} ];
              routeNotes := ∅ |} in
  exists summary,
    response (RecordRoute (M := small_angle_math) s
                {| incoming := [A; A; B]; ending := io_EOF |} 0 None) = Some summary /\
    0 <= FeatureCount summary <= PointCount summary.
Proof.
  cbv zeta. apply RecordRoute_feature_count_at_most_point_count.
  - repeat constructor; cbn; intuition discriminate.
  - vm_compute. discriminate.
Defined.

(** ** Concurrent calls: what a call sends *)

Section CallerSends.

Import Concurrent.

Variable i : nat.
Variable out0 : list RouteNote.

Lemma copied_by_app (evs1 evs2 : list event) :
  copied_by i (evs1 ++ evs2) = copied_by i evs1 ++ copied_by i evs2.
Proof.
  induction evs1 as [|[j note|j note rn| |] evs1 IH]; cbn; try assumption; [reflexivity|].
  case_decide; cbn; rewrite IH; [now rewrite app_assoc | reflexivity].
Qed.

Lemma Send_accepted (stream stream' : SendStream RouteNote) (note : RouteNote) :
  Send stream note = (stream', None) -> sent stream' = sent stream ++ [note].
Proof.
  unfold Send. destruct (credit stream) as [[|n]|]; [discriminate| |];
    now intros [= <-].
Qed.

Lemma sends_progress_step (sys sys' : system) (events : list event) (j : nat) (ev : event) :
  sends_progress i out0 sys events -> step sys j = Some (sys', ev) ->
  sends_progress i out0 sys' (events ++ [ev]).
Proof.
  intros (c & unsent & Hc & Heq & Hun) Hstep.
  enough (exists c' unsent',
            calls sys' !! i = Some c' /\
            sent (outbound c) ++ unsent ++ copied_by i [ev] = sent (outbound c') ++ unsent' /\
            ((forall err, position_of c' <> Returned (Some err)) ->
             unsent' = unsent_of (position_of c'))) as (c' & unsent' & Hc' & Heq' & Hun').
  { exists c', unsent'. split; [assumption|]. split; [|assumption].
    now rewrite copied_by_app, app_assoc, Heq, <- app_assoc. }
  destruct (decide (j = i)) as [->|Hne].
  - assert (Hi : (i < length (calls sys))%nat) by (eapply lookup_lt_Some; eassumption).
    unfold step in Hstep. rewrite Hc in Hstep.
    destruct (position_of c) as [|note|note|note entry|note|rn|[|note rn]|err] eqn:Hp;
      try discriminate;
      (rewrite Hun by discriminate);
      cbn [unsent_of] in *.
    + destruct (Recv (inbound c)) as [[note|[|]] rest]; injection Hstep as <- <-;
        cbn [calls move]; rewrite list_lookup_insert_eq by assumption;
        eexists; exists []; (split; [reflexivity|]); cbn; (split; [reflexivity|]);
        intros H; try reflexivity.
    + destruct (mu sys); [discriminate|]. injection Hstep as <- <-. cbn [calls move].
      rewrite list_lookup_insert_eq by assumption.
      eexists; exists []. split; [reflexivity|]. cbn. split; reflexivity.
    + injection Hstep as <- <-. cbn [calls move].
      rewrite list_lookup_insert_eq by assumption.
      eexists; exists []. split; [reflexivity|]. cbn. split; reflexivity.
    + injection Hstep as <- <-. cbn [calls move].
      rewrite list_lookup_insert_eq by assumption.
      eexists; exists []. split; [reflexivity|]. cbn. split; reflexivity.
    + injection Hstep as <- <-. cbn [calls move].
      rewrite list_lookup_insert_eq by assumption.
      eexists; exists (notes_at (registry sys) (location_key (NoteLocation note))).
      split; [reflexivity|]. cbn. rewrite decide_True by reflexivity.
      rewrite app_nil_r. split; reflexivity.
    + injection Hstep as <- <-. cbn [calls move].
      rewrite list_lookup_insert_eq by assumption.
      eexists; exists rn. split; [reflexivity|]. cbn. rewrite app_nil_r. split; reflexivity.
    + injection Hstep as <- <-. cbn [calls move].
      rewrite list_lookup_insert_eq by assumption.
      eexists; exists []. split; [reflexivity|]. cbn. split; reflexivity.
    + destruct (Send (outbound c) note) as [out [err|]] eqn:Esend; injection Hstep as <- <-;
        cbn [calls move]; rewrite list_lookup_insert_eq by assumption.
      * eexists; exists (note :: rn).
        split; [reflexivity|]. cbn. rewrite app_nil_r. split; [reflexivity|].
        intros H. now destruct (H err).
      * eexists; exists rn.
        split; [reflexivity|]. cbn. rewrite app_nil_r, (Send_accepted _ _ _ Esend).
        rewrite <- app_assoc. split; reflexivity.
  - pose proof (step_other_call _ _ _ _ _ Hstep (not_eq_sym Hne)) as Hother.
    pose proof (step_event_index _ _ _ _ Hstep) as Hev.
    exists c, unsent. rewrite Hother. split; [assumption|]. split; [|assumption].
    replace (copied_by i [ev]) with (@nil RouteNote); [now rewrite app_nil_r|].
    destruct ev; cbn; try reflexivity. subst. now rewrite decide_False by assumption.
Qed.

Lemma sends_progress_run (schedule : list nat) (sys : system) (events : list event) :
  sends_progress i out0 sys events ->
  sends_progress i out0 (fst (run sys events schedule)) (snd (run sys events schedule)).
Proof.
  revert sys events. induction schedule as [|j rest IH]; intros sys events H; cbn.
  - assumption.
  - destruct (step sys j) as [[sys' ev]|] eqn:Hstep.
    + apply IH. eapply sends_progress_step; eassumption.
    + now apply IH.
Qed.

End CallerSends.

(** X28: under any interleaving, what a call has handed to its outbound
    stream is a prefix of the snapshots it took, in the order it took
    them; while it sends a snapshot the missing part is the rest of that
    snapshot, and when it is back at Recv or has returned nil it has sent
    every snapshot in full. *)
Theorem RouteChat_sends_its_snapshots
    (notes0 : gmap string (list RouteNote))
    (streams : list (RecvStream RouteNote * SendStream RouteNote))
    (schedule : list nat) (i : nat) (inbound : RecvStream RouteNote)
    (outbound : SendStream RouteNote) :
  let sys := fst (Concurrent.run (Concurrent.start notes0 streams) [] schedule) in
  let events := snd (Concurrent.run (Concurrent.start notes0 streams) [] schedule) in
  streams !! i = Some (inbound, outbound) ->
  exists c unsent,
    Concurrent.calls sys !! i = Some c /\
    sent outbound ++ copied_by i events = sent (Concurrent.outbound c) ++ unsent /\
    (forall rn, Concurrent.position_of c = Concurrent.AtSend rn -> unsent = rn) /\
    (Concurrent.position_of c = Concurrent.AtRecv -> unsent = []) /\
    (Concurrent.position_of c = Concurrent.Returned None -> unsent = []).
Proof.
  intros sys events Hi.
  assert (H0 : sends_progress i (sent outbound) (Concurrent.start notes0 streams) []).
  { exists {| Concurrent.position_of := Concurrent.AtRecv;
              Concurrent.inbound := inbound; Concurrent.outbound := outbound |}, [].
    split; [|split].
    - unfold Concurrent.start; cbn. rewrite list_lookup_fmap, Hi. reflexivity.
    - reflexivity.
    - reflexivity. }
  destruct (sends_progress_run i (sent outbound) schedule _ _ H0) as (c & unsent & Hc & Heq & Hun).
  fold sys events in Hc, Heq.
  exists c, unsent. split; [assumption|]. split; [assumption|].
  split; [|split].
  - intros rn Hp. rewrite Hun by (intros err; rewrite Hp; discriminate). now rewrite Hp.
  - intros Hp. rewrite Hun by (intros err; rewrite Hp; discriminate). now rewrite Hp.
  - intros Hp. rewrite Hun by (intros err; rewrite Hp; discriminate). now rewrite Hp.
Qed.

Lemma RouteChat_sends_its_snapshots_witness :
  let N1 := {| NoteLocation := {| Latitude := 0; Longitude := 1 |}; Message := "I was here!" |} in
  let N2 := {| NoteLocation := {| Latitude := 0; Longitude := 1 |}; Message := "Ummm..." |} in
  let streams := [ ({| incoming := [N1; N2]; ending := io_EOF |},
                    {| sent := []; credit := None |}) ] in
  let sys := fst (Concurrent.run (Concurrent.start ∅ streams) [] (repeat 0%nat 16)) in
  let events := snd (Concurrent.run (Concurrent.start ∅ streams) [] (repeat 0%nat 16)) in
  exists c unsent,
    Concurrent.calls sys !! 0%nat = Some c /\
    [] ++ copied_by 0 events = sent (Concurrent.outbound c) ++ unsent /\
    (forall rn, Concurrent.position_of c = Concurrent.AtSend rn -> unsent = rn) /\
    (Concurrent.position_of c = Concurrent.AtRecv -> unsent = []) /\
    (Concurrent.position_of c = Concurrent.Returned None -> unsent = []).
Proof.
  cbv zeta.
  refine (RouteChat_sends_its_snapshots ∅
    [ ({| incoming := [ {| NoteLocation := {| Latitude := 0; Longitude := 1 |};
                           Message := "I was here!" |};
                        {| NoteLocation := {| Latitude := 0; Longitude := 1 |};
                           Message := "Ummm..." |} ]; ending := io_EOF |},
       {| sent := []; credit := None |}) ]
    (repeat 0%nat 16) 0%nat
    {| incoming := [ {| NoteLocation := {| Latitude := 0; Longitude := 1 |};
                        Message := "I was here!" |};
                     {| NoteLocation := {| Latitude := 0; Longitude := 1 |};
                        Message := "Ummm..." |} ]; ending := io_EOF |}
    {| sent := []; credit := None |} _).
  reflexivity.
Defined.

(** ** RecordRoute: the distance accumulator *)

(** X11: the distance is accumulated in an int32 and wraps around: on a
    route going back and forth [legs] times between two points, when
    [legs] times their distance lies between 2^31 and 2^32, RecordRoute
    reports that product minus 2^32, a negative distance (50,000 legs of
    55 km do it). *)
Theorem RecordRoute_distance_overflows {M : GoMath} (L : GoMathLaws M) (s : server)
    (a b : Point) (elapsed : Z) (legs : nat) (close : option error) :
  2 ^ 31 <= Z.of_nat legs * calcDistance a b < 2 ^ 32 ->
  exists summary,
    response (RecordRoute s {| incoming := back_and_forth a b legs; ending := io_EOF |}
                elapsed close) = Some summary /\
    Distance summary = Z.of_nat legs * calcDistance a b - 2 ^ 32 /\
    Distance summary < 0.
Proof.
  intros Hd. rewrite RecordRoute_summary. eexists. split; [reflexivity|].
  cbn [Distance].
  rewrite (route_length_back_and_forth a b (calcDistance a b))
    by (reflexivity || apply calcDistance_comm).
  assert (E : Int32.wrap (Z.of_nat legs * calcDistance a b)
              = Z.of_nat legs * calcDistance a b - 2 ^ 32).
  { unfold Int32.wrap, Int32.modulus.
    replace (Z.of_nat legs * calcDistance a b + 2 ^ 31)
      with (Z.of_nat legs * calcDistance a b - 2 ^ 31 + 1 * 2 ^ 32) by lia.
    rewrite Z.mod_add by lia. rewrite Z.mod_small by lia. lia. }
  rewrite E. lia.
Qed.

Lemma RecordRoute_distance_overflows_witness :
  let A := {| Latitude := 409146138; Longitude := -746188906 |} in
  let B := {| Latitude := 413628156; Longitude := -749015468 |} in
  exists summary,
    response (RecordRoute (M := small_angle_math) {| knownFeatures := []; routeNotes := ∅ |}
                {| incoming := back_and_forth A B (Z.to_nat 50000); ending := io_EOF |}
                0 None) = Some summary /\
    Distance summary
      = Z.of_nat (Z.to_nat 50000) * calcDistance (M := small_angle_math) A B - 2 ^ 32 /\
    Distance summary < 0.
Proof.
  cbv zeta. apply (RecordRoute_distance_overflows small_angle_math_laws).
  vm_compute. split; [discriminate | reflexivity].
Defined.
